(** * Omoi: the gaze-driven dwell-selection hook [useEyeTracking]

    A shallow embedding of the two versions of the hook found in the
    repository,

    - [src/hooks/useEyeTracking.ts]  (disabling pauses the gaze library), and
    - [src/unnamed/part_002]         (adds mouse arbitration; disabling ends
                                      the gaze library),

    together with the part of the browser they run against: the timer table
    behind [setTimeout]/[setInterval], the hit-test [document.elementsFromPoint],
    the script loader and the promise returned by [webgazer.begin()].

    Modelling conventions.
    - Screen coordinates and times are integers ([Z], CSS pixels and
      milliseconds).  The dwell percentage is a rational ([Q]); the source
      computes it in double precision.
    - Every handler runs to completion (the page is single threaded).  React
      state is the value last passed to its setter.  React re-renders the
      hook some time after a handler has set state ([Render]); only then
      does the effect on [gazePosition] copy it into
      [latestGazePositionRef], so that the ref can lag behind the state.
    - [dwellTime] is the value captured by the gaze listener; the prop is
      taken as constant during the life of the hook.  It is an integer; as a
      delay of [setTimeout] it is read as a 32-bit signed integer
      ([timeoutDelay]).
    - The DOM is read through a snapshot [Document] supplied with every gaze
      sample, as the tree may change between two samples. *)

From Stdlib Require Import ZArith QArith Qminmax List String Bool Arith Lia.
Import ListNotations.

Set Warnings "-abstract-large-number".

Open Scope Z_scope.

(* ===================================================================== *)
(** ** The DOM as the hook sees it *)
(* ===================================================================== *)

Record Point : Type := mkPoint { px : Z; py : Z }.

(** An element: its node identity, the value of its [data-symbol-id]
    attribute when it has one, whether it is an [HTMLElement] (only those have
    a [click()] method and are asked for [closest]), and its parent. *)
#[warnings="-register-all"]
Inductive Element : Type :=
  mkElement (node : nat) (symbolAttr : option string) (isHTMLElement : bool)
            (parentElement : option Element).

Definition node (el : Element) : nat :=
  match el with mkElement n _ _ _ => n end.

(** [el.getAttribute('data-symbol-id')] *)
Definition getAttribute (el : Element) : option string :=
  match el with mkElement _ a _ _ => a end.

Definition isHTMLElement (el : Element) : bool :=
  match el with mkElement _ _ h _ => h end.

Definition parentElement (el : Element) : option Element :=
  match el with mkElement _ _ _ p => p end.

(** [el.hasAttribute('data-symbol-id')] *)
Definition hasAttribute (el : Element) : bool :=
  match getAttribute el with Some _ => true | None => false end.

(** [el.closest('[data-symbol-id]')]: the element itself when it carries the
    attribute, otherwise its nearest ancestor that does. *)
Fixpoint closest (el : Element) : option Element :=
  match el with
  | mkElement _ (Some _) _ _ => Some el
  | mkElement _ None _ None => None
  | mkElement _ None _ (Some p) => closest p
  end.

(** [document.elementsFromPoint], topmost element first. *)
Definition Document : Type := Point -> list Element.

(* ===================================================================== *)
(** ** Target resolution (gazeListener, "TOLERANCE CHECK" to "closest") *)
(* ===================================================================== *)

Definition tolerance : Z := 50.

Definition pointsToCheck (p : Point) : list Point :=
  [ mkPoint (px p) (py p - tolerance);     (* Top *)
    mkPoint (px p) (py p + tolerance);     (* Bottom *)
    mkPoint (px p - tolerance) (py p);     (* Left *)
    mkPoint (px p + tolerance) (py p) ].   (* Right *)

(** The [for (const point of pointsToCheck)] loop: the first probe that has a
    tagged element pushes it onto [elements] and stops. *)
Fixpoint probeLoop (doc : Document) (points : list Point)
                   (elements : list Element) : list Element :=
  match points with
  | [] => elements
  | point :: rest =>
      match find hasAttribute (doc point) with
      | Some nearbyButton => elements ++ [nearbyButton]
      | None => probeLoop doc rest elements
      end
  end.

Definition toleranceCheck (doc : Document) (p : Point)
                          (elements : list Element) : list Element :=
  if negb (existsb hasAttribute elements)
  then probeLoop doc (pointsToCheck p) elements
  else elements.

(** Second loop: the first [HTMLElement] of the list whose [closest] is
    defined gives the button. *)
Fixpoint closestLoop (elements : list Element) : option Element :=
  match elements with
  | [] => None
  | el :: rest =>
      if isHTMLElement el
      then match closest el with
           | Some c => Some c
           | None => closestLoop rest
           end
      else closestLoop rest
  end.

(** The value of [buttonElement] once both loops have run. *)
Definition resolveButton (doc : Document) (p : Point) : option Element :=
  let elements := toleranceCheck doc p (doc p) in
  match find hasAttribute elements with
  | Some el => Some el
  | None => closestLoop elements
  end.

(** The id the dwell logic reads from the resolved button. *)
Definition resolveId (doc : Document) (p : Point) : option string :=
  match resolveButton doc p with
  | Some b => getAttribute b
  | None => None
  end.

(** The first probe point, in the order of [points], that has a tagged
    element, and that element. *)
Fixpoint firstProbeHit (doc : Document) (points : list Point) : option Element :=
  match points with
  | [] => None
  | point :: rest =>
      match find hasAttribute (doc point) with
      | Some b => Some b
      | None => firstProbeHit doc rest
      end
  end.

(** Resolution in the order the specification words it: the exact hit-test
    with its ancestor rule first, the four probes second. *)
Fixpoint ancestorRule (elements : list Element) : option Element :=
  match elements with
  | [] => None
  | el :: rest =>
      match closest el with
      | Some c => Some c
      | None => ancestorRule rest
      end
  end.

Definition exactPass (doc : Document) (p : Point) : option Element :=
  match find hasAttribute (doc p) with
  | Some el => Some el
  | None => ancestorRule (doc p)
  end.

Definition resolve_spec (doc : Document) (p : Point) : option string :=
  match exactPass doc p with
  | Some el => getAttribute el
  | None =>
      match firstProbeHit doc (pointsToCheck p) with
      | Some el => getAttribute el
      | None => None
      end
  end.

(* ===================================================================== *)
(** ** The page: timers, effects and the state of the hook *)
(* ===================================================================== *)

(** Which of the two source files is being run. *)
Inductive Variant : Type :=
  | PauseVariant    (* src/hooks/useEyeTracking.ts *)
  | MouseVariant.   (* src/unnamed/part_002 *)

(** The four callbacks the hook hands to [setTimeout]/[setInterval], with
    the variables their closures capture. *)
Inductive TimerAction : Type :=
  | DwellComplete (elementId : string) (buttonElement : Element)
  | ProgressTick
  | MouseInactive
  | InitDone.

Record Timer : Type := mkTimer { tid : nat; deadline : Z; action : TimerAction }.

(** The function returned by the effect, to be run before its next run. *)
Inductive Cleanup : Type :=
  | NoCleanup        (* the branch returned nothing *)
  | CleanupListener  (* part_002, resume branches: removeEventListener *)
  | CleanupInit.     (* the function returned after appending the script *)

(** Calls made on [window.webgazer] to start and stop it.  (The calls that
    configure it, [setGazeListener], [showVideoPreview] and
    [showPredictionPoints], are made once, right before [begin()]; of these
    the model keeps [gazeListenerSet].) *)
Inductive WgCall : Type := WgBegin | WgPause | WgResume | WgEnd.

(** Calls made on the resolved button when the dwell timer fires. *)
Inductive DomCall : Type :=
  | ClickCall (el : Element)            (* (buttonElement as HTMLElement).click() *)
  | DispatchClickEvent (el : Element).  (* buttonElement.dispatchEvent(evt) *)

Record World : Type := mkWorld {
  webgazerInitialized : bool;
  windowWebgazer : bool;
  enabled : bool;
  cleanup : Cleanup;
  gazePosition : option Point;
  hoveredElement : option string;
  dwellProgress : Q;
  isInitialized : bool;
  isUsingMouse : bool;
  dwellTimerRef : option nat;
  progressIntervalRef : option nat;
  dwellStartTimeRef : Z;
  currentHoveredRef : option string;
  mouseInactivityTimerRef : option nat;
  isUsingMouseRef : bool;
  latestGazePositionRef : option Point;
  now : Z;
  timers : list Timer;
  nextTimerId : nat;
  mouseListener : bool;
  gazeListenerSet : bool;
  pendingScripts : nat;
  pendingBegins : nat;
  scriptsAppended : nat;
  wgCalls : list WgCall;
  domCalls : list DomCall;
  cursorHidden : bool
}.

(** Field updates. *)


Definition set_webgazerInitialized (x : bool) (w : World) : World :=
    mkWorld x (windowWebgazer w) (enabled w) (cleanup w) (gazePosition w)
    (hoveredElement w) (dwellProgress w) (isInitialized w) (isUsingMouse w)
    (dwellTimerRef w) (progressIntervalRef w) (dwellStartTimeRef w)
    (currentHoveredRef w) (mouseInactivityTimerRef w) (isUsingMouseRef w)
    (latestGazePositionRef w) (now w) (timers w) (nextTimerId w)
    (mouseListener w) (gazeListenerSet w) (pendingScripts w) (pendingBegins w)
    (scriptsAppended w) (wgCalls w) (domCalls w) (cursorHidden w).

Definition set_windowWebgazer (x : bool) (w : World) : World :=
    mkWorld (webgazerInitialized w) x (enabled w) (cleanup w) (gazePosition w)
    (hoveredElement w) (dwellProgress w) (isInitialized w) (isUsingMouse w)
    (dwellTimerRef w) (progressIntervalRef w) (dwellStartTimeRef w)
    (currentHoveredRef w) (mouseInactivityTimerRef w) (isUsingMouseRef w)
    (latestGazePositionRef w) (now w) (timers w) (nextTimerId w)
    (mouseListener w) (gazeListenerSet w) (pendingScripts w) (pendingBegins w)
    (scriptsAppended w) (wgCalls w) (domCalls w) (cursorHidden w).

Definition set_enabled (x : bool) (w : World) : World :=
    mkWorld (webgazerInitialized w) (windowWebgazer w) x (cleanup w)
    (gazePosition w) (hoveredElement w) (dwellProgress w) (isInitialized w)
    (isUsingMouse w) (dwellTimerRef w) (progressIntervalRef w)
    (dwellStartTimeRef w) (currentHoveredRef w) (mouseInactivityTimerRef w)
    (isUsingMouseRef w) (latestGazePositionRef w) (now w) (timers w)
    (nextTimerId w) (mouseListener w) (gazeListenerSet w) (pendingScripts w)
    (pendingBegins w) (scriptsAppended w) (wgCalls w) (domCalls w)
    (cursorHidden w).

Definition set_cleanup (x : Cleanup) (w : World) : World :=
    mkWorld (webgazerInitialized w) (windowWebgazer w) (enabled w) x
    (gazePosition w) (hoveredElement w) (dwellProgress w) (isInitialized w)
    (isUsingMouse w) (dwellTimerRef w) (progressIntervalRef w)
    (dwellStartTimeRef w) (currentHoveredRef w) (mouseInactivityTimerRef w)
    (isUsingMouseRef w) (latestGazePositionRef w) (now w) (timers w)
    (nextTimerId w) (mouseListener w) (gazeListenerSet w) (pendingScripts w)
    (pendingBegins w) (scriptsAppended w) (wgCalls w) (domCalls w)
    (cursorHidden w).

Definition set_gazePosition (x : option Point) (w : World) : World :=
    mkWorld (webgazerInitialized w) (windowWebgazer w) (enabled w) (cleanup w)
    x (hoveredElement w) (dwellProgress w) (isInitialized w) (isUsingMouse w)
    (dwellTimerRef w) (progressIntervalRef w) (dwellStartTimeRef w)
    (currentHoveredRef w) (mouseInactivityTimerRef w) (isUsingMouseRef w)
    (latestGazePositionRef w) (now w) (timers w) (nextTimerId w)
    (mouseListener w) (gazeListenerSet w) (pendingScripts w) (pendingBegins w)
    (scriptsAppended w) (wgCalls w) (domCalls w) (cursorHidden w).

Definition set_hoveredElement (x : option string) (w : World) : World :=
    mkWorld (webgazerInitialized w) (windowWebgazer w) (enabled w) (cleanup w)
    (gazePosition w) x (dwellProgress w) (isInitialized w) (isUsingMouse w)
    (dwellTimerRef w) (progressIntervalRef w) (dwellStartTimeRef w)
    (currentHoveredRef w) (mouseInactivityTimerRef w) (isUsingMouseRef w)
    (latestGazePositionRef w) (now w) (timers w) (nextTimerId w)
    (mouseListener w) (gazeListenerSet w) (pendingScripts w) (pendingBegins w)
    (scriptsAppended w) (wgCalls w) (domCalls w) (cursorHidden w).

Definition set_dwellProgress (x : Q) (w : World) : World :=
    mkWorld (webgazerInitialized w) (windowWebgazer w) (enabled w) (cleanup w)
    (gazePosition w) (hoveredElement w) x (isInitialized w) (isUsingMouse w)
    (dwellTimerRef w) (progressIntervalRef w) (dwellStartTimeRef w)
    (currentHoveredRef w) (mouseInactivityTimerRef w) (isUsingMouseRef w)
    (latestGazePositionRef w) (now w) (timers w) (nextTimerId w)
    (mouseListener w) (gazeListenerSet w) (pendingScripts w) (pendingBegins w)
    (scriptsAppended w) (wgCalls w) (domCalls w) (cursorHidden w).

Definition set_isInitialized (x : bool) (w : World) : World :=
    mkWorld (webgazerInitialized w) (windowWebgazer w) (enabled w) (cleanup w)
    (gazePosition w) (hoveredElement w) (dwellProgress w) x (isUsingMouse w)
    (dwellTimerRef w) (progressIntervalRef w) (dwellStartTimeRef w)
    (currentHoveredRef w) (mouseInactivityTimerRef w) (isUsingMouseRef w)
    (latestGazePositionRef w) (now w) (timers w) (nextTimerId w)
    (mouseListener w) (gazeListenerSet w) (pendingScripts w) (pendingBegins w)
    (scriptsAppended w) (wgCalls w) (domCalls w) (cursorHidden w).

Definition set_isUsingMouse (x : bool) (w : World) : World :=
    mkWorld (webgazerInitialized w) (windowWebgazer w) (enabled w) (cleanup w)
    (gazePosition w) (hoveredElement w) (dwellProgress w) (isInitialized w) x
    (dwellTimerRef w) (progressIntervalRef w) (dwellStartTimeRef w)
    (currentHoveredRef w) (mouseInactivityTimerRef w) (isUsingMouseRef w)
    (latestGazePositionRef w) (now w) (timers w) (nextTimerId w)
    (mouseListener w) (gazeListenerSet w) (pendingScripts w) (pendingBegins w)
    (scriptsAppended w) (wgCalls w) (domCalls w) (cursorHidden w).

Definition set_dwellTimerRef (x : option nat) (w : World) : World :=
    mkWorld (webgazerInitialized w) (windowWebgazer w) (enabled w) (cleanup w)
    (gazePosition w) (hoveredElement w) (dwellProgress w) (isInitialized w)
    (isUsingMouse w) x (progressIntervalRef w) (dwellStartTimeRef w)
    (currentHoveredRef w) (mouseInactivityTimerRef w) (isUsingMouseRef w)
    (latestGazePositionRef w) (now w) (timers w) (nextTimerId w)
    (mouseListener w) (gazeListenerSet w) (pendingScripts w) (pendingBegins w)
    (scriptsAppended w) (wgCalls w) (domCalls w) (cursorHidden w).

Definition set_progressIntervalRef (x : option nat) (w : World) : World :=
    mkWorld (webgazerInitialized w) (windowWebgazer w) (enabled w) (cleanup w)
    (gazePosition w) (hoveredElement w) (dwellProgress w) (isInitialized w)
    (isUsingMouse w) (dwellTimerRef w) x (dwellStartTimeRef w)
    (currentHoveredRef w) (mouseInactivityTimerRef w) (isUsingMouseRef w)
    (latestGazePositionRef w) (now w) (timers w) (nextTimerId w)
    (mouseListener w) (gazeListenerSet w) (pendingScripts w) (pendingBegins w)
    (scriptsAppended w) (wgCalls w) (domCalls w) (cursorHidden w).

Definition set_dwellStartTimeRef (x : Z) (w : World) : World :=
    mkWorld (webgazerInitialized w) (windowWebgazer w) (enabled w) (cleanup w)
    (gazePosition w) (hoveredElement w) (dwellProgress w) (isInitialized w)
    (isUsingMouse w) (dwellTimerRef w) (progressIntervalRef w) x
    (currentHoveredRef w) (mouseInactivityTimerRef w) (isUsingMouseRef w)
    (latestGazePositionRef w) (now w) (timers w) (nextTimerId w)
    (mouseListener w) (gazeListenerSet w) (pendingScripts w) (pendingBegins w)
    (scriptsAppended w) (wgCalls w) (domCalls w) (cursorHidden w).

Definition set_currentHoveredRef (x : option string) (w : World) : World :=
    mkWorld (webgazerInitialized w) (windowWebgazer w) (enabled w) (cleanup w)
    (gazePosition w) (hoveredElement w) (dwellProgress w) (isInitialized w)
    (isUsingMouse w) (dwellTimerRef w) (progressIntervalRef w)
    (dwellStartTimeRef w) x (mouseInactivityTimerRef w) (isUsingMouseRef w)
    (latestGazePositionRef w) (now w) (timers w) (nextTimerId w)
    (mouseListener w) (gazeListenerSet w) (pendingScripts w) (pendingBegins w)
    (scriptsAppended w) (wgCalls w) (domCalls w) (cursorHidden w).

Definition set_mouseInactivityTimerRef (x : option nat) (w : World) : World :=
    mkWorld (webgazerInitialized w) (windowWebgazer w) (enabled w) (cleanup w)
    (gazePosition w) (hoveredElement w) (dwellProgress w) (isInitialized w)
    (isUsingMouse w) (dwellTimerRef w) (progressIntervalRef w)
    (dwellStartTimeRef w) (currentHoveredRef w) x (isUsingMouseRef w)
    (latestGazePositionRef w) (now w) (timers w) (nextTimerId w)
    (mouseListener w) (gazeListenerSet w) (pendingScripts w) (pendingBegins w)
    (scriptsAppended w) (wgCalls w) (domCalls w) (cursorHidden w).

Definition set_isUsingMouseRef (x : bool) (w : World) : World :=
    mkWorld (webgazerInitialized w) (windowWebgazer w) (enabled w) (cleanup w)
    (gazePosition w) (hoveredElement w) (dwellProgress w) (isInitialized w)
    (isUsingMouse w) (dwellTimerRef w) (progressIntervalRef w)
    (dwellStartTimeRef w) (currentHoveredRef w) (mouseInactivityTimerRef w) x
    (latestGazePositionRef w) (now w) (timers w) (nextTimerId w)
    (mouseListener w) (gazeListenerSet w) (pendingScripts w) (pendingBegins w)
    (scriptsAppended w) (wgCalls w) (domCalls w) (cursorHidden w).

Definition set_latestGazePositionRef (x : option Point) (w : World) : World :=
    mkWorld (webgazerInitialized w) (windowWebgazer w) (enabled w) (cleanup w)
    (gazePosition w) (hoveredElement w) (dwellProgress w) (isInitialized w)
    (isUsingMouse w) (dwellTimerRef w) (progressIntervalRef w)
    (dwellStartTimeRef w) (currentHoveredRef w) (mouseInactivityTimerRef w)
    (isUsingMouseRef w) x (now w) (timers w) (nextTimerId w) (mouseListener w)
    (gazeListenerSet w) (pendingScripts w) (pendingBegins w) (scriptsAppended
    w) (wgCalls w) (domCalls w) (cursorHidden w).

Definition set_now (x : Z) (w : World) : World :=
    mkWorld (webgazerInitialized w) (windowWebgazer w) (enabled w) (cleanup w)
    (gazePosition w) (hoveredElement w) (dwellProgress w) (isInitialized w)
    (isUsingMouse w) (dwellTimerRef w) (progressIntervalRef w)
    (dwellStartTimeRef w) (currentHoveredRef w) (mouseInactivityTimerRef w)
    (isUsingMouseRef w) (latestGazePositionRef w) x (timers w) (nextTimerId w)
    (mouseListener w) (gazeListenerSet w) (pendingScripts w) (pendingBegins w)
    (scriptsAppended w) (wgCalls w) (domCalls w) (cursorHidden w).

Definition set_timers (x : list Timer) (w : World) : World :=
    mkWorld (webgazerInitialized w) (windowWebgazer w) (enabled w) (cleanup w)
    (gazePosition w) (hoveredElement w) (dwellProgress w) (isInitialized w)
    (isUsingMouse w) (dwellTimerRef w) (progressIntervalRef w)
    (dwellStartTimeRef w) (currentHoveredRef w) (mouseInactivityTimerRef w)
    (isUsingMouseRef w) (latestGazePositionRef w) (now w) x (nextTimerId w)
    (mouseListener w) (gazeListenerSet w) (pendingScripts w) (pendingBegins w)
    (scriptsAppended w) (wgCalls w) (domCalls w) (cursorHidden w).

Definition set_nextTimerId (x : nat) (w : World) : World :=
    mkWorld (webgazerInitialized w) (windowWebgazer w) (enabled w) (cleanup w)
    (gazePosition w) (hoveredElement w) (dwellProgress w) (isInitialized w)
    (isUsingMouse w) (dwellTimerRef w) (progressIntervalRef w)
    (dwellStartTimeRef w) (currentHoveredRef w) (mouseInactivityTimerRef w)
    (isUsingMouseRef w) (latestGazePositionRef w) (now w) (timers w) x
    (mouseListener w) (gazeListenerSet w) (pendingScripts w) (pendingBegins w)
    (scriptsAppended w) (wgCalls w) (domCalls w) (cursorHidden w).

Definition set_mouseListener (x : bool) (w : World) : World :=
    mkWorld (webgazerInitialized w) (windowWebgazer w) (enabled w) (cleanup w)
    (gazePosition w) (hoveredElement w) (dwellProgress w) (isInitialized w)
    (isUsingMouse w) (dwellTimerRef w) (progressIntervalRef w)
    (dwellStartTimeRef w) (currentHoveredRef w) (mouseInactivityTimerRef w)
    (isUsingMouseRef w) (latestGazePositionRef w) (now w) (timers w)
    (nextTimerId w) x (gazeListenerSet w) (pendingScripts w) (pendingBegins w)
    (scriptsAppended w) (wgCalls w) (domCalls w) (cursorHidden w).

Definition set_gazeListenerSet (x : bool) (w : World) : World :=
    mkWorld (webgazerInitialized w) (windowWebgazer w) (enabled w) (cleanup w)
    (gazePosition w) (hoveredElement w) (dwellProgress w) (isInitialized w)
    (isUsingMouse w) (dwellTimerRef w) (progressIntervalRef w)
    (dwellStartTimeRef w) (currentHoveredRef w) (mouseInactivityTimerRef w)
    (isUsingMouseRef w) (latestGazePositionRef w) (now w) (timers w)
    (nextTimerId w) (mouseListener w) x (pendingScripts w) (pendingBegins w)
    (scriptsAppended w) (wgCalls w) (domCalls w) (cursorHidden w).

Definition set_pendingScripts (x : nat) (w : World) : World :=
    mkWorld (webgazerInitialized w) (windowWebgazer w) (enabled w) (cleanup w)
    (gazePosition w) (hoveredElement w) (dwellProgress w) (isInitialized w)
    (isUsingMouse w) (dwellTimerRef w) (progressIntervalRef w)
    (dwellStartTimeRef w) (currentHoveredRef w) (mouseInactivityTimerRef w)
    (isUsingMouseRef w) (latestGazePositionRef w) (now w) (timers w)
    (nextTimerId w) (mouseListener w) (gazeListenerSet w) x (pendingBegins w)
    (scriptsAppended w) (wgCalls w) (domCalls w) (cursorHidden w).

Definition set_pendingBegins (x : nat) (w : World) : World :=
    mkWorld (webgazerInitialized w) (windowWebgazer w) (enabled w) (cleanup w)
    (gazePosition w) (hoveredElement w) (dwellProgress w) (isInitialized w)
    (isUsingMouse w) (dwellTimerRef w) (progressIntervalRef w)
    (dwellStartTimeRef w) (currentHoveredRef w) (mouseInactivityTimerRef w)
    (isUsingMouseRef w) (latestGazePositionRef w) (now w) (timers w)
    (nextTimerId w) (mouseListener w) (gazeListenerSet w) (pendingScripts w) x
    (scriptsAppended w) (wgCalls w) (domCalls w) (cursorHidden w).

Definition set_scriptsAppended (x : nat) (w : World) : World :=
    mkWorld (webgazerInitialized w) (windowWebgazer w) (enabled w) (cleanup w)
    (gazePosition w) (hoveredElement w) (dwellProgress w) (isInitialized w)
    (isUsingMouse w) (dwellTimerRef w) (progressIntervalRef w)
    (dwellStartTimeRef w) (currentHoveredRef w) (mouseInactivityTimerRef w)
    (isUsingMouseRef w) (latestGazePositionRef w) (now w) (timers w)
    (nextTimerId w) (mouseListener w) (gazeListenerSet w) (pendingScripts w)
    (pendingBegins w) x (wgCalls w) (domCalls w) (cursorHidden w).

Definition set_wgCalls (x : list WgCall) (w : World) : World :=
    mkWorld (webgazerInitialized w) (windowWebgazer w) (enabled w) (cleanup w)
    (gazePosition w) (hoveredElement w) (dwellProgress w) (isInitialized w)
    (isUsingMouse w) (dwellTimerRef w) (progressIntervalRef w)
    (dwellStartTimeRef w) (currentHoveredRef w) (mouseInactivityTimerRef w)
    (isUsingMouseRef w) (latestGazePositionRef w) (now w) (timers w)
    (nextTimerId w) (mouseListener w) (gazeListenerSet w) (pendingScripts w)
    (pendingBegins w) (scriptsAppended w) x (domCalls w) (cursorHidden w).

Definition set_domCalls (x : list DomCall) (w : World) : World :=
    mkWorld (webgazerInitialized w) (windowWebgazer w) (enabled w) (cleanup w)
    (gazePosition w) (hoveredElement w) (dwellProgress w) (isInitialized w)
    (isUsingMouse w) (dwellTimerRef w) (progressIntervalRef w)
    (dwellStartTimeRef w) (currentHoveredRef w) (mouseInactivityTimerRef w)
    (isUsingMouseRef w) (latestGazePositionRef w) (now w) (timers w)
    (nextTimerId w) (mouseListener w) (gazeListenerSet w) (pendingScripts w)
    (pendingBegins w) (scriptsAppended w) (wgCalls w) x (cursorHidden w).

Definition set_cursorHidden (x : bool) (w : World) : World :=
    mkWorld (webgazerInitialized w) (windowWebgazer w) (enabled w) (cleanup w)
    (gazePosition w) (hoveredElement w) (dwellProgress w) (isInitialized w)
    (isUsingMouse w) (dwellTimerRef w) (progressIntervalRef w)
    (dwellStartTimeRef w) (currentHoveredRef w) (mouseInactivityTimerRef w)
    (isUsingMouseRef w) (latestGazePositionRef w) (now w) (timers w)
    (nextTimerId w) (mouseListener w) (gazeListenerSet w) (pendingScripts w)
    (pendingBegins w) (scriptsAppended w) (wgCalls w) (domCalls w) x.

(** What the environment can do to the page: the parent re-renders with a new
    [enabled] prop, a script load or a [begin()] promise settles, the gaze
    library delivers a sample (with the DOM as it is at that moment), the
    mouse moves, time passes, or React re-renders the hook with its props
    unchanged.  The model does not say when the library
    delivers samples: a sample reaches the listener whenever one is
    installed, and the calls made on the library are only recorded. *)
Inductive Input : Type :=
  | SetEnabled (b : bool)
  | ScriptLoaded
  | ScriptError
  | BeginResolved
  | BeginRejected
  | Gaze (doc : Document) (data : option Point)
  | MouseMove (p : Point)
  | Wait (ms : nat)
  | Render.

(** The page right after the component has mounted with [enabled = false]. *)
Definition mounted : World :=
  {| webgazerInitialized := false; windowWebgazer := false;
     enabled := false; cleanup := NoCleanup;
     gazePosition := None; hoveredElement := None; dwellProgress := 0%Q;
     isInitialized := false; isUsingMouse := false;
     dwellTimerRef := None; progressIntervalRef := None;
     dwellStartTimeRef := 0; currentHoveredRef := None;
     mouseInactivityTimerRef := None; isUsingMouseRef := false;
     latestGazePositionRef := None;
     now := 0; timers := []; nextTimerId := 1%nat;
     mouseListener := false; gazeListenerSet := false;
     pendingScripts := 0%nat; pendingBegins := 0%nat; scriptsAppended := 0%nat;
     wgCalls := []; domCalls := []; cursorHidden := false |}.

(** *** Browser timers *)

(** The delay of [setTimeout] and [setInterval] is a WebIDL [long]: the
    number is reduced modulo 2^32 into the signed 32-bit range ... *)
Definition toInt32 (n : Z) : Z := (n + 2147483648) mod 4294967296 - 2147483648.

(** ... and a negative delay counts as 0.  A delay above 2147483647 ms is
    therefore not waited for: 3000000000 gives 0. *)
Definition timeoutDelay (delay : Z) : Z := Z.max 0 (toInt32 delay).

Arguments timeoutDelay : simpl never.

(** [setTimeout(cb, delay)] and [setInterval(cb, delay)]: a fresh id, a
    deadline [timeoutDelay delay] ms from now. *)
Definition setTimer (a : TimerAction) (delay : Z) (w : World) : nat * World :=
  let id := nextTimerId w in
  (id, set_nextTimerId (S id)
         (set_timers (timers w ++ [mkTimer id (now w + timeoutDelay delay) a]) w)).

Definition hasId (id : nat) (t : Timer) : bool := (tid t =? id)%nat.

(** [clearTimeout(id)] / [clearInterval(id)] *)
Definition clearTimer (id : nat) (w : World) : World :=
  set_timers (filter (fun t => negb (hasId id t)) (timers w)) w.

(** An interval that has just run is due again one period later. *)
Definition rearm (id : nat) (next : Z) (ts : list Timer) : list Timer :=
  map (fun t => if hasId id t then mkTimer (tid t) next (action t) else t) ts.

(** React re-renders with the pending state and runs
    [useEffect(() => { latestGazePositionRef.current = gazePosition }, [gazePosition])].
    This happens after the handler that set the state has returned, not
    inside it.  Only [src/unnamed/part_002] has this ref and this effect;
    the other file never reads the field. *)
Definition commit (w : World) : World :=
  set_latestGazePositionRef (gazePosition w) w.

(** The elements that received a click event: [click()] delivers one when the
    receiver is an [HTMLElement] and throws a [TypeError] otherwise;
    [dispatchEvent] always delivers. *)
Fixpoint clickEvents (calls : list DomCall) : list Element :=
  match calls with
  | [] => []
  | ClickCall el :: rest =>
      if isHTMLElement el then el :: clickEvents rest else clickEvents rest
  | DispatchClickEvent el :: rest => el :: clickEvents rest
  end.

Definition activations (w : World) : list Element := clickEvents (domCalls w).

Section Hook.

Variable variant : Variant.
Variable dwellTime : Z.

(** *** The gaze listener *)

(** [try { (buttonElement as HTMLElement).click() }
     catch (err) { buttonElement.dispatchEvent(new MouseEvent('click', ...)) }] *)
Definition tryClick (buttonElement : Element) (w : World) : World :=
  if isHTMLElement buttonElement
  then set_domCalls (domCalls w ++ [ClickCall buttonElement]) w
  else set_domCalls (domCalls w ++ [ClickCall buttonElement;
                                    DispatchClickEvent buttonElement]) w.

(** Callback of [dwellTimerRef.current = setTimeout(() => {...}, dwellTime)] *)
Definition dwellCallback (buttonElement : Element) (w : World) : World :=
  let w := tryClick buttonElement w in
  let w := set_currentHoveredRef None w in
  let w := set_hoveredElement None w in
  let w := set_dwellProgress 0%Q w in
  match progressIntervalRef w with
  | Some id => set_progressIntervalRef None (clearTimer id w)
  | None => w
  end.

(** [Math.min((elapsed / dwellTime) * 100, 100)] *)
Definition progressAt (elapsed : Z) : Q :=
  Qmin (inject_Z elapsed / inject_Z dwellTime * 100)%Q 100%Q.

(** Callback of [progressIntervalRef.current = setInterval(() => {...}, 50)] *)
Definition progressCallback (w : World) : World :=
  let elapsed := now w - dwellStartTimeRef w in
  set_dwellProgress (progressAt elapsed) w.

(** The branch "NEW element - start dwell timer". *)
Definition startDwell (elementId : string) (buttonElement : Element)
                      (w : World) : World :=
  let w := set_currentHoveredRef (Some elementId) w in
  let w := set_hoveredElement (Some elementId) w in
  let w := set_dwellStartTimeRef (now w) w in
  let w := set_dwellProgress 0%Q w in
  let w := match dwellTimerRef w with
           | Some id => set_dwellTimerRef None (clearTimer id w)
           | None => w
           end in
  let w := match progressIntervalRef w with
           | Some id => set_progressIntervalRef None (clearTimer id w)
           | None => w
           end in
  let (iv, w) := setTimer ProgressTick 50 w in
  let w := set_progressIntervalRef (Some iv) w in
  let (tm, w) := setTimer (DwellComplete elementId buttonElement) dwellTime w in
  set_dwellTimerRef (Some tm) w.

(** The branch "Not looking at any button". *)
Definition stopDwell (w : World) : World :=
  match currentHoveredRef w with
  | Some _ =>
      let w := set_currentHoveredRef None w in
      let w := set_hoveredElement None w in
      let w := set_dwellProgress 0%Q w in
      let w := match dwellTimerRef w with
               | Some id => set_dwellTimerRef None (clearTimer id w)
               | None => w
               end in
      match progressIntervalRef w with
      | Some id => set_progressIntervalRef None (clearTimer id w)
      | None => w
      end
  | None => w
  end.

(** [elementId !== currentHoveredRef.current] *)
Definition differs (elementId : string) (cur : option string) : bool :=
  match cur with
  | Some c => negb (String.eqb elementId c)
  | None => true
  end.

(** [if (buttonElement) { ... } else { ... }], the dwell state machine. *)
Definition dwellStep (buttonElement : option Element) (w : World) : World :=
  match buttonElement with
  | Some b =>
      match getAttribute b with
      | Some elementId =>
          if negb (String.eqb elementId "") && differs elementId (currentHoveredRef w)
          then startDwell elementId b w
          else w
      | None => w
      end
  | None => stopDwell w
  end.

(** The point handed to [document.elementsFromPoint]. *)
Definition currentPoint (data : Point) (w : World) : Point :=
  match variant with
  | PauseVariant => data
  | MouseVariant =>
      if isUsingMouseRef w
      then match latestGazePositionRef w with
           | Some q => q
           | None => data
           end
      else data
  end.

Definition gazeListener (doc : Document) (data : option Point)
                        (w : World) : World :=
  match data with
  | None => w
  | Some xy =>
      let cur := currentPoint xy w in
      let w := match variant with
               | PauseVariant => set_gazePosition (Some xy) w
               | MouseVariant =>
                   if negb (isUsingMouseRef w)
                   then set_gazePosition (Some xy) w
                   else w
               end in
      dwellStep (resolveButton doc cur) w
  end.

(** *** The mouse handler (part_002 only) *)

Definition handleMouseMove (e : Point) (w : World) : World :=
  let w := set_isUsingMouse true w in
  let w := set_isUsingMouseRef true w in
  let w := set_gazePosition (Some e) w in
  let w := match mouseInactivityTimerRef w with
           | Some id => clearTimer id w
           | None => w
           end in
  let (id, w) := setTimer MouseInactive 5000 w in
  set_mouseInactivityTimerRef (Some id) w.

(** Callback of the 5000 ms inactivity timer. *)
Definition mouseInactiveCallback (w : World) : World :=
  set_isUsingMouseRef false (set_isUsingMouse false w).

(** *** Acquisition of the gaze library *)

(** [document.head.appendChild(script)] *)
Definition appendScript (w : World) : World :=
  set_scriptsAppended (S (scriptsAppended w))
    (set_pendingScripts (S (pendingScripts w)) w).

(** [script.onload]: the library is now on [window]; the listener is
    installed and [begin()] is called. *)
Definition onload (w : World) : World :=
  let w := set_windowWebgazer true w in
  let w := set_gazeListenerSet true w in
  let w := set_wgCalls (wgCalls w ++ [WgBegin]) w in
  set_pendingBegins (S (pendingBegins w)) w.

(** [.then(() => { webgazerInitialized = true; setTimeout(..., 1000) })] *)
Definition beginThen (w : World) : World :=
  let w := set_webgazerInitialized true w in
  snd (setTimer InitDone 1000 w).

(** Callback of that 1000 ms timer (the styling of the video preview is
    left out). *)
Definition initDoneCallback (w : World) : World :=
  set_isInitialized true w.

(** *** The effect on [enabled, dwellTime] *)

Definition callWebgazer (c : WgCall) (w : World) : World :=
  set_wgCalls (wgCalls w ++ [c]) w.

(** [if (!enabled) { ... return; }] *)
Definition disabledBranch (w : World) : World :=
  match variant with
  | PauseVariant =>
      let w := if windowWebgazer w && webgazerInitialized w
               then callWebgazer WgPause w
               else w in
      let w := set_gazePosition None w in
      let w := set_hoveredElement None w in
      let w := set_dwellProgress 0%Q w in
      let w := set_currentHoveredRef None w in
      let w := set_isInitialized false w in
      let w := match dwellTimerRef w with
               | Some id => clearTimer id w
               | None => w
               end in
      let w := match progressIntervalRef w with
               | Some id => clearTimer id w
               | None => w
               end in
      set_cleanup NoCleanup w
  | MouseVariant =>
      let w := if windowWebgazer w && webgazerInitialized w
               then set_webgazerInitialized false (callWebgazer WgEnd w)
               else w in
      let w := set_gazePosition None w in
      let w := set_hoveredElement None w in
      let w := set_dwellProgress 0%Q w in
      let w := set_currentHoveredRef None w in
      let w := set_isInitialized false w in
      let w := set_isUsingMouse false w in
      let w := set_isUsingMouseRef false w in
      let w := match dwellTimerRef w with
               | Some id => clearTimer id w
               | None => w
               end in
      let w := match progressIntervalRef w with
               | Some id => clearTimer id w
               | None => w
               end in
      let w := match mouseInactivityTimerRef w with
               | Some id => clearTimer id w
               | None => w
               end in
      let w := set_cursorHidden false w in
      set_cleanup NoCleanup w
  end.

(** The rest of the effect body, run when [enabled] is true. *)
Definition enabledBranch (w : World) : World :=
  match variant with
  | PauseVariant =>
      if webgazerInitialized w && windowWebgazer w
      then set_cleanup NoCleanup (set_isInitialized true (callWebgazer WgResume w))
      else if webgazerInitialized w
      then set_cleanup NoCleanup w
      else set_cleanup CleanupInit (appendScript w)
  | MouseVariant =>
      let w := set_cursorHidden true w in
      let w := set_mouseListener true w in
      if webgazerInitialized w && windowWebgazer w
      then set_cleanup CleanupListener
             (set_isInitialized true (callWebgazer WgResume w))
      else if webgazerInitialized w
      then set_cleanup CleanupListener w
      else set_cleanup CleanupInit (appendScript w)
  end.

(** The function returned by the previous run of the effect.  [CleanupInit]
    was created with [enabled = true] in its closure. *)
Definition runCleanup (w : World) : World :=
  match cleanup w with
  | NoCleanup => w
  | CleanupListener => set_mouseListener false w
  | CleanupInit =>
      match variant with
      | PauseVariant =>
          let w := if windowWebgazer w then callWebgazer WgPause w else w in
          let w := match progressIntervalRef w with
                   | Some id => clearTimer id w
                   | None => w
                   end in
          match dwellTimerRef w with
          | Some id => clearTimer id w
          | None => w
          end
      | MouseVariant =>
          let w := if windowWebgazer w then callWebgazer WgEnd w else w in
          let w := match progressIntervalRef w with
                   | Some id => clearTimer id w
                   | None => w
                   end in
          let w := match dwellTimerRef w with
                   | Some id => clearTimer id w
                   | None => w
                   end in
          let w := match mouseInactivityTimerRef w with
                   | Some id => clearTimer id w
                   | None => w
                   end in
          let w := set_mouseListener false w in
          set_cursorHidden false w
      end
  end.

(** A render with a new value of [enabled]: the old cleanup, then the body. *)
Definition useEffect (b : bool) (w : World) : World :=
  let w := set_enabled b (runCleanup w) in
  if b then enabledBranch w else disabledBranch w.

(** *** The event loop *)

(** Run a timer callback.  A timeout leaves the table before its callback
    runs; an interval stays, due again 50 ms later. *)
Definition fire (t : Timer) (w : World) : World :=
  match action t with
  | DwellComplete _ b => dwellCallback b (clearTimer (tid t) w)
  | ProgressTick =>
      progressCallback (set_timers (rearm (tid t) (now w + 50) (timers w)) w)
  | MouseInactive => mouseInactiveCallback (clearTimer (tid t) w)
  | InitDone => initDoneCallback (clearTimer (tid t) w)
  end.

(** A timer that was due at the start of the millisecond runs unless an
    earlier callback of the same millisecond cleared it. *)
Definition runTimer (w : World) (id : nat) : World :=
  match find (hasId id) (timers w) with
  | Some t => fire t w
  | None => w
  end.

Definition isDue (t0 : Z) (t : Timer) : bool := deadline t <=? t0.

(** One millisecond passes: the timers that are due run in the order they
    were created. *)
Definition tick (w : World) : World :=
  let w := set_now (now w + 1) w in
  fold_left runTimer (map tid (filter (isDue (now w)) (timers w))) w.

Fixpoint advance (ms : nat) (w : World) : World :=
  match ms with
  | O => w
  | S n => advance n (tick w)
  end.

(** One input.  A change of the [enabled] prop is a render: the effect on
    [gazePosition], declared first, runs before the effect on [enabled]. *)
Definition step (i : Input) (w : World) : World :=
  match i with
  | SetEnabled b =>
      if Bool.eqb b (enabled w) then w else useEffect b (commit w)
  | ScriptLoaded =>
      match pendingScripts w with
      | S n => onload (set_pendingScripts n w)
      | O => w
      end
  | ScriptError =>
      set_pendingScripts (pred (pendingScripts w)) w
  | BeginResolved =>
      match pendingBegins w with
      | S n => beginThen (set_pendingBegins n w)
      | O => w
      end
  | BeginRejected =>
      set_pendingBegins (pred (pendingBegins w)) w
  | Gaze doc data =>
      if gazeListenerSet w then gazeListener doc data w else w
  | MouseMove p =>
      if mouseListener w then handleMouseMove p w else w
  | Wait ms => advance ms w
  | Render => commit w
  end.

Fixpoint run (tr : list Input) (w : World) : World :=
  match tr with
  | [] => w
  | i :: rest => run rest (step i w)
  end.

End Hook.


(* ===================================================================== *)
(** ** Invariants of the page and vocabulary for traces *)
(* ===================================================================== *)

(** The four kinds of timer. *)
Inductive Kind : Type := KDwell | KProgress | KMouse | KInit.

Definition kind (a : TimerAction) : Kind :=
  match a with
  | DwellComplete _ _ => KDwell
  | ProgressTick => KProgress
  | MouseInactive => KMouse
  | InitDone => KInit
  end.

Definition isKind (k : Kind) (t : Timer) : bool :=
  match k, kind (action t) with
  | KDwell, KDwell | KProgress, KProgress | KMouse, KMouse | KInit, KInit => true
  | _, _ => false
  end.

(** Milliseconds that pass during a trace. *)
Fixpoint duration (tr : list Input) : nat :=
  match tr with
  | [] => O
  | Wait ms :: rest => (ms + duration rest)%nat
  | _ :: rest => duration rest
  end.

(** The trace delivers no gaze sample. *)
Fixpoint noGaze (tr : list Input) : Prop :=
  match tr with
  | [] => True
  | Gaze _ _ :: _ => False
  | _ :: rest => noGaze rest
  end.

(** Time since the last pointer movement the hook has handled and not
    forgotten: a movement counts when the hook is enabled, and a disable
    forgets it.  [en] is the current value of the prop. *)
Fixpoint pointerAge (tr : list Input) (en : bool) (age : option nat) : option nat :=
  match tr with
  | [] => age
  | SetEnabled b :: rest => pointerAge rest b (if b then age else None)
  | MouseMove _ :: rest => pointerAge rest en (if en then Some O else age)
  | Wait ms :: rest => pointerAge rest en (option_map (fun a => (a + ms)%nat) age)
  | _ :: rest => pointerAge rest en age
  end.

(** Time since the last pointer movement, whatever the hook did with it
    (the specification's [now - lastPointerActivityAt]). *)
Fixpoint sinceLastPointerMove (tr : list Input) (age : option nat) : option nat :=
  match tr with
  | [] => age
  | MouseMove _ :: rest => sinceLastPointerMove rest (Some O)
  | Wait ms :: rest =>
      sinceLastPointerMove rest (option_map (fun a => (a + ms)%nat) age)
  | _ :: rest => sinceLastPointerMove rest age
  end.

(** The point of the last pointer movement of a trace. *)
Fixpoint lastPointer (tr : list Input) (last : option Point) : option Point :=
  match tr with
  | [] => last
  | MouseMove p :: rest => lastPointer rest (Some p)
  | _ :: rest => lastPointer rest last
  end.

(** Whether React has re-rendered the hook since the last pointer movement
    of a trace. *)
Fixpoint renderedSinceMove (tr : list Input) (r : bool) : bool :=
  match tr with
  | [] => r
  | MouseMove _ :: rest => renderedSinceMove rest false
  | Render :: rest => renderedSinceMove rest true
  | _ :: rest => renderedSinceMove rest r
  end.

Section Invariants.

Variable variant : Variant.
Variable dwellTime : Z.

(** What every handler re-establishes when it returns: timer ids are unique
    and were all handed out by the page; each of the three refs holds the id
    of every pending timer of its kind and of no other timer; a pending dwell
    timer or progress interval belongs to the hovered target. *)
Record Consistent (w : World) : Prop := {
  inv_nodup : NoDup (map tid (timers w));
  inv_fresh : forall t, In t (timers w) -> (tid t < nextTimerId w)%nat;
  inv_dwell_ref : forall i, dwellTimerRef w = Some i -> (i < nextTimerId w)%nat;
  inv_progress_ref : forall i, progressIntervalRef w = Some i ->
                     (i < nextTimerId w)%nat;
  inv_mouse_ref : forall i, mouseInactivityTimerRef w = Some i ->
                  (i < nextTimerId w)%nat;
  inv_dwell_own : forall t, In t (timers w) ->
                  (kind (action t) = KDwell <-> dwellTimerRef w = Some (tid t));
  inv_progress_own : forall t, In t (timers w) ->
                  (kind (action t) = KProgress <->
                   progressIntervalRef w = Some (tid t));
  inv_mouse_own : forall t, In t (timers w) ->
                  (kind (action t) = KMouse <->
                   mouseInactivityTimerRef w = Some (tid t));
  inv_dwell : forall t T b, In t (timers w) -> action t = DwellComplete T b ->
              currentHoveredRef w = Some T /\ getAttribute b = Some T /\
              T <> ""%string /\
              deadline t = dwellStartTimeRef w + timeoutDelay dwellTime;
  inv_progress : forall t, In t (timers w) -> action t = ProgressTick ->
                 currentHoveredRef w <> None;
  inv_hovered : hoveredElement w = currentHoveredRef w;
  inv_mouse_state : isUsingMouse w = isUsingMouseRef w;
  inv_idle : currentHoveredRef w = None -> dwellProgress w = 0%Q;
  inv_flag : webgazerInitialized w = true -> windowWebgazer w = true;
  inv_begun : pendingBegins w <> O -> windowWebgazer w = true;
  inv_pause : variant = PauseVariant ->
              isUsingMouseRef w = false /\ mouseListener w = false /\
              mouseInactivityTimerRef w = None;
  inv_listener : variant = MouseVariant -> mouseListener w = enabled w;
  inv_disabled : enabled w = false -> isUsingMouseRef w = false;
  inv_cleanup_off : enabled w = false -> cleanup w = NoCleanup;
  inv_cleanup_on : variant = MouseVariant -> enabled w = true ->
                   cleanup w <> NoCleanup
}.

(** The dwell percentage stays under what the clock allows. *)
Definition Bounded (w : World) : Prop :=
  dwellStartTimeRef w <= now w /\
  (0 <= dwellProgress w)%Q /\
  (dwellProgress w <= progressAt dwellTime (now w - dwellStartTimeRef w))%Q.

Definition reachable (w : World) : Prop :=
  exists tr, w = run variant dwellTime tr mounted.

(** During [tr], started in [w], no prop change happens and every gaze
    sample resolves to a button whose id is [T]. *)
Fixpoint staysOn (T : string) (tr : list Input) (w : World) : Prop :=
  match tr with
  | [] => True
  | i :: rest =>
      match i with
      | SetEnabled _ => False
      | Gaze doc (Some xy) =>
          resolveId doc (currentPoint variant xy w) = Some T
      | _ => True
      end /\ staysOn T rest (step variant dwellTime i w)
  end.

End Invariants.

(** [if (ref.current) clearTimeout(ref.current)] on the timer table. *)
Definition cancel (r : option nat) (ts : list Timer) : list Timer :=
  match r with
  | Some id => filter (fun t => negb (hasId id t)) ts
  | None => ts
  end.

(** The calls [tryClick] makes on its button. *)
Definition clickCalls (b : Element) : list DomCall :=
  if isHTMLElement b then [ClickCall b] else [ClickCall b; DispatchClickEvent b].

(** The calls a disable or a cleanup makes on the gaze library. *)
Definition stopCalls (c : WgCall) (cond : bool) : list WgCall :=
  if cond then [c] else [].


(** No dwell is in progress: nothing is hovered, the percentage is 0 and the
    timer table holds neither a dwell timer nor a progress interval. *)
Definition NoDwell (w : World) : Prop :=
  currentHoveredRef w = None /\ hoveredElement w = None /\
  dwellProgress w = 0%Q /\
  forall t, In t (timers w) ->
            kind (action t) <> KDwell /\ kind (action t) <> KProgress.

(** The pending dwell timers and progress intervals. *)
Definition dwellTimers (w : World) : list Timer :=
  filter (fun t => isKind KDwell t || isKind KProgress t) (timers w).

(** Between two states of the page: the same target is hovered and the
    percentage has not gone down, or nothing is hovered any more and the
    percentage is back at 0. *)
Definition Progressed (w w' : World) : Prop :=
  (hoveredElement w' = hoveredElement w /\
   (dwellProgress w <= dwellProgress w')%Q) \/
  (hoveredElement w' = None /\ dwellProgress w' = 0%Q).

(** How the page stands to the pointer clock [age] kept by [pointerAge]
    while the prop is [en]: within 5000 ms of a handled movement the mouse is
    in use and its inactivity timer is due when the 5000 ms are over;
    otherwise the mouse is not in use. *)
Definition pointerRel (en : bool) (age : option nat) (w : World) : Prop :=
  enabled w = en /\ (en = false -> age = None) /\
  match age with
  | Some n =>
      if (n <? 5000)%nat
      then isUsingMouse w = true /\
           exists t, In t (timers w) /\ action t = MouseInactive /\
                     deadline t = now w + 5000 - Z.of_nat n
      else isUsingMouse w = false
  | None => isUsingMouse w = false
  end.

(** The pointer clock after one more input. *)
Definition pointerEnabled (i : Input) (en : bool) : bool :=
  match i with SetEnabled b => b | _ => en end.

Definition pointerClock (i : Input) (en : bool) (age : option nat) : option nat :=
  match i with
  | SetEnabled b => if b then age else None
  | MouseMove _ => if en then Some O else age
  | Wait ms => option_map (fun a => (a + ms)%nat) age
  | _ => age
  end.

(** How the page stands to the last pointer point [last] kept by
    [lastPointer]: while the mouse is in use, the reported position is that
    point and the mouse handler is registered. *)
Definition pointRel (last : option Point) (w : World) : Prop :=
  isUsingMouseRef w = true ->
  gazePosition w = last /\ (exists p, last = Some p) /\ mouseListener w = true.

Definition pointAfter (i : Input) (last : option Point) : option Point :=
  match i with MouseMove p => Some p | _ => last end.

(** How the page stands to [renderedSinceMove]: while the mouse is in use,
    once React has re-rendered since the last movement the position kept for
    the gaze listener is that movement's point. *)
Definition syncRel (r : bool) (last : option Point) (w : World) : Prop :=
  isUsingMouseRef w = true -> r = true -> latestGazePositionRef w = last.

Definition renderedAfter (i : Input) (r : bool) : bool :=
  match i with MouseMove _ => false | Render => true | _ => r end.

(** The page during the dwell on [T] whose timer is [t0], with [calls] the
    calls made on buttons so far. *)
Definition Dwelling (T : string) (t0 : Timer) (calls : list DomCall)
    (w : World) : Prop :=
  In t0 (timers w) /\ currentHoveredRef w = Some T /\
  hoveredElement w = Some T /\ domCalls w = calls.


(** No dwell timer can run before time [D]: every pending one is due at [D]
    or later, and so will be any that is started from now on. *)
Definition Guarded (dwellTime : Z) (D : Z) (w : World) : Prop :=
  D <= now w + timeoutDelay dwellTime /\
  forall t, In t (timers w) -> kind (action t) = KDwell -> D <= deadline t.

(* ===================================================================== *)
(** ** Concrete pages and traces used below *)
(* ===================================================================== *)

(** A page on which the two orders disagree: at the sampled point lies an
    untagged element whose tagged parent is itself not hit there, and 50 px
    above lies another tagged element. *)
Definition parentA : Element := mkElement 1 (Some "a"%string) true None.
Definition childOfA : Element := mkElement 2 None true (Some parentA).
Definition buttonB : Element := mkElement 3 (Some "b"%string) true None.

Definition overlapDoc : Document :=
  fun p =>
    if (px p =? 100) && (py p =? 100) then [childOfA]
    else if (px p =? 100) && (py p =? 50) then [buttonB]
    else [].


(** The user enables the hook, the script loads and [begin()] is called, and
    the user disables the hook before the promise settles. *)
Definition disabledWhileStarting : list Input :=
  [SetEnabled true; ScriptLoaded; SetEnabled false].

(** The promise then resolves, and a second passes. *)
Definition lateSuccess : list Input := [BeginResolved; Wait 1000].

(** Enable, let the acquisition succeed, disable, enable again, and let the
    second script load. *)
Definition enableTwice : list Input :=
  [SetEnabled true; ScriptLoaded; BeginResolved;
   SetEnabled false; SetEnabled true; ScriptLoaded].

(** The number of [begin()] calls among the calls made on the library. *)
Definition beginCalls (w : World) : nat :=
  List.length (filter (fun c => match c with WgBegin => true | _ => false end)
                 (wgCalls w)).

(** A tagged element that is not an [HTMLElement] (an SVG group, say), and a
    page that shows it in the square [0,100) x [0,100). *)
Definition svgButton : Element := mkElement 7 (Some "s"%string) false None.

Definition inSquare (p : Point) : bool :=
  (0 <=? px p) && (px p <? 100) && (0 <=? py p) && (py p <? 100).

Definition svgDoc : Document := fun p => if inSquare p then [svgButton] else [].

(** The hook is running and the gaze rests on the element for two seconds. *)
Definition started : list Input := [SetEnabled true; ScriptLoaded; BeginResolved].

Definition dwellOnSvg : list Input :=
  started ++ [Gaze svgDoc (Some (mkPoint 10 10)); Wait 2000].

(** The mouse moves, and one second later the hook is disabled. *)
Definition moveThenDisable : list Input :=
  [SetEnabled true; MouseMove (mkPoint 300 300); Wait 1000; SetEnabled false].

(** A button whose [data-symbol-id] attribute is present but empty, and a
    page that shows it in the square [0,100) x [0,100). *)
Definition emptyButton : Element := mkElement 9 (Some ""%string) true None.

Definition emptyDoc : Document :=
  fun p => if inSquare p then [emptyButton] else [].

(** The gaze rests on it, sampled every second, for four seconds. *)
Definition dwellOnEmpty : list Input :=
  started ++ [Gaze emptyDoc (Some (mkPoint 10 10)); Wait 1000;
              Gaze emptyDoc (Some (mkPoint 11 10)); Wait 1000;
              Gaze emptyDoc (Some (mkPoint 10 11)); Wait 1000;
              Gaze emptyDoc (Some (mkPoint 11 11)); Wait 1000].

(** An ordinary symbol button, shown in the square [0,100) x [0,100). *)
Definition appleButton : Element := mkElement 1 (Some "apple"%string) true None.

Definition appleDoc : Document :=
  fun p => if inSquare p then [appleButton] else [].

(** The page once the gaze library runs. *)
Definition running (variant : Variant) : World :=
  run variant 2000 started mounted.

(** 1200 ms into a dwell on the apple: 60 percent. *)
Definition midDwell : list Input :=
  started ++ [Gaze appleDoc (Some (mkPoint 10 10)); Wait 1200].

(** The rest of a dwell on the apple, sampled twice, up to 1500 ms. *)
Definition holdApple : list Input :=
  [Wait 500; Gaze appleDoc (Some (mkPoint 12 10)); Wait 500;
   Gaze appleDoc (Some (mkPoint 10 12)); Wait 500].

(** One millisecond before the dwell on the SVG element completes, and its
    dwell timer. *)
Definition beforeSvgClick : list Input :=
  started ++ [Gaze svgDoc (Some (mkPoint 10 10)); Wait 1999].

Definition svgTimer : Timer := mkTimer 3 2000 (DwellComplete "s" svgButton).

(** After a disable: the mouse moves, the props flap, time passes. *)
Definition afterDisable : list Input :=
  [MouseMove (mkPoint 5 5); Wait 3000; SetEnabled true; BeginRejected;
   MouseMove (mkPoint 6 6); Wait 6000].

(** The mouse rests over the apple and no gaze sample ever arrives. *)
Definition mouseOnly : list Input :=
  [SetEnabled true; MouseMove (mkPoint 10 10); Wait 3000;
   MouseMove (mkPoint 11 10); Wait 10000].

(** The mouse has moved 2 s ago. *)
Definition mouseRecently : list Input :=
  started ++ [MouseMove (mkPoint 300 300); Wait 2000].

(** A gaze sample far from the apple is rendered, then the mouse moves onto
    the apple; React has not re-rendered yet. *)
Definition mouseBeforeRender : list Input :=
  started ++ [Gaze appleDoc (Some (mkPoint 700 700)); Render;
              MouseMove (mkPoint 10 10)].

(** ... and now it has. *)
Definition mouseRendered : list Input := mouseBeforeRender ++ [Render].

(** The hook is disabled; then a gaze sample on the apple arrives and two
    seconds pass. *)
Definition sampleAfterDisable : list Input :=
  [SetEnabled false; Gaze appleDoc (Some (mkPoint 10 10)); Wait 2000].
(* ===================================================================== *)
(** ** Further vocabulary for the hook *)
(* ===================================================================== *)

(** Whatever is shown as in progress has its timers pending: a hovered
    target its progress interval and its dwell timer, pointer mode its
    inactivity timer (and an inactivity timer is pending in pointer mode
    only). *)
Definition Armed (w : World) : Prop :=
  (forall T, currentHoveredRef w = Some T ->
     exists iv tm b,
       In iv (timers w) /\ action iv = ProgressTick /\
       In tm (timers w) /\ action tm = DwellComplete T b) /\
  (isUsingMouseRef w = true ->
     exists t, In t (timers w) /\ action t = MouseInactive) /\
  (forall t, In t (timers w) -> action t = MouseInactive ->
             isUsingMouseRef w = true).

(** The element a call was made on. *)
Definition receiver (c : DomCall) : Element :=
  match c with ClickCall el => el | DispatchClickEvent el => el end.

(** The element carries a non-empty [data-symbol-id]. *)
Definition isSymbolButton (el : Element) : Prop :=
  exists T, getAttribute el = Some T /\ T <> ""%string.

(** The trace changes no prop. *)
Fixpoint noPropChange (tr : list Input) : Prop :=
  match tr with
  | [] => True
  | SetEnabled _ :: _ => False
  | _ :: rest => noPropChange rest
  end.

(** The call that stops the gaze library: [pause()] in
    [src/hooks/useEyeTracking.ts], [end()] in [src/unnamed/part_002]. *)
Definition stopCall (variant : Variant) : WgCall :=
  match variant with PauseVariant => WgPause | MouseVariant => WgEnd end.

(** Since the page made the calls [c0], no button has been asked to click,
    or one has and no dwell timer can run before [D]. *)
Definition Once (dwellTime : Z) (D : Z) (c0 : list DomCall) (x : World) : Prop :=
  domCalls x = c0 \/
  exists b, domCalls x = c0 ++ clickCalls b /\ Guarded dwellTime D x.

(** The calls made so far are none while the script has not loaded, and
    start with [begin()] once it has. *)
Definition Begun (w : World) : Prop :=
  if windowWebgazer w then exists rest, wgCalls w = WgBegin :: rest
  else wgCalls w = [].

(** Between two pages: the fields written by the effect alone are the same,
    and the module flag and the library, once there, still are. *)
Definition EffectKept (w w' : World) : Prop :=
  enabled w' = enabled w /\ cleanup w' = cleanup w /\
  mouseListener w' = mouseListener w /\ cursorHidden w' = cursorHidden w /\
  (webgazerInitialized w = true -> webgazerInitialized w' = true) /\
  (windowWebgazer w = true -> windowWebgazer w' = true).

(** The percentage shown [elapsed] ms into a dwell: that of the last run of
    the progress interval, which runs every 50 ms. *)
Definition shownProgress (dwellTime : Z) (elapsed : Z) : Q :=
  if elapsed <? 50 then 0%Q else progressAt dwellTime (50 * (elapsed / 50)).

(** The progress interval of the dwell that started at [s], [e] ms into it:
    the interval is due at the next multiple of 50 ms and the percentage of
    the last one is shown. *)
Definition SamplingAt (dwellTime : Z) (s e : Z) (x : World) : Prop :=
  dwellStartTimeRef x = s /\
  exists iv, In iv (timers x) /\ action iv = ProgressTick /\
             deadline iv = s + 50 * (e / 50 + 1) /\
             dwellProgress x = shownProgress dwellTime e.

(** The gaze stays on the apple for 1200 ms, sampled once on the way. *)
Definition lookOn : list Input :=
  [Wait 600; Gaze appleDoc (Some (mkPoint 12 10)); Render; Wait 600].
(* ===================================================================== *)
(** * The board the hook is used on

    The caller of the hook, [src/App.tsx], with the data it shows:
    [src/types.ts], [src/constants.ts] and [flattenVocabulary] of
    [src/services/geminiService.ts].  Each source file has a module of its
    name.  Strings are byte strings; the ids and labels of the vocabulary are
    ASCII, and an emoji is kept as the bytes the source file has for it. *)
(* ===================================================================== *)

Module Types.

(** [enum NodeType] *)
Inductive NodeType : Type := CATEGORY | ITEM.

(** [interface AACSymbol]; a field marked [?] is an [option]. *)
#[warnings="-register-all"]
Inductive AACSymbol : Type :=
  mkAACSymbol (id label emoji color : string) (type : NodeType)
              (keywords : option (list string))
              (children : option (list AACSymbol))
              (parentId : option string)
              (relatedIds : option (list string)).

Definition id (s : AACSymbol) : string :=
  match s with mkAACSymbol i _ _ _ _ _ _ _ _ => i end.

Definition label (s : AACSymbol) : string :=
  match s with mkAACSymbol _ l _ _ _ _ _ _ _ => l end.

Definition emoji (s : AACSymbol) : string :=
  match s with mkAACSymbol _ _ e _ _ _ _ _ _ => e end.

Definition color (s : AACSymbol) : string :=
  match s with mkAACSymbol _ _ _ c _ _ _ _ _ => c end.

Definition type (s : AACSymbol) : NodeType :=
  match s with mkAACSymbol _ _ _ _ t _ _ _ _ => t end.

Definition keywords (s : AACSymbol) : option (list string) :=
  match s with mkAACSymbol _ _ _ _ _ k _ _ _ => k end.

Definition children (s : AACSymbol) : option (list AACSymbol) :=
  match s with mkAACSymbol _ _ _ _ _ _ c _ _ => c end.

Definition parentId (s : AACSymbol) : option string :=
  match s with mkAACSymbol _ _ _ _ _ _ _ p _ => p end.

Definition relatedIds (s : AACSymbol) : option (list string) :=
  match s with mkAACSymbol _ _ _ _ _ _ _ _ r => r end.

End Types.

Module Constants.

Import Types.
Local Open Scope string_scope.
Local Open Scope list_scope.

(** [String.prototype.toLowerCase] on ASCII text. *)
Definition lowerAscii (c : Ascii.ascii) : Ascii.ascii :=
  let n := Ascii.nat_of_ascii c in
  if ((65 <=? n) && (n <=? 90))%nat then Ascii.ascii_of_nat (n + 32) else c.

Fixpoint toLowerCase (s : string) : string :=
  match s with
  | EmptyString => EmptyString
  | String c rest => String (lowerAscii c) (toLowerCase rest)
  end.

(** [createSymbol]; the defaults of [keywords] and [relatedIds] are [[]],
    and a call that leaves [children] out passes [None]. *)
Definition createSymbol (id label emoji color : string) (type : NodeType)
    (children : option (list AACSymbol)) (keywords relatedIds : list string)
    : AACSymbol :=
  mkAACSymbol id label emoji color type
              (Some (toLowerCase label :: keywords))
              children None (Some relatedIds).

(** [COLORS] *)
Definition YELLOW : string := "bg-amber-100 border-amber-300 hover:bg-amber-200".
Definition GREEN : string :=
  "bg-emerald-100 border-emerald-300 hover:bg-emerald-200".
Definition BLUE : string := "bg-sky-100 border-sky-300 hover:bg-sky-200".
Definition ORANGE : string :=
  "bg-orange-100 border-orange-300 hover:bg-orange-200".
Definition PURPLE : string :=
  "bg-purple-100 border-purple-300 hover:bg-purple-200".
Definition RED : string := "bg-rose-100 border-rose-300 hover:bg-rose-200".
Definition GRAY : string := "bg-slate-100 border-slate-300 hover:bg-slate-200".
Definition WHITE : string := "bg-white border-gray-200 hover:bg-gray-50".

Definition VOCABULARY : list AACSymbol :=
  [
    createSymbol "cat_food" "Eat / Drink" "ğŸ”" ORANGE CATEGORY
      (Some [
          createSymbol "water" "Water" "ğŸ’§" BLUE ITEM None [] ["drink"];
          createSymbol "juice" "Juice" "ğŸ§ƒ" ORANGE ITEM None [] ["drink"];
          createSymbol "milk" "Milk" "ğŸ¥›" WHITE ITEM None [] ["drink"];
          createSymbol "apple" "Apple" "ğŸ" RED ITEM None [] ["eat"];
          createSymbol "banana" "Banana" "ğŸŒ" YELLOW ITEM None [] ["eat"];
          createSymbol "nuggets" "Nuggets" "ğŸ—" ORANGE ITEM None [] ["eat"];
          createSymbol "pizza" "Pizza" "ğŸ•" ORANGE ITEM None [] ["eat"];
          createSymbol "chips" "Chips" "ğŸ¥”" YELLOW ITEM None [] ["eat"];
          createSymbol "candy" "Candy" "ğŸ¬" PURPLE ITEM None [] ["eat"];
          createSymbol "hungry" "Hungry" "ğŸ˜‹" ORANGE ITEM None [] [];
          createSymbol "thirsty" "Thirsty" "ğŸ¥¤" BLUE ITEM None [] [] ])
      [] [];
    createSymbol "cat_play" "Play" "ğŸ›" GREEN CATEGORY
      (Some [
          createSymbol "blocks" "Blocks" "ğŸ§±" RED ITEM None [] [];
          createSymbol "ball" "Ball" "âš½" WHITE ITEM None [] [];
          createSymbol "doll" "Doll" "ğŸ" PURPLE ITEM None [] [];
          createSymbol "cars" "Cars" "ğŸš—" BLUE ITEM None [] [];
          createSymbol "tablet" "iPad" "ğŸ“±" GRAY ITEM None [] [];
          createSymbol "bubbles" "Bubbles" "ğŸ«§" BLUE ITEM None [] [];
          createSymbol "music" "Music" "ğŸµ" PURPLE ITEM None [] [];
          createSymbol "puzzle" "Puzzle" "ğŸ§©" GREEN ITEM None [] [] ])
      [] [];
    createSymbol "cat_places" "Go To..." "ğŸš¶" BLUE CATEGORY
      (Some [
          createSymbol "car" "Car" "ğŸš—" GRAY ITEM None [] [];
          createSymbol "home" "Home" "ğŸ " ORANGE ITEM None [] [];
          createSymbol "school" "School" "ğŸ«" YELLOW ITEM None [] [];
          createSymbol "park" "Park" "ğŸŒ³" GREEN ITEM None [] [];
          createSymbol "outside" "Outside" "â˜€ï¸" BLUE ITEM None [] [];
          createSymbol "grandmas" "Grandmas" "ğŸ‘µ" PURPLE ITEM None [] [];
          createSymbol "store" "Store" "ğŸª" BLUE ITEM None [] [] ])
      [] [];
    createSymbol "bathroom" "Washroom" "ğŸš½" WHITE ITEM None [] [];
    createSymbol "help" "Help" "ğŸ¤" PURPLE ITEM None [] [];
    createSymbol "cat_feelings" "Feelings" "ğŸ˜Š" YELLOW CATEGORY
      (Some [
          createSymbol "happy" "Happy" "ğŸ˜„" GREEN ITEM None [] [];
          createSymbol "sad" "Sad" "ğŸ˜¢" BLUE ITEM None [] [];
          createSymbol "angry" "Angry" "ğŸ˜¡" RED ITEM None [] [];
          createSymbol "tired" "Tired" "ğŸ¥±" GRAY ITEM None [] [];
          createSymbol "sick" "Sick" "ğŸ¤¢" GREEN ITEM None [] [];
          createSymbol "hurt" "Hurt" "ğŸ¤•" RED ITEM None [] [] ])
      [] [];
    createSymbol "cat_people" "People" "ğŸ‘¨â€ğŸ‘©â€ğŸ‘§" YELLOW CATEGORY
      (Some [
          createSymbol "mom" "Mom" "ğŸ‘©" YELLOW ITEM None [] [];
          createSymbol "dad" "Dad" "ğŸ‘¨" YELLOW ITEM None [] [];
          createSymbol "teacher" "Teacher" "ğŸ§‘â€ğŸ«" YELLOW ITEM None [] [];
          createSymbol "friend" "Friend" "ğŸ§‘â€ğŸ¤â€ğŸ§‘" YELLOW ITEM None [] [] ])
      [] [];
    createSymbol "yes" "Yes" "âœ…" GREEN ITEM None [] [];
    createSymbol "no" "No" "âŒ" RED ITEM None [] [];
    createSymbol "more" "More" "â•" GRAY ITEM None [] [];
    createSymbol "all_done" "All Done" "ğŸ" GRAY ITEM None [] [] ].

#[global] Arguments VOCABULARY : simpl never.

End Constants.

Module GeminiService.

Import Types.

(** The objects [flattenVocabulary] pushes:
    [{ id: item.id, label: item.label, keywords: item.keywords }]. *)
Record FlatEntry : Type := mkFlatEntry {
  entryId : string;
  entryLabel : string;
  entryKeywords : option (list string)
}.

(** [flattenVocabulary]: every item, followed by the flattening of its
    children.  The recursion goes through the list of children, so the
    function on one item carries the loop over its children. *)
Fixpoint flattenItem (item : AACSymbol) : list FlatEntry :=
  match item with
  | mkAACSymbol i l _ _ _ k c _ _ =>
      mkFlatEntry i l k ::
      match c with
      | Some cs =>
          (fix forEach (items : list AACSymbol) : list FlatEntry :=
             match items with
             | [] => []
             | x :: rest => flattenItem x ++ forEach rest
             end) cs
      | None => []
      end
  end.

Fixpoint flattenVocabulary (items : list AACSymbol) : list FlatEntry :=
  match items with
  | [] => []
  | item :: rest => flattenItem item ++ flattenVocabulary rest
  end.

Definition flatVocab : list FlatEntry :=
  flattenVocabulary Constants.VOCABULARY.

End GeminiService.
Module App.

Import Types.
Local Open Scope string_scope.
Local Open Scope list_scope.

(** [findSymbolById]: depth first, an item before its children.  As in
    [flattenVocabulary] the function on one item carries the loop over its
    children; [findSymbolById_cons] gives the equation the source
    function is written by. *)
Fixpoint findInItem (id0 : string) (item : AACSymbol) : option AACSymbol :=
  match item with
  | mkAACSymbol i _ _ _ _ _ c _ _ =>
      if String.eqb i id0 then Some item
      else match c with
           | Some cs =>
               (fix loop (list : list AACSymbol) : option AACSymbol :=
                  match list with
                  | [] => None
                  | x :: rest =>
                      match findInItem id0 x with
                      | Some found => Some found
                      | None => loop rest
                      end
                  end) cs
           | None => None
           end
  end.

Fixpoint findSymbolById (id0 : string) (list : list AACSymbol)
    : option AACSymbol :=
  match list with
  | [] => None
  | item :: rest =>
      match findInItem id0 item with
      | Some found => Some found
      | None => findSymbolById id0 rest
      end
  end.

(** The symbols of a tree in depth-first order, an item before its
    children. *)
Fixpoint symbolsOf (item : AACSymbol) : list AACSymbol :=
  item ::
  match item with
  | mkAACSymbol _ _ _ _ _ _ (Some cs) _ _ =>
      (fix each (items : list AACSymbol) : list AACSymbol :=
         match items with
         | [] => []
         | x :: rest => symbolsOf x ++ each rest
         end) cs
  | _ => []
  end.

Fixpoint allSymbols (items : list AACSymbol) : list AACSymbol :=
  match items with
  | [] => []
  | item :: rest => symbolsOf item ++ allSymbols rest
  end.

(** [useState<'landing' | 'board'>] *)
Inductive View : Type := landing | board.

(** The state and the refs of the component that the handlers below read or
    write.  [audioBlob] holds the bytes of the recording. *)
Record AppState : Type := mkAppState {
  view : View;
  currentCategory : option AACSymbol;
  sentence : list AACSymbol;
  generatedSentence : string;
  audioBlob : option (list Z);
  manualSuggestions : list AACSymbol;
  aiSuggestions : list AACSymbol;
  startXRef : Z;
  isDraggingRef : bool;
  eyeTrackingEnabled : bool
}.

Definition set_view (x : View) (a : AppState) : AppState :=
  mkAppState x (currentCategory a) (sentence a) (generatedSentence a)
             (audioBlob a) (manualSuggestions a) (aiSuggestions a)
             (startXRef a) (isDraggingRef a) (eyeTrackingEnabled a).

Definition set_currentCategory (x : option AACSymbol) (a : AppState) : AppState :=
  mkAppState (view a) x (sentence a) (generatedSentence a)
             (audioBlob a) (manualSuggestions a) (aiSuggestions a)
             (startXRef a) (isDraggingRef a) (eyeTrackingEnabled a).

Definition set_sentence (x : list AACSymbol) (a : AppState) : AppState :=
  mkAppState (view a) (currentCategory a) x (generatedSentence a)
             (audioBlob a) (manualSuggestions a) (aiSuggestions a)
             (startXRef a) (isDraggingRef a) (eyeTrackingEnabled a).

Definition set_generatedSentence (x : string) (a : AppState) : AppState :=
  mkAppState (view a) (currentCategory a) (sentence a) x
             (audioBlob a) (manualSuggestions a) (aiSuggestions a)
             (startXRef a) (isDraggingRef a) (eyeTrackingEnabled a).

Definition set_audioBlob (x : option (list Z)) (a : AppState) : AppState :=
  mkAppState (view a) (currentCategory a) (sentence a) (generatedSentence a)
             x (manualSuggestions a) (aiSuggestions a)
             (startXRef a) (isDraggingRef a) (eyeTrackingEnabled a).

Definition set_manualSuggestions (x : list AACSymbol) (a : AppState) : AppState :=
  mkAppState (view a) (currentCategory a) (sentence a) (generatedSentence a)
             (audioBlob a) x (aiSuggestions a)
             (startXRef a) (isDraggingRef a) (eyeTrackingEnabled a).

Definition set_aiSuggestions (x : list AACSymbol) (a : AppState) : AppState :=
  mkAppState (view a) (currentCategory a) (sentence a) (generatedSentence a)
             (audioBlob a) (manualSuggestions a) x
             (startXRef a) (isDraggingRef a) (eyeTrackingEnabled a).

Definition set_startXRef (x : Z) (a : AppState) : AppState :=
  mkAppState (view a) (currentCategory a) (sentence a) (generatedSentence a)
             (audioBlob a) (manualSuggestions a) (aiSuggestions a)
             x (isDraggingRef a) (eyeTrackingEnabled a).

Definition set_isDraggingRef (x : bool) (a : AppState) : AppState :=
  mkAppState (view a) (currentCategory a) (sentence a) (generatedSentence a)
             (audioBlob a) (manualSuggestions a) (aiSuggestions a)
             (startXRef a) x (eyeTrackingEnabled a).

Definition set_eyeTrackingEnabled (x : bool) (a : AppState) : AppState :=
  mkAppState (view a) (currentCategory a) (sentence a) (generatedSentence a)
             (audioBlob a) (manualSuggestions a) (aiSuggestions a)
             (startXRef a) (isDraggingRef a) x.

(** [ids.forEach(id => { const found = findSymbolById(id, VOCABULARY);
                         if (found) out.push(found); })], the loop of
    [handleSymbolClick] and of the prediction effect. *)
Fixpoint lookupAll (ids : list string) : list AACSymbol :=
  match ids with
  | [] => []
  | id0 :: rest =>
      match findSymbolById id0 Constants.VOCABULARY with
      | Some found => found :: lookupAll rest
      | None => lookupAll rest
      end
  end.

(** [handleSymbolClick] *)
Definition handleSymbolClick (symbol : AACSymbol) (a : AppState) : AppState :=
  match type symbol with
  | CATEGORY =>
      set_manualSuggestions [] (set_currentCategory (Some symbol) a)
  | ITEM =>
      let a := set_sentence (sentence a ++ [symbol]) a in
      match relatedIds symbol with
      | Some (r :: ids) => set_manualSuggestions (lookupAll (r :: ids)) a
      | _ => set_manualSuggestions [] a
      end
  end.

(** [goBack] *)
Definition goBack (a : AppState) : AppState :=
  set_manualSuggestions [] (set_currentCategory None a).

(** [handleTouchStart], with [e.touches[0].clientX] *)
Definition handleTouchStart (clientX : Z) (a : AppState) : AppState :=
  match currentCategory a with
  | None => a
  | Some _ => set_startXRef clientX a
  end.

(** [handleTouchEnd], with [e.changedTouches[0].clientX] *)
Definition handleTouchEnd (clientX : Z) (a : AppState) : AppState :=
  match currentCategory a with
  | None => a
  | Some _ =>
      let diff := clientX - startXRef a in
      if (80 <? diff)%Z then goBack a else a
  end.

(** [handleMouseDown] *)
Definition handleMouseDown (clientX : Z) (a : AppState) : AppState :=
  match currentCategory a with
  | None => a
  | Some _ => set_isDraggingRef true (set_startXRef clientX a)
  end.

(** [handleMouseMove] only computes a difference it does not use. *)
Definition handleMouseMove (clientX : Z) (a : AppState) : AppState := a.

(** [handleMouseUp] *)
Definition handleMouseUp (clientX : Z) (a : AppState) : AppState :=
  match currentCategory a with
  | None => a
  | Some _ =>
      if negb (isDraggingRef a) then a
      else
        let diff := clientX - startXRef a in
        let a := set_isDraggingRef false a in
        if (80 <? diff)%Z then goBack a else a
  end.

(** [handleMouseLeave] *)
Definition handleMouseLeave (a : AppState) : AppState :=
  set_isDraggingRef false a.

(** [newSentence.splice(index, 1)] for an index [0 <= index]. *)
Definition splice1 {A : Type} (index : nat) (l : list A) : list A :=
  firstn index l ++ skipn (S index) l.

(** [removeFromSentence] *)
Definition removeFromSentence (index : nat) (a : AppState) : AppState :=
  set_generatedSentence "" (set_sentence (splice1 index (sentence a)) a).

(** [handleBackspace]; [removelast] is [pop()]. *)
Definition handleBackspace (a : AppState) : AppState :=
  match sentence a with
  | [] => a
  | _ => set_generatedSentence "" (set_sentence (removelast (sentence a)) a)
  end.

(** [clearSentence] *)
Definition clearSentence (a : AppState) : AppState :=
  set_audioBlob None
    (set_aiSuggestions []
      (set_manualSuggestions []
        (set_generatedSentence "" (set_sentence [] a)))).

(** The body of the prediction effect once [predictNextSymbols] has
    answered with [predictedIds]. *)
Definition applyPrediction (predictedIds : list string) (a : AppState)
    : AppState :=
  set_aiSuggestions (lookupAll predictedIds) a.

(** [Map.prototype.set] on a map kept in insertion order: the value of an
    existing key is replaced where it stands, a new key goes to the end. *)
Fixpoint mapSet (k : string) (v : AACSymbol)
    (m : list (string * AACSymbol)) : list (string * AACSymbol) :=
  match m with
  | [] => [(k, v)]
  | (k', v') :: rest =>
      if String.eqb k' k then (k', v) :: rest else (k', v') :: mapSet k v rest
  end.

(** [items.forEach(item => combinedSuggestionsMap.set(item.id, item))] *)
Definition setAll (items : list AACSymbol) (m : list (string * AACSymbol))
    : list (string * AACSymbol) :=
  fold_left (fun m item => mapSet (id item) item m) items m.

(** [finalSuggestions = Array.from(combinedSuggestionsMap.values())] *)
Definition finalSuggestions (a : AppState) : list AACSymbol :=
  map snd (setAll (aiSuggestions a) (setAll (manualSuggestions a) [])).

(** [itemsDisplay] *)
Definition itemsDisplay (a : AppState) : list AACSymbol :=
  match currentCategory a with
  | Some c => match children c with Some cs => cs | None => [] end
  | None => Constants.VOCABULARY
  end.

(** The [data-symbol-id] attributes of the cards on the board: the
    suggestions, then the grid. *)
Definition cardIds (a : AppState) : list string :=
  map id (finalSuggestions a) ++ map id (itemsDisplay a).

End App.
(** What the user and the services can do to the board, event by event.
    Every event of the user that sets state is a click, a touch or a mouse
    button: React renders the state such a handler has set, and runs the
    effects, before the next event is handled, so each handler sees the
    state left by the one before.  An answer of a service can be late (a request, once sent,
    is not withdrawn), so the model lets one arrive at any time.  The recorder and
    the speech output are left out; of [handleSpeak] the model keeps what it
    stores: the recording, when one was made, and the sentence it gets
    back. *)
Module Board.

Import Types App.
Local Open Scope string_scope.
Local Open Scope list_scope.

Inductive Event : Type :=
  | TapToStart                   (* [startBackgroundRecording]: [setView('board')] *)
  | ClickHome                    (* [setView('landing')] *)
  | ClickSuggestion (n : nat)    (* the n-th card of "Suggested Next" *)
  | ClickCard (n : nat)          (* the n-th card of the grid *)
  | ClickBack
  | TouchStart (clientX : Z)
  | TouchEnd (clientX : Z)
  | MouseDown (clientX : Z)
  | MouseMove (clientX : Z)
  | MouseUp (clientX : Z)
  | MouseLeave
  | ClickRemove (index : nat)    (* the X on a symbol of the strip *)
  | ClickBackspace
  | ClickDone                    (* [clearSentence] *)
  | ClickEye                     (* [setEyeTrackingEnabled(!eyeTrackingEnabled)] *)
  | ClickSpeak (wavBlob : option (list Z))  (* [handleSpeak], to its first [await] *)
  | Naturalized (naturalText : string)     (* ... and [setGeneratedSentence] *)
  | Predicted (predictedIds : list string).

(** The state the component mounts with. *)
Definition initial : AppState :=
  {| view := landing; currentCategory := None; sentence := [];
     generatedSentence := ""; audioBlob := None;
     manualSuggestions := []; aiSuggestions := [];
     startXRef := 0%Z; isDraggingRef := false; eyeTrackingEnabled := false |}.

(** The synchronous part of the effect on [sentence]: an empty sentence
    clears the predictions; otherwise a prediction is requested, whose
    answer is a later [Predicted] event. *)
Definition predictionEffect (a : AppState) : AppState :=
  match sentence a with
  | [] => set_aiSuggestions [] a
  | _ => a
  end.

(** The [onClick] of the card that shows [symbol]. *)
Definition clickCard (symbol : AACSymbol) (a : AppState) : AppState :=
  match type symbol with
  | CATEGORY => handleSymbolClick symbol a
  | ITEM => predictionEffect (handleSymbolClick symbol a)
  end.

(** The board is rendered in the [board] view only, and a card, or the X of
    a symbol of the strip, can be clicked when it is rendered. *)
Definition onBoard (e : Event) (a : AppState) : AppState :=
  match e with
  | TapToStart => a
  | ClickHome => set_view landing a
  | ClickSuggestion n =>
      match nth_error (finalSuggestions a) n with
      | Some symbol => clickCard symbol a
      | None => a
      end
  | ClickCard n =>
      match nth_error (itemsDisplay a) n with
      | Some symbol => clickCard symbol a
      | None => a
      end
  | ClickBack =>
      match currentCategory a with Some _ => goBack a | None => a end
  | TouchStart x => handleTouchStart x a
  | TouchEnd x => handleTouchEnd x a
  | MouseDown x => handleMouseDown x a
  | MouseMove x => handleMouseMove x a
  | MouseUp x => handleMouseUp x a
  | MouseLeave => handleMouseLeave a
  | ClickRemove index =>
      if (index <? List.length (sentence a))%nat
      then predictionEffect (removeFromSentence index a) else a
  | ClickBackspace =>
      match sentence a with
      | [] => a
      | _ => predictionEffect (handleBackspace a)
      end
  | ClickDone => predictionEffect (clearSentence a)
  | ClickEye => set_eyeTrackingEnabled (negb (eyeTrackingEnabled a)) a
  | ClickSpeak wavBlob =>
      match sentence a, wavBlob with
      | _ :: _, Some b => set_audioBlob (Some b) a
      | _, _ => a
      end
  | Naturalized naturalText => set_generatedSentence naturalText a
  | Predicted ids => applyPrediction ids a
  end.

Definition step (e : Event) (a : AppState) : AppState :=
  match view a with
  | landing =>
      match e with
      | TapToStart => set_view board a
      | Naturalized naturalText => set_generatedSentence naturalText a
      | Predicted ids => applyPrediction ids a
      | _ => a
      end
  | board => onBoard e a
  end.

Fixpoint run (es : list Event) (a : AppState) : AppState :=
  match es with
  | [] => a
  | e :: rest => run rest (step e a)
  end.

Definition reachable (a : AppState) : Prop := exists es, a = run es initial.

End Board.

(** The strings of a list are pairwise different. *)
Fixpoint distinct (l : list string) : bool :=
  match l with
  | [] => true
  | x :: rest => negb (existsb (String.eqb x) rest) && distinct rest
  end.

(** No id in the list names a symbol of the vocabulary. *)
Definition unknownIds (ids : list string) : bool :=
  forallb (fun r => match App.findSymbolById r Constants.VOCABULARY with
                    | Some _ => false
                    | None => true
                    end) ids.

(** Every key of the map is the id of its value, and no key is repeated. *)
Definition Keyed (m : list (string * Types.AACSymbol)) : Prop :=
  NoDup (map fst m) /\ forall k v, In (k, v) m -> k = Types.id v.

(** Every symbol the state holds is a symbol of the vocabulary, and no
    manual suggestion is held. *)
Definition Known (a : App.AppState) : Prop :=
  (forall c, App.currentCategory a = Some c ->
             In c (App.allSymbols Constants.VOCABULARY)) /\
  Forall (fun s => In s (App.allSymbols Constants.VOCABULARY))
         (App.sentence a) /\
  Forall (fun s => In s (App.allSymbols Constants.VOCABULARY))
         (App.aiSuggestions a) /\
  App.manualSuggestions a = [].

(** The fifth symbol of the vocabulary in depth-first order, the apple, and
    the board after a tap on the first category and on the apple in it. *)
Definition noSymbol : Types.AACSymbol :=
  Types.mkAACSymbol "" "" "" "" Types.ITEM None None None None.

Definition appleSymbol : Types.AACSymbol :=
  nth 4 (App.allSymbols Constants.VOCABULARY) noSymbol.

Definition appleChosen : App.AppState :=
  Board.run [Board.TapToStart; Board.ClickCard 0; Board.ClickCard 3]
            Board.initial.
(* ===================================================================== *)
(** ** Target resolution *)
(* ===================================================================== *)

Section Resolution.

Variable doc : Document.

Lemma find_none_existsb (f : Element -> bool) (l : list Element) :
  find f l = None -> existsb f l = false.
Proof.
  induction l as [|a l IH]; simpl; [reflexivity|].
  destruct (f a); [discriminate|]. exact IH.
Qed.

Lemma find_some_existsb (f : Element -> bool) (l : list Element) (x : Element) :
  find f l = Some x -> existsb f l = true.
Proof.
  induction l as [|a l IH]; simpl; [discriminate|].
  destruct (f a); [reflexivity|]. exact IH.
Qed.

Lemma find_push (f : Element -> bool) (l : list Element) (x : Element) :
  find f l = None -> f x = true -> find f (l ++ [x]) = Some x.
Proof.
  induction l as [|a l IH]; simpl; intros Hn Hx.
  - now rewrite Hx.
  - destruct (f a); [discriminate|]. now apply IH.
Qed.

Lemma closestLoop_push (l : list Element) (x : Element) :
  hasAttribute x = true -> closestLoop l = None ->
  closestLoop (l ++ [x]) = if isHTMLElement x then Some x else None.
Proof.
  intros Hx. induction l as [|a l IH]; simpl.
  - intros _. destruct x as [n [s|] h p]; [|discriminate].
    simpl. now destruct h.
  - destruct (isHTMLElement a); [destruct (closest a); [discriminate|]|]; exact IH.
Qed.

(** The probe loop pushes exactly the first probe hit. *)
Lemma probeLoop_firstProbeHit (points : list Point) (elements : list Element) :
  probeLoop doc points elements =
  match firstProbeHit doc points with
  | Some b => elements ++ [b]
  | None => elements
  end.
Proof.
  induction points as [|pt rest IH]; simpl; [reflexivity|].
  destruct (find hasAttribute (doc pt)); [reflexivity|exact IH].
Qed.

Lemma firstProbeHit_tagged (points : list Point) (b : Element) :
  firstProbeHit doc points = Some b -> hasAttribute b = true.
Proof.
  induction points as [|pt rest IH]; simpl; [discriminate|].
  destruct (find hasAttribute (doc pt)) eqn:E; [|exact IH].
  intros [= <-]. now apply find_some in E.
Qed.

(** [buttonElement] as a function of the three hit-tests involved. *)
Lemma resolveButton_cases (p : Point) :
  resolveButton doc p =
  match find hasAttribute (doc p) with
  | Some el => Some el
  | None =>
      match firstProbeHit doc (pointsToCheck p) with
      | Some b => Some b
      | None => closestLoop (doc p)
      end
  end.
Proof.
  unfold resolveButton, toleranceCheck.
  destruct (find hasAttribute (doc p)) as [el|] eqn:E.
  - rewrite (find_some_existsb _ _ _ E). cbn [negb]. now rewrite E.
  - rewrite (find_none_existsb _ _ E). cbn [negb].
    rewrite probeLoop_firstProbeHit.
    destruct (firstProbeHit doc (pointsToCheck p)) as [b|] eqn:F.
    + now rewrite (find_push _ _ _ E (firstProbeHit_tagged _ _ F)).
    + now rewrite E.
Qed.

End Resolution.

(** C4, counterexample: the sentence puts the ancestor rule inside the exact
    pass, ahead of the probes; on [overlapDoc] that order answers "a" where
    the listener resolves "b". *)
Lemma C4_order_counterexample :
  resolve_spec overlapDoc (mkPoint 100 100) = Some "a"%string /\
  resolveId overlapDoc (mkPoint 100 100) = Some "b"%string /\
  resolveId overlapDoc (mkPoint 100 100) <> resolve_spec overlapDoc (mkPoint 100 100).
Proof.
  repeat split; try reflexivity. vm_compute. discriminate.
Qed.

(** C4, amended: the resolved button is the first tagged element at the
    point itself; failing that, the first tagged element at the first of the
    probes up (y - 50), down (y + 50), left (x - 50), right (x + 50) that has
    one; failing that, the nearest tagged ancestor of the first HTMLElement
    at the point that has one; and null when all three fail. *)
Theorem C4_resolution_order (doc : Document) (p : Point) :
  resolveButton doc p =
  match find hasAttribute (doc p) with
  | Some el => Some el
  | None =>
    match find hasAttribute (doc (mkPoint (px p) (py p - 50))) with
    | Some b => Some b
    | None =>
      match find hasAttribute (doc (mkPoint (px p) (py p + 50))) with
      | Some b => Some b
      | None =>
        match find hasAttribute (doc (mkPoint (px p - 50) (py p))) with
        | Some b => Some b
        | None =>
          match find hasAttribute (doc (mkPoint (px p + 50) (py p))) with
          | Some b => Some b
          | None => closestLoop (doc p)
          end
        end
      end
    end
  end.
Proof.
  rewrite resolveButton_cases. unfold pointsToCheck, tolerance. simpl.
  destruct (find hasAttribute (doc p)); [reflexivity|].
  repeat match goal with
         | |- context [find hasAttribute ?l] =>
             destruct (find hasAttribute l); try reflexivity
         end.
Qed.
(* ===================================================================== *)
(** ** The delay of a timer *)
(* ===================================================================== *)

Lemma timeoutDelay_nonneg (delay : Z) : 0 <= timeoutDelay delay.
Proof. unfold timeoutDelay. lia. Qed.

(** A delay in the signed 32-bit range is waited for as it is. *)
Lemma timeoutDelay_id (delay : Z) :
  0 <= delay <= 2147483647 -> timeoutDelay delay = delay.
Proof.
  intros H. unfold timeoutDelay, toInt32.
  rewrite Z.mod_small by lia. lia.
Qed.

(* ===================================================================== *)
(** ** The timer table *)
(* ===================================================================== *)

Lemma hasId_true (id : nat) (t : Timer) : hasId id t = true <-> tid t = id.
Proof. unfold hasId. apply Nat.eqb_eq. Qed.

Lemma hasId_false (id : nat) (t : Timer) : hasId id t = false <-> tid t <> id.
Proof. unfold hasId. apply Nat.eqb_neq. Qed.

Lemma In_cleared (id : nat) (ts : list Timer) (t : Timer) :
  In t (filter (fun t => negb (hasId id t)) ts) <-> In t ts /\ tid t <> id.
Proof.
  rewrite filter_In, negb_true_iff, hasId_false. reflexivity.
Qed.

Lemma NoDup_tid_filter (f : Timer -> bool) (ts : list Timer) :
  NoDup (map tid ts) -> NoDup (map tid (filter f ts)).
Proof.
  induction ts as [|a ts IH]; simpl; intros H; [constructor|].
  inversion H as [|x l Hnin Hnd]; subst.
  destruct (f a); simpl; [constructor|]; auto.
  intros Hin. apply Hnin. apply in_map_iff in Hin as (t & Ht & Hin).
  apply filter_In in Hin as [Hin _]. apply in_map_iff. eauto.
Qed.

Lemma NoDup_tid_push (ts : list Timer) (x : Timer) :
  NoDup (map tid ts) -> (forall t, In t ts -> (tid t < tid x)%nat) ->
  NoDup (map tid (ts ++ [x])).
Proof.
  intros Hnd Hlt. rewrite map_app. simpl.
  apply NoDup_app; [exact Hnd | repeat constructor; auto | ].
  intros i Hi [<-|[]]. apply in_map_iff in Hi as (t & Ht & Hin).
  specialize (Hlt t Hin). lia.
Qed.

Lemma map_tid_rearm (id : nat) (next : Z) (ts : list Timer) :
  map tid (rearm id next ts) = map tid ts.
Proof.
  unfold rearm. rewrite map_map. apply map_ext. intros t.
  now destruct (hasId id t).
Qed.

Lemma In_rearm (id : nat) (next : Z) (ts : list Timer) (t' : Timer) :
  In t' (rearm id next ts) ->
  exists t, In t ts /\ tid t' = tid t /\ action t' = action t /\
            (deadline t' = deadline t \/ (tid t = id /\ deadline t' = next)).
Proof.
  unfold rearm. intros H. apply in_map_iff in H as (t & <- & Hin).
  exists t. destruct (hasId id t) eqn:E; simpl; auto.
  apply hasId_true in E. auto 6.
Qed.

Lemma NoDup_tid_inj (ts : list Timer) (t1 t2 : Timer) :
  NoDup (map tid ts) -> In t1 ts -> In t2 ts -> tid t1 = tid t2 -> t1 = t2.
Proof.
  induction ts as [|a ts IH]; simpl; intros Hnd H1 H2 E; [contradiction|].
  inversion Hnd as [|x l Hnin Hnd']; subst.
  destruct H1 as [<-|H1], H2 as [<-|H2]; auto.
  - exfalso. apply Hnin. rewrite E. now apply in_map.
  - exfalso. apply Hnin. rewrite <- E. now apply in_map.
Qed.

Lemma find_hasId_In (id : nat) (ts : list Timer) (t : Timer) :
  find (hasId id) ts = Some t -> In t ts /\ tid t = id.
Proof.
  intros H. apply find_some in H as [Hin Hid]. now apply hasId_true in Hid.
Qed.

Lemma find_hasId_none (id : nat) (ts : list Timer) (t : Timer) :
  find (hasId id) ts = None -> In t ts -> tid t <> id.
Proof.
  intros H Hin. apply hasId_false. exact (find_none _ _ H t Hin).
Qed.

Lemma find_hasId_unique (id : nat) (ts : list Timer) (t : Timer) :
  NoDup (map tid ts) -> In t ts -> tid t = id -> find (hasId id) ts = Some t.
Proof.
  intros Hnd Hin Hid. destruct (find (hasId id) ts) as [t'|] eqn:E.
  - apply find_hasId_In in E as [Hin' Hid']. f_equal.
    apply (NoDup_tid_inj ts); auto. congruence.
  - exfalso. exact (find_hasId_none _ _ _ E Hin Hid).
Qed.


Lemma In_cancel (r : option nat) (ts : list Timer) (t : Timer) :
  In t (cancel r ts) <-> In t ts /\ r <> Some (tid t).
Proof.
  destruct r as [id|]; simpl.
  - rewrite In_cleared. split; intros [H1 H2]; split; auto; congruence.
  - split; [intros H; split; [exact H|discriminate]|tauto].
Qed.

Lemma NoDup_tid_cancel (r : option nat) (ts : list Timer) :
  NoDup (map tid ts) -> NoDup (map tid (cancel r ts)).
Proof.
  destruct r; simpl; [apply NoDup_tid_filter|trivial].
Qed.

Ltac break_in :=
  repeat match goal with
  | H : In _ (filter (fun t => negb (hasId _ t)) _) |- _ =>
      apply In_cleared in H; destruct H
  | H : In _ (cancel _ _) |- _ => apply In_cancel in H; destruct H
  | H : In _ (rearm _ _ _) |- _ =>
      let t := fresh "t" in
      apply In_rearm in H; destruct H as (t & H & ? & ? & ?)
  | H : In _ (_ ++ _) |- _ => apply in_app_iff in H; destruct H
  | H : In _ [_] |- _ => destruct H as [H|[]]; subst
  | H : In _ (_ :: _) |- _ => destruct H as [H | H]; [subst|]
  | H : In _ [] |- _ => destruct H
  | H : _ /\ _ |- _ => destruct H
  end.

(* ===================================================================== *)
(** ** What each handler does to the page, field by field *)
(* ===================================================================== *)

Ltac destruct_world w :=
  destruct w as [wInit wWin wEn wCl wPos wHov wProg wIsInit wUM
                 rDwell rProg rStart rHov rMouse rUM rLatest
                 wNow wTimers wNext wML wGL wPS wPB wSA wWg wDom wCur].

(** Run the handlers on a page whose fields are all known. *)
Ltac crunch :=
  cbv beta iota zeta delta
    [ webgazerInitialized windowWebgazer enabled cleanup gazePosition
      hoveredElement dwellProgress isInitialized isUsingMouse dwellTimerRef
      progressIntervalRef dwellStartTimeRef currentHoveredRef
      mouseInactivityTimerRef isUsingMouseRef latestGazePositionRef now
      timers nextTimerId mouseListener gazeListenerSet pendingScripts
      pendingBegins scriptsAppended wgCalls domCalls cursorHidden
      set_webgazerInitialized set_windowWebgazer set_enabled set_cleanup
      set_gazePosition set_hoveredElement set_dwellProgress
      set_isInitialized set_isUsingMouse set_dwellTimerRef
      set_progressIntervalRef set_dwellStartTimeRef set_currentHoveredRef
      set_mouseInactivityTimerRef set_isUsingMouseRef
      set_latestGazePositionRef set_now set_timers set_nextTimerId
      set_mouseListener set_gazeListenerSet set_pendingScripts
      set_pendingBegins set_scriptsAppended set_wgCalls set_domCalls
      set_cursorHidden startDwell stopDwell dwellCallback tryClick
      handleMouseMove mouseInactiveCallback initDoneCallback
      progressCallback disabledBranch enabledBranch runCleanup useEffect
      callWebgazer appendScript onload beginThen setTimer clearTimer commit
      cancel stopCalls clickCalls dwellStep gazeListener currentPoint fire
      fst snd andb negb orb ].

Section Shapes.

Variable variant : Variant.
Variable dwellTime : Z.

Lemma tryClick_shape (b : Element) (w : World) :
  tryClick b w = set_domCalls (domCalls w ++ clickCalls b) w.
Proof. unfold tryClick, clickCalls. now destruct (isHTMLElement b). Qed.

Lemma dwellCallback_shape (b : Element) (w : World) :
  dwellCallback b w =
  set_progressIntervalRef None
    (set_timers (cancel (progressIntervalRef w) (timers w))
      (set_dwellProgress 0%Q
        (set_hoveredElement None
          (set_currentHoveredRef None
            (set_domCalls (domCalls w ++ clickCalls b) w))))).
Proof.
  unfold dwellCallback. rewrite tryClick_shape.
  destruct_world w; destruct rProg; crunch; reflexivity.
Qed.

Lemma startDwell_shape (T : string) (b : Element) (w : World) :
  startDwell dwellTime T b w =
  set_dwellTimerRef (Some (S (nextTimerId w)))
    (set_progressIntervalRef (Some (nextTimerId w))
      (set_nextTimerId (S (S (nextTimerId w)))
        (set_timers
           ((cancel (progressIntervalRef w) (cancel (dwellTimerRef w) (timers w))
             ++ [mkTimer (nextTimerId w) (now w + 50) ProgressTick])
            ++ [mkTimer (S (nextTimerId w)) (now w + timeoutDelay dwellTime)
                        (DwellComplete T b)])
           (set_dwellProgress 0%Q
             (set_dwellStartTimeRef (now w)
               (set_hoveredElement (Some T)
                 (set_currentHoveredRef (Some T) w))))))).
Proof.
  destruct_world w; destruct rDwell, rProg; crunch; reflexivity.
Qed.

Lemma stopDwell_shape (w : World) :
  stopDwell w =
  match currentHoveredRef w with
  | Some _ =>
      set_progressIntervalRef None
        (set_dwellTimerRef None
          (set_timers
             (cancel (progressIntervalRef w) (cancel (dwellTimerRef w) (timers w)))
             (set_dwellProgress 0%Q
               (set_hoveredElement None (set_currentHoveredRef None w)))))
  | None => w
  end.
Proof.
  destruct_world w; destruct rHov, rDwell, rProg; crunch; reflexivity.
Qed.

Lemma handleMouseMove_shape (e : Point) (w : World) :
  handleMouseMove e w =
  set_mouseInactivityTimerRef (Some (nextTimerId w))
    (set_nextTimerId (S (nextTimerId w))
      (set_timers
         (cancel (mouseInactivityTimerRef w) (timers w)
          ++ [mkTimer (nextTimerId w) (now w + 5000) MouseInactive])
         (set_gazePosition (Some e)
           (set_isUsingMouseRef true (set_isUsingMouse true w))))).
Proof.
  destruct_world w; destruct rMouse; crunch; reflexivity.
Qed.

Lemma disabledBranch_shape (w : World) :
  disabledBranch variant w =
  match variant with
  | PauseVariant =>
      set_cleanup NoCleanup
        (set_timers
           (cancel (progressIntervalRef w) (cancel (dwellTimerRef w) (timers w)))
           (set_isInitialized false
             (set_currentHoveredRef None
               (set_dwellProgress 0%Q
                 (set_hoveredElement None
                   (set_gazePosition None
                     (set_wgCalls
                        (wgCalls w ++
                         stopCalls WgPause
                           (windowWebgazer w && webgazerInitialized w)) w)))))))
  | MouseVariant =>
      set_cleanup NoCleanup
        (set_cursorHidden false
          (set_timers
             (cancel (mouseInactivityTimerRef w)
               (cancel (progressIntervalRef w)
                 (cancel (dwellTimerRef w) (timers w))))
             (set_isUsingMouseRef false
               (set_isUsingMouse false
                 (set_isInitialized false
                   (set_currentHoveredRef None
                     (set_dwellProgress 0%Q
                       (set_hoveredElement None
                         (set_gazePosition None
                           (set_webgazerInitialized
                              (if windowWebgazer w && webgazerInitialized w
                               then false else webgazerInitialized w)
                              (set_wgCalls
                                 (wgCalls w ++
                                  stopCalls WgEnd
                                    (windowWebgazer w && webgazerInitialized w))
                                 w)))))))))))
  end.
Proof.
  destruct variant; destruct_world w;
    destruct wWin, wInit, rDwell, rProg, rMouse; crunch;
    rewrite ?app_nil_r; reflexivity.
Qed.

Lemma runCleanup_shape (w : World) :
  runCleanup variant w =
  match cleanup w with
  | NoCleanup => w
  | CleanupListener => set_mouseListener false w
  | CleanupInit =>
      match variant with
      | PauseVariant =>
          set_timers
            (cancel (dwellTimerRef w) (cancel (progressIntervalRef w) (timers w)))
            (set_wgCalls (wgCalls w ++ stopCalls WgPause (windowWebgazer w)) w)
      | MouseVariant =>
          set_cursorHidden false
            (set_mouseListener false
              (set_timers
                 (cancel (mouseInactivityTimerRef w)
                   (cancel (dwellTimerRef w)
                     (cancel (progressIntervalRef w) (timers w))))
                 (set_wgCalls (wgCalls w ++ stopCalls WgEnd (windowWebgazer w))
                    w)))
      end
  end.
Proof.
  destruct variant; destruct_world w;
    destruct wCl, wWin, rDwell, rProg, rMouse; crunch;
    rewrite ?app_nil_r; reflexivity.
Qed.

End Shapes.

(** Case analysis on the file being run, under a predicate. *)
Lemma by_variant (v : Variant) (A : Type) (P : A -> Prop) (a b : A) :
  (v = PauseVariant -> P a) -> (v = MouseVariant -> P b) ->
  P (match v with PauseVariant => a | MouseVariant => b end).
Proof. destruct v; auto. Qed.
(* ===================================================================== *)
(** ** Every handler keeps the page consistent *)
(* ===================================================================== *)


(** Everything the invariant says about one pending timer. *)
Lemma timer_facts (variant : Variant) (dwellTime : Z) (w : World) (t : Timer) :
  Consistent variant dwellTime w -> In t (timers w) ->
  (tid t < nextTimerId w)%nat /\
  (kind (action t) = KDwell <-> dwellTimerRef w = Some (tid t)) /\
  (kind (action t) = KProgress <-> progressIntervalRef w = Some (tid t)) /\
  (kind (action t) = KMouse <-> mouseInactivityTimerRef w = Some (tid t)) /\
  (forall T b, action t = DwellComplete T b ->
     currentHoveredRef w = Some T /\ getAttribute b = Some T /\
     T <> ""%string /\ deadline t = dwellStartTimeRef w + timeoutDelay dwellTime) /\
  (action t = ProgressTick -> currentHoveredRef w <> None).
Proof.
  intros H Hin. refine (conj _ (conj _ (conj _ (conj _ (conj _ _))))).
  - now apply (inv_fresh _ _ _ H).
  - exact (inv_dwell_own _ _ _ H t Hin).
  - exact (inv_progress_own _ _ _ H t Hin).
  - exact (inv_mouse_own _ _ _ H t Hin).
  - intros T b. now apply (inv_dwell _ _ _ H).
  - now apply (inv_progress _ _ _ H t).
Qed.

Ltac timer_cases HI :=
  repeat match goal with
  | Hin : In ?t (timers ?w) |- _ =>
      lazymatch goal with
      | _ : (tid t < nextTimerId w)%nat |- _ => fail
      | _ =>
        let F1 := fresh "Hlt" in let F2 := fresh "HownD" in
        let F3 := fresh "HownP" in let F4 := fresh "HownM" in
        let F5 := fresh "Hdwl" in let F6 := fresh "Hprg" in
        destruct (timer_facts _ _ w t HI Hin) as (F1 & F2 & F3 & F4 & F5 & F6)
      end
  end.

Ltac open_inv H HI :=
  pose proof H as HI;
  destruct H as [Hnd Hfr HrfD HrfP HrfM HowD HowP HowM Hdw Hpr Hhv Hms Hid
                 Hfl Hbg Hpa Hli Hdi Hco Hcn].

Ltac same_timer :=
  repeat match goal with
  | H : tid ?a = tid ?b |- _ => rewrite H in *; clear H
  | H : action ?a = action ?b |- _ => rewrite H in *; clear H
  | H : tid ?a = ?n |- _ => is_var n; subst n
  end.

Ltac act_cases :=
  repeat match goal with
  | H : context [kind (action ?t)] |- _ =>
      is_var t;
      let E := fresh "Eact" in
      destruct (action t) eqn:E; cbn [kind] in *
  end.

Ltac norm_iff :=
  repeat match goal with
  | H : ?a = ?a <-> _ |- _ => apply proj1 in H; specialize (H eq_refl)
  | H : ?a = ?b <-> ?P |- _ =>
      assert (~ P) by (let X := fresh in intros X; apply H in X; discriminate X);
      clear H
  | H : forall T b, ?a = DwellComplete T b -> _ |- _ =>
      first [ specialize (H _ _ eq_refl) | clear H ]
  | H : ?a = ProgressTick -> _ |- _ =>
      first [ specialize (H eq_refl) | clear H ]
  end.

Ltac fresh_lia :=
  repeat match goal with
  | H : Some _ = Some _ |- _ => injection H as H
  | H : ?x = Some ?i, Hr : forall j, ?x = Some j -> (j < _)%nat |- _ =>
      generalize (Hr _ H); clear H; intro
  end; cbn [tid] in *; lia.

Ltac finish :=
  try solve [ assumption | discriminate | congruence | lia
            | exfalso; congruence
            | fresh_lia
            | split; intros;
              solve [discriminate | congruence | exfalso; congruence | lia
                    | exfalso; fresh_lia ]
            | intuition (try congruence; try lia) ].

Ltac nodup_goal :=
  repeat first [ assumption
               | apply NoDup_tid_cancel
               | apply NoDup_tid_filter
               | rewrite map_tid_rearm
               | apply NoDup_tid_push; [| cbn [tid]; intros ] ].

Ltac inv_goal HI :=
  cbn; try assumption; intros;
  try match goal with |- NoDup _ => nodup_goal end;
  break_in; timer_cases HI; same_timer; act_cases; norm_iff; cbn in *; finish.

Lemma fire_consistent (variant : Variant) (dwellTime : Z) (w : World) (t : Timer) :
  Consistent variant dwellTime w -> In t (timers w) -> Consistent variant dwellTime (fire dwellTime t w).
Proof.
  intros H Hin. open_inv H HI. unfold fire.
  destruct (action t) as [T b| | |] eqn:Ha.
  - rewrite dwellCallback_shape. constructor; inv_goal HI.
  - constructor; inv_goal HI.
  - constructor; inv_goal HI.
  - constructor; inv_goal HI.
Qed.

Lemma startDwell_consistent (variant : Variant) (dwellTime : Z) (w : World) (T : string) (b : Element) :
  Consistent variant dwellTime w -> getAttribute b = Some T -> T <> ""%string ->
  Consistent variant dwellTime (startDwell dwellTime T b w).
Proof.
  intros H Hb HT. open_inv H HI. rewrite startDwell_shape.
  constructor; inv_goal HI.
Qed.

Lemma stopDwell_consistent (variant : Variant) (dwellTime : Z) (w : World) :
  Consistent variant dwellTime w -> Consistent variant dwellTime (stopDwell w).
Proof.
  intros H. rewrite stopDwell_shape.
  destruct (currentHoveredRef w) eqn:E; [|exact H].
  open_inv H HI. constructor; inv_goal HI.
Qed.

Lemma dwellStep_consistent (variant : Variant) (dwellTime : Z) (button : option Element) (w : World) :
  Consistent variant dwellTime w -> Consistent variant dwellTime (dwellStep dwellTime button w).
Proof.
  intros H. unfold dwellStep.
  destruct button as [b|]; [|now apply stopDwell_consistent].
  destruct (getAttribute b) as [T|] eqn:Hb; [|exact H].
  destruct (negb (T =? "")%string) eqn:HT; [|exact H].
  destruct (differs T (currentHoveredRef w)); [|exact H].
  apply startDwell_consistent; auto.
  apply negb_true_iff, String.eqb_neq in HT. exact HT.
Qed.

Lemma set_gazePosition_consistent (variant : Variant) (dwellTime : Z) (p : option Point) (w : World) :
  Consistent variant dwellTime w -> Consistent variant dwellTime (set_gazePosition p w).
Proof. intros H. open_inv H HI. constructor; inv_goal HI. Qed.

Lemma gazeListener_consistent (variant : Variant) (dwellTime : Z) (doc : Document) (data : option Point) (w : World) :
  Consistent variant dwellTime w -> Consistent variant dwellTime (gazeListener variant dwellTime doc data w).
Proof.
  intros H. unfold gazeListener. destruct data as [xy|]; [|exact H].
  apply dwellStep_consistent.
  apply (by_variant variant World (Consistent variant dwellTime)); intros _;
    [|destruct (negb (isUsingMouseRef w))];
    auto using set_gazePosition_consistent.
Qed.

Lemma handleMouseMove_consistent (variant : Variant) (dwellTime : Z) (e : Point) (w : World) :
  Consistent variant dwellTime w -> mouseListener w = true ->
  Consistent variant dwellTime (handleMouseMove e w).
Proof.
  intros H Hl. open_inv H HI. rewrite handleMouseMove_shape.
  constructor; inv_goal HI.
  destruct variant; intuition congruence.
Qed.

Lemma onload_consistent (variant : Variant) (dwellTime : Z) (w : World) :
  Consistent variant dwellTime w -> Consistent variant dwellTime (onload w).
Proof. intros H. open_inv H HI. constructor; inv_goal HI. Qed.

Lemma beginThen_consistent (variant : Variant) (dwellTime : Z) (w : World) :
  Consistent variant dwellTime w -> windowWebgazer w = true -> Consistent variant dwellTime (beginThen w).
Proof. intros H Hw. open_inv H HI. constructor; inv_goal HI. Qed.

Lemma set_pendingScripts_consistent (variant : Variant) (dwellTime : Z) (n : nat) (w : World) :
  Consistent variant dwellTime w -> Consistent variant dwellTime (set_pendingScripts n w).
Proof. intros H. open_inv H HI. constructor; inv_goal HI. Qed.

Lemma set_pendingBegins_consistent (variant : Variant) (dwellTime : Z) (n : nat) (w : World) :
  Consistent variant dwellTime w -> (n <= pendingBegins w)%nat ->
  Consistent variant dwellTime (set_pendingBegins n w).
Proof.
  intros H Hn. open_inv H HI. constructor; inv_goal HI.
Qed.

Lemma set_now_consistent (variant : Variant) (dwellTime : Z) (t : Z) (w : World) :
  Consistent variant dwellTime w -> Consistent variant dwellTime (set_now t w).
Proof. intros H. open_inv H HI. constructor; inv_goal HI. Qed.

Lemma commit_consistent (variant : Variant) (dwellTime : Z) (w : World) :
  Consistent variant dwellTime w -> Consistent variant dwellTime (commit w).
Proof. intros H. open_inv H HI. constructor; inv_goal HI. Qed.

Lemma useEffect_consistent (variant : Variant) (dwellTime : Z) (b : bool) (w : World) :
  Consistent variant dwellTime w -> b <> enabled w -> Consistent variant dwellTime (useEffect variant b w).
Proof.
  intros H Hb. unfold useEffect. rewrite runCleanup_shape.
  destruct b.
  - (* enable *)
    assert (He : enabled w = false) by (destruct (enabled w); congruence).
    rewrite (inv_cleanup_off _ _ _ H He).
    unfold enabledBranch.
    open_inv H HI.
    destruct variant, (webgazerInitialized w) eqn:Ei, (windowWebgazer w) eqn:Ew;
      cbn; rewrite ?Ei, ?Ew; cbn; constructor; inv_goal HI.
  - (* disable *)
    assert (He : enabled w = true) by (destruct (enabled w); congruence).
    rewrite disabledBranch_shape. open_inv H HI.
    destruct variant; destruct (cleanup w) eqn:Ec;
      constructor; inv_goal HI.
    all: destruct (windowWebgazer w), (webgazerInitialized w); cbn in *;
      auto; congruence.
Qed.

(** *** The event loop *)

Lemma mounted_inv (variant : Variant) (dwellTime : Z) :
  Consistent variant dwellTime mounted.
Proof.
  constructor; cbn; intros; try solve [contradiction | discriminate | auto].
  constructor.
Qed.

Lemma runTimer_inv (variant : Variant) (dwellTime : Z) (w : World) (id : nat) :
  Consistent variant dwellTime w -> Consistent variant dwellTime (runTimer dwellTime w id).
Proof.
  intros H. unfold runTimer.
  destruct (find (hasId id) (timers w)) as [t|] eqn:E; [|exact H].
  apply find_hasId_In in E as [Hin _].
  apply fire_consistent; [apply H|exact Hin].
Qed.

Lemma fold_runTimer_inv (variant : Variant) (dwellTime : Z) (ids : list nat) (w : World) :
  Consistent variant dwellTime w ->
  Consistent variant dwellTime (fold_left (runTimer dwellTime) ids w).
Proof.
  revert w. induction ids as [|id ids IH]; simpl; intros w H; [exact H|].
  apply IH, runTimer_inv, H.
Qed.

Lemma tick_inv (variant : Variant) (dwellTime : Z) (w : World) :
  Consistent variant dwellTime w -> Consistent variant dwellTime (tick dwellTime w).
Proof.
  intros H. unfold tick. apply fold_runTimer_inv, set_now_consistent, H.
Qed.

Lemma advance_inv (variant : Variant) (dwellTime : Z) (ms : nat) (w : World) :
  Consistent variant dwellTime w -> Consistent variant dwellTime (advance dwellTime ms w).
Proof.
  revert w. induction ms as [|n IH]; simpl; intros w H; [exact H|].
  apply IH, tick_inv, H.
Qed.

Lemma step_inv (variant : Variant) (dwellTime : Z) (i : Input) (w : World) :
  Consistent variant dwellTime w -> Consistent variant dwellTime (step variant dwellTime i w).
Proof.
  intros H. destruct i as [b| | | | |doc data|p|ms|]; simpl.
  - destruct (Bool.eqb b (enabled w)) eqn:E; [exact H|].
    apply useEffect_consistent; [apply commit_consistent, H|].
    now apply eqb_false_iff in E.
  - destruct (pendingScripts w) as [|n] eqn:E; [exact H|].
    apply onload_consistent, set_pendingScripts_consistent, H.
  - apply set_pendingScripts_consistent, H.
  - destruct (pendingBegins w) as [|n] eqn:E; [exact H|].
    apply beginThen_consistent.
    + apply set_pendingBegins_consistent; [apply H|lia].
    + cbn. apply (inv_begun _ _ _ H). lia.
  - apply set_pendingBegins_consistent; [exact H|lia].
  - destruct (gazeListenerSet w); [|exact H].
    apply gazeListener_consistent, H.
  - destruct (mouseListener w) eqn:E; [|exact H].
    apply handleMouseMove_consistent; [apply H|exact E].
  - apply advance_inv, H.
  - apply commit_consistent, H.
Qed.

Lemma run_inv (variant : Variant) (dwellTime : Z) (tr : list Input) (w : World) :
  Consistent variant dwellTime w -> Consistent variant dwellTime (run variant dwellTime tr w).
Proof.
  revert w. induction tr as [|i tr IH]; simpl; intros w H; [exact H|].
  apply IH, step_inv, H.
Qed.

Lemma reachable_inv (variant : Variant) (dwellTime : Z) (w : World) :
  reachable variant dwellTime w -> Consistent variant dwellTime w.
Proof.
  intros [tr ->]. apply run_inv, mounted_inv.
Qed.

Lemma reachable_step (variant : Variant) (dwellTime : Z) (i : Input) (w : World) :
  reachable variant dwellTime w ->
  reachable variant dwellTime (step variant dwellTime i w).
Proof.
  intros [tr ->]. exists (tr ++ [i]).
  revert i. generalize mounted. induction tr as [|j tr IH]; simpl; intros w0 i.
  - reflexivity.
  - apply IH.
Qed.
(* ===================================================================== *)
(** ** Without gaze samples nothing dwells *)
(* ===================================================================== *)

Ltac quiet_goal :=
  cbn in *; intros; break_in;
  repeat match goal with
  | Hq : forall t, In t (timers ?w) -> _, Hin : In ?t (timers ?w) |- _ =>
      let F := fresh "Hk" in
      pose proof (Hq t Hin) as F; revert Hin
  end; intros; break_in; same_timer;
  try solve [ auto | discriminate | congruence | tauto
            | split; cbn; discriminate ].

Lemma quiet_fire (dwellTime : Z) (w : World) (t : Timer) :
  NoDwell w -> In t (timers w) ->
  NoDwell (fire dwellTime t w) /\
  domCalls (fire dwellTime t w) = domCalls w.
Proof.
  intros (Hc & Hh & Hp & Ht) Hin. destruct (Ht t Hin) as [Hd Hg].
  unfold fire. destruct (action t) as [T b| | |] eqn:Ha; cbn in Hd, Hg;
    try congruence.
  - repeat split; quiet_goal.
  - repeat split; quiet_goal.
Qed.

Lemma quiet_runTimer (dwellTime : Z) (w : World) (id : nat) :
  NoDwell w ->
  NoDwell (runTimer dwellTime w id) /\
  domCalls (runTimer dwellTime w id) = domCalls w.
Proof.
  intros H. unfold runTimer.
  destruct (find (hasId id) (timers w)) as [t|] eqn:E; [|auto].
  apply find_hasId_In in E as [Hin _]. now apply quiet_fire.
Qed.

Lemma quiet_fold (dwellTime : Z) (ids : list nat) (w : World) :
  NoDwell w ->
  NoDwell (fold_left (runTimer dwellTime) ids w) /\
  domCalls (fold_left (runTimer dwellTime) ids w) = domCalls w.
Proof.
  revert w. induction ids as [|id ids IH]; simpl; intros w H; [auto|].
  destruct (quiet_runTimer dwellTime w id H) as [H1 H2].
  destruct (IH _ H1) as [H3 H4]. split; [exact H3|congruence].
Qed.

Lemma quiet_tick (dwellTime : Z) (w : World) :
  NoDwell w ->
  NoDwell (tick dwellTime w) /\ domCalls (tick dwellTime w) = domCalls w.
Proof.
  intros H. unfold tick.
  exact (quiet_fold dwellTime _ (set_now (now w + 1) w) H).
Qed.

Lemma quiet_advance (dwellTime : Z) (ms : nat) (w : World) :
  NoDwell w ->
  NoDwell (advance dwellTime ms w) /\
  domCalls (advance dwellTime ms w) = domCalls w.
Proof.
  revert w. induction ms as [|n IH]; simpl; intros w H; [auto|].
  destruct (quiet_tick dwellTime w H) as [H1 H2].
  destruct (IH _ H1) as [H3 H4]. split; [exact H3|congruence].
Qed.

Lemma quiet_useEffect (variant : Variant) (b : bool) (w : World) :
  NoDwell w ->
  NoDwell (useEffect variant b w) /\
  domCalls (useEffect variant b w) = domCalls w.
Proof.
  intros (Hc & Hh & Hp & Ht). unfold useEffect. rewrite runCleanup_shape.
  destruct b.
  - unfold enabledBranch.
    destruct variant, (cleanup w); cbn;
      repeat match goal with
             | |- context [if ?c then _ else _] => destruct c
             end; repeat split; quiet_goal.
  - rewrite disabledBranch_shape.
    destruct variant, (cleanup w); repeat split; quiet_goal.
Qed.

Lemma quiet_commit (w : World) :
  NoDwell w -> NoDwell (commit w) /\ domCalls (commit w) = domCalls w.
Proof. intros (Hc & Hh & Hp & Ht). repeat split; quiet_goal. Qed.

Lemma quiet_step (variant : Variant) (dwellTime : Z) (i : Input) (w : World) :
  NoDwell w -> noGaze [i] ->
  NoDwell (step variant dwellTime i w) /\
  domCalls (step variant dwellTime i w) = domCalls w.
Proof.
  intros H Hi. destruct i as [b| | | | |doc data|p|ms|]; simpl in *;
    try contradiction.
  - destruct (Bool.eqb b (enabled w)); [auto|].
    destruct (quiet_commit w H) as [Hq Hd].
    destruct (quiet_useEffect variant b (commit w) Hq) as [Hq' Hd'].
    split; [exact Hq'|congruence].
  - destruct H as (Hc & Hh & Hp & Ht).
    destruct (pendingScripts w); repeat split; quiet_goal.
  - destruct H as (Hc & Hh & Hp & Ht). repeat split; quiet_goal.
  - destruct H as (Hc & Hh & Hp & Ht).
    destruct (pendingBegins w); repeat split; quiet_goal.
  - destruct H as (Hc & Hh & Hp & Ht). repeat split; quiet_goal.
  - destruct H as (Hc & Hh & Hp & Ht).
    destruct (mouseListener w); [|repeat split; quiet_goal].
    rewrite handleMouseMove_shape. repeat split; quiet_goal.
  - now apply quiet_advance.
  - now apply quiet_commit.
Qed.

Lemma quiet_run (variant : Variant) (dwellTime : Z) (tr : list Input) (w : World) :
  NoDwell w -> noGaze tr ->
  NoDwell (run variant dwellTime tr w) /\
  domCalls (run variant dwellTime tr w) = domCalls w.
Proof.
  revert w. induction tr as [|i tr IH]; simpl; intros w H Hg; [auto|].
  assert (Hi : noGaze [i] /\ noGaze tr).
  { destruct i; simpl in *; auto; contradiction. }
  destruct Hi as [Hi Htr].
  destruct (quiet_step variant dwellTime i w H Hi) as [H1 H2].
  destruct (IH _ H1 Htr) as [H3 H4]. split; [exact H3|congruence].
Qed.
(* ===================================================================== *)
(** ** C10: pointer movement alone never dwells *)
(* ===================================================================== *)

Lemma filter_absorb (A : Type) (f g : A -> bool) (l : list A) :
  (forall x, In x l -> f x = true -> g x = true) ->
  filter f (filter g l) = filter f l.
Proof.
  induction l as [|a l IH]; simpl; intros H; [reflexivity|].
  destruct (g a) eqn:Eg; simpl.
  - destruct (f a); rewrite IH; auto.
  - destruct (f a) eqn:Ef.
    + rewrite (H a (or_introl eq_refl) Ef) in Eg. discriminate.
    + apply IH. auto.
Qed.

(** Cancelling the inactivity timer leaves the dwell timers alone. *)
Lemma dwellTimers_cancel_mouse (variant : Variant) (dwellTime : Z) (w : World) :
  Consistent variant dwellTime w ->
  filter (fun t => isKind KDwell t || isKind KProgress t)
         (cancel (mouseInactivityTimerRef w) (timers w)) = dwellTimers w.
Proof.
  intros H. unfold dwellTimers, cancel.
  destruct (mouseInactivityTimerRef w) as [id|] eqn:E; [|reflexivity].
  apply filter_absorb. intros t Hin Hk.
  apply negb_true_iff, hasId_false. intros Hid.
  assert (Hm : kind (action t) = KMouse).
  { apply (inv_mouse_own _ _ _ H t Hin). congruence. }
  unfold isKind in Hk. rewrite Hm in Hk. discriminate.
Qed.

(* ===================================================================== *)
(** ** What a disable leaves behind *)
(* ===================================================================== *)

Lemma disable_effect (variant : Variant) (dwellTime : Z) (w : World) :
  Consistent variant dwellTime w -> enabled w = true ->
  let w' := useEffect variant false w in
  NoDwell w' /\ domCalls w' = domCalls w /\
  (forall t, In t (timers w') -> action t = InitDone) /\
  isUsingMouse w' = false /\ gazePosition w' = None.
Proof.
  intros H He. simpl.
  unfold useEffect. rewrite runCleanup_shape, disabledBranch_shape.
  pose proof H as HI.
  destruct variant, (cleanup w); cbn; repeat split; cbn in *; intros;
    break_in; timer_cases HI; act_cases; norm_iff; cbn in *;
    try solve [ reflexivity | discriminate | congruence | tauto
              | apply (inv_mouse_state _ _ _ HI) ].
  all: try solve [ destruct (inv_pause _ _ _ HI eq_refl) as (? & ? & ?);
                   congruence ].
  all: rewrite (inv_mouse_state _ _ _ HI); apply (inv_pause _ _ _ HI eq_refl).
Qed.

Lemma disable_clears (variant : Variant) (dwellTime : Z) (w : World) :
  Consistent variant dwellTime w -> enabled w = true ->
  let w' := step variant dwellTime (SetEnabled false) w in
  NoDwell w' /\ domCalls w' = domCalls w /\
  (forall t, In t (timers w') -> action t = InitDone) /\
  isUsingMouse w' = false /\ gazePosition w' = None.
Proof.
  intros H He. simpl. rewrite He. simpl.
  apply (disable_effect variant dwellTime (commit w)).
  - now apply commit_consistent.
  - exact He.
Qed.

(* ===================================================================== *)
(** ** A pending timer runs at its deadline *)
(* ===================================================================== *)

Lemma now_fire (dwellTime : Z) (t : Timer) (w : World) :
  now (fire dwellTime t w) = now w.
Proof.
  unfold fire. destruct (action t); try reflexivity.
  rewrite dwellCallback_shape. reflexivity.
Qed.

Lemma now_runTimer (dwellTime : Z) (w : World) (id : nat) :
  now (runTimer dwellTime w id) = now w.
Proof.
  unfold runTimer. destruct (find (hasId id) (timers w)); [|reflexivity].
  apply now_fire.
Qed.

Lemma now_fold (dwellTime : Z) (ids : list nat) (w : World) :
  now (fold_left (runTimer dwellTime) ids w) = now w.
Proof.
  revert w. induction ids as [|id ids IH]; simpl; intros w; [reflexivity|].
  rewrite IH. apply now_runTimer.
Qed.

Lemma now_tick (dwellTime : Z) (w : World) :
  now (tick dwellTime w) = now w + 1.
Proof. unfold tick. rewrite now_fold. reflexivity. Qed.

Lemma now_advance (dwellTime : Z) (ms : nat) (w : World) :
  now (advance dwellTime ms w) = now w + Z.of_nat ms.
Proof.
  revert w. induction ms as [|n IH]; intros w.
  - simpl. lia.
  - cbn [advance]. rewrite IH, now_tick. lia.
Qed.

(** Another timer's callback leaves a pending timer in the table, unless
    that timer is the progress interval (which the dwell callback clears). *)
Lemma runTimer_keeps (variant : Variant) (dwellTime : Z) (w : World)
    (t0 : Timer) (id : nat) :
  Consistent variant dwellTime w -> In t0 (timers w) -> id <> tid t0 ->
  kind (action t0) <> KProgress ->
  In t0 (timers (runTimer dwellTime w id)).
Proof.
  intros HI Hin Hid Hk. unfold runTimer.
  destruct (find (hasId id) (timers w)) as [t|] eqn:E; [|exact Hin].
  apply find_hasId_In in E as [Ht Htid]. subst id.
  destruct (timer_facts _ _ w t0 HI Hin) as (_ & _ & HownP & _).
  unfold fire. destruct (action t) as [T b| | |]; cbn.
  - rewrite dwellCallback_shape. cbn.
    apply In_cancel. split; [apply In_cleared; auto|].
    intros Hp. apply Hk, HownP, Hp.
  - unfold rearm. apply in_map_iff. exists t0. split; [|exact Hin].
    destruct (hasId (tid t) t0) eqn:Eh; [|reflexivity].
    apply hasId_true in Eh. congruence.
  - apply In_cleared; auto.
  - apply In_cleared; auto.
Qed.

Section Fires.

Variable variant : Variant.
Variable dwellTime : Z.
Variable t0 : Timer.
Variables Qb Qa : World -> Prop.

Hypothesis Qb_now : forall w t, Qb w -> Qb (set_now t w).
Hypothesis Qa_now : forall w t, Qa w -> Qa (set_now t w).
Hypothesis Qa_keep :
  forall w id, Consistent variant dwellTime w -> Qa w -> Qa (runTimer dwellTime w id).
Hypothesis Qb_keep :
  forall w id, Consistent variant dwellTime w -> In t0 (timers w) -> Qb w ->
               id <> tid t0 ->
               In t0 (timers (runTimer dwellTime w id)) /\
               Qb (runTimer dwellTime w id).
Hypothesis fires :
  forall w, Consistent variant dwellTime w -> In t0 (timers w) -> Qb w ->
            Qa (fire dwellTime t0 w).

Lemma fold_after (ids : list nat) (w : World) :
  Consistent variant dwellTime w -> Qa w ->
  Qa (fold_left (runTimer dwellTime) ids w).
Proof.
  revert w. induction ids as [|id ids IH]; simpl; intros w HI H; [exact H|].
  apply IH; [now apply runTimer_inv|now apply Qa_keep].
Qed.

Lemma fold_fires (ids : list nat) (w : World) :
  Consistent variant dwellTime w -> In t0 (timers w) -> Qb w ->
  (In (tid t0) ids -> Qa (fold_left (runTimer dwellTime) ids w)) /\
  (~ In (tid t0) ids ->
   In t0 (timers (fold_left (runTimer dwellTime) ids w)) /\
   Qb (fold_left (runTimer dwellTime) ids w)).
Proof.
  revert w. induction ids as [|id ids IH]; simpl; intros w HI Hin Hb.
  - split; [contradiction|auto].
  - destruct (Nat.eq_dec id (tid t0)) as [->|Hne].
    + split; [intros _|intros Hn; exfalso; auto].
      assert (E : runTimer dwellTime w (tid t0) = fire dwellTime t0 w).
      { unfold runTimer.
        rewrite (find_hasId_unique (tid t0) (timers w) t0); auto.
        apply (inv_nodup _ _ _ HI). }
      apply fold_after; [now apply runTimer_inv|].
      rewrite E. now apply fires.
    + destruct (Qb_keep w id HI Hin Hb Hne) as [Hin' Hb'].
      destruct (IH _ (runTimer_inv _ _ _ id HI) Hin' Hb') as [I1 I2].
      split; [intros [?|?]; [contradiction|auto]|intros Hn; apply I2; auto].
Qed.

Lemma tick_fires (w : World) :
  Consistent variant dwellTime w -> In t0 (timers w) -> Qb w ->
  (deadline t0 <= now w + 1 -> Qa (tick dwellTime w)) /\
  (now w + 1 < deadline t0 ->
   In t0 (timers (tick dwellTime w)) /\ Qb (tick dwellTime w)).
Proof.
  intros HI Hin Hb. unfold tick.
  set (w1 := set_now (now w + 1) w).
  assert (HI1 : Consistent variant dwellTime w1) by now apply set_now_consistent.
  assert (Hin1 : In t0 (timers w1)) by exact Hin.
  assert (Hb1 : Qb w1) by now apply Qb_now.
  destruct (fold_fires (map tid (filter (isDue (now w1)) (timers w1))) w1
              HI1 Hin1 Hb1) as [F1 F2].
  split; intros Hd.
  - apply F1. apply in_map, filter_In. split; [exact Hin|].
    unfold isDue. cbn. now apply Z.leb_le.
  - apply F2. intros Hi. apply in_map_iff in Hi as (t & Ht & Hf).
    apply filter_In in Hf as [Hf Hdue].
    assert (t = t0).
    { apply (NoDup_tid_inj (timers w)); auto.
      apply (inv_nodup _ _ _ HI). }
    subst t. unfold isDue in Hdue. cbn in Hdue. apply Z.leb_le in Hdue. lia.
Qed.

Lemma advance_after (ms : nat) (w : World) :
  Consistent variant dwellTime w -> Qa w -> Qa (advance dwellTime ms w).
Proof.
  revert w. induction ms as [|n IH]; simpl; intros w HI H; [exact H|].
  apply IH; [now apply tick_inv|].
  unfold tick. apply fold_after; [now apply set_now_consistent|now apply Qa_now].
Qed.

Lemma advance_fires (ms : nat) (w : World) :
  Consistent variant dwellTime w -> In t0 (timers w) -> Qb w ->
  now w < deadline t0 ->
  (now w + Z.of_nat ms < deadline t0 ->
   In t0 (timers (advance dwellTime ms w)) /\ Qb (advance dwellTime ms w)) /\
  (deadline t0 <= now w + Z.of_nat ms -> Qa (advance dwellTime ms w)).
Proof.
  revert w. induction ms as [|n IH]; intros w HI Hin Hb Hlt.
  - simpl. split; [auto|lia].
  - cbn [advance].
    destruct (tick_fires w HI Hin Hb) as [T1 T2].
    destruct (Z.le_gt_cases (deadline t0) (now w + 1)) as [Hle|Hgt].
    + split; [lia|intros _].
      apply advance_after; [now apply tick_inv|auto].
    + destruct (T2 Hgt) as [Hin' Hb'].
      assert (Hn : now (tick dwellTime w) < deadline t0)
        by (rewrite now_tick; lia).
      destruct (IH _ (tick_inv _ _ _ HI) Hin' Hb' Hn) as [I1 I2].
      rewrite now_tick in I1, I2.
      split; intros Hd; [apply I1|apply I2]; lia.
Qed.

End Fires.
(* ===================================================================== *)
(** ** C8: a late acquisition success *)
(* ===================================================================== *)

Lemma fire_flags (dwellTime : Z) (t : Timer) (w : World) :
  let w' := fire dwellTime t w in
  enabled w' = enabled w /\
  webgazerInitialized w' = webgazerInitialized w /\
  windowWebgazer w' = windowWebgazer w /\
  scriptsAppended w' = scriptsAppended w /\
  wgCalls w' = wgCalls w /\
  (isInitialized w = true -> isInitialized w' = true).
Proof.
  unfold fire. destruct (action t); cbn;
    rewrite ?dwellCallback_shape; cbn; auto 10.
Qed.

Lemma runTimer_flags (dwellTime : Z) (w : World) (id : nat) :
  let w' := runTimer dwellTime w id in
  enabled w' = enabled w /\
  webgazerInitialized w' = webgazerInitialized w /\
  windowWebgazer w' = windowWebgazer w /\
  scriptsAppended w' = scriptsAppended w /\
  wgCalls w' = wgCalls w /\
  (isInitialized w = true -> isInitialized w' = true).
Proof.
  unfold runTimer. destruct (find (hasId id) (timers w)) as [t|];
    [apply fire_flags|cbn; auto 10].
Qed.

(** C8, amended: nothing guards the completion of [begin()].  Whenever the
    promise resolves, also after the hook has been disabled, the callback sets
    [webgazerInitialized] and starts a 1 s timer that no later code cancels;
    one second later [isInitialized] is true, with [enabled] left as it
    was. *)
Theorem C8_late_success_is_applied (variant : Variant) (dwellTime : Z)
    (w : World) :
  reachable variant dwellTime w -> pendingBegins w <> O ->
  let w1 := step variant dwellTime BeginResolved w in
  let w2 := step variant dwellTime (Wait 1000) w1 in
  webgazerInitialized w1 = true /\ enabled w1 = enabled w /\
  isInitialized w2 = true /\ webgazerInitialized w2 = true /\
  enabled w2 = enabled w.
Proof.
  intros Hr Hp w1 w2.
  assert (HI1 : Consistent variant dwellTime w1)
    by (apply step_inv, reachable_inv, Hr).
  destruct (pendingBegins w) as [|n] eqn:En; [congruence|].
  set (t0 := mkTimer (nextTimerId w) (now w + 1000) InitDone).
  assert (Hin : In t0 (timers w1)).
  { unfold w1. simpl. rewrite En. cbn. apply in_or_app. right. now left. }
  assert (Hf : webgazerInitialized w1 = true /\ enabled w1 = enabled w /\
               now w1 = now w).
  { unfold w1. simpl. rewrite En. cbn. auto. }
  destruct Hf as (Hf & He & Hn).
  pose (Qb := fun x : World =>
                enabled x = enabled w /\ webgazerInitialized x = true).
  pose (Qa := fun x : World =>
                isInitialized x = true /\ enabled x = enabled w /\
                webgazerInitialized x = true).
  assert (A : Qa (advance dwellTime 1000 w1)).
  { refine (proj2 (advance_fires variant dwellTime t0 Qb Qa _ _ _ _ _
                     1000%nat w1 HI1 Hin _ _) _); unfold Qb, Qa.
    - intros x t H. exact H.
    - intros x t H. exact H.
    - intros x id _ (H1 & H2 & H3).
      destruct (runTimer_flags dwellTime x id) as (F1 & F2 & _ & _ & _ & F6).
      repeat split; [auto|congruence|congruence].
    - intros x id HI Hx (H1 & H2) Hne.
      destruct (runTimer_flags dwellTime x id) as (F1 & F2 & _).
      split; [|split; congruence].
      apply (runTimer_keeps variant); auto. discriminate.
    - intros x _ _ (H1 & H2). unfold fire. cbn. auto.
    - auto.
    - rewrite Hn. cbn. lia.
    - rewrite Hn. cbn. lia. }
  destruct A as (A1 & A2 & A3). auto.
Qed.

(** C8, counterexample: disabled while [begin()] is pending, the page has
    neither flag set; the late success sets both, though [enabled] is still
    false. *)
Lemma C8_late_success_counterexample :
  let w := run PauseVariant 2000 disabledWhileStarting mounted in
  let w' := run PauseVariant 2000 lateSuccess w in
  (enabled w, webgazerInitialized w, isInitialized w) = (false, false, false) /\
  (enabled w', webgazerInitialized w', isInitialized w') = (false, true, true).
Proof. vm_compute. split; reflexivity. Qed.
(* ===================================================================== *)
(** ** C6: re-enabling after a successful acquisition *)
(* ===================================================================== *)

Lemma dwellStep_flags (dwellTime : Z) (button : option Element) (w : World) :
  let w' := dwellStep dwellTime button w in
  enabled w' = enabled w /\
  webgazerInitialized w' = webgazerInitialized w /\
  windowWebgazer w' = windowWebgazer w /\
  scriptsAppended w' = scriptsAppended w /\
  wgCalls w' = wgCalls w.
Proof.
  unfold dwellStep. destruct button as [b|].
  - destruct (getAttribute b) as [T|]; [|cbn; auto].
    destruct (_ && _); [|cbn; auto].
    rewrite startDwell_shape. cbn. auto.
  - rewrite stopDwell_shape.
    destruct (currentHoveredRef w); cbn; auto.
Qed.

Lemma advance_flags (dwellTime : Z) (ms : nat) (w : World) :
  let w' := advance dwellTime ms w in
  enabled w' = enabled w /\
  webgazerInitialized w' = webgazerInitialized w /\
  windowWebgazer w' = windowWebgazer w /\
  scriptsAppended w' = scriptsAppended w /\
  wgCalls w' = wgCalls w.
Proof.
  revert w. induction ms as [|n IH]; intros w; [cbn; auto|].
  cbn [advance]. cbn zeta.
  assert (T : let w' := tick dwellTime w in
              enabled w' = enabled w /\
              webgazerInitialized w' = webgazerInitialized w /\
              windowWebgazer w' = windowWebgazer w /\
              scriptsAppended w' = scriptsAppended w /\
              wgCalls w' = wgCalls w).
  { unfold tick.
    generalize (map tid (filter (isDue (now (set_now (now w + 1) w)))
                                (timers (set_now (now w + 1) w)))).
    change (enabled w) with (enabled (set_now (now w + 1) w)).
    change (webgazerInitialized w)
      with (webgazerInitialized (set_now (now w + 1) w)).
    change (windowWebgazer w) with (windowWebgazer (set_now (now w + 1) w)).
    change (scriptsAppended w) with (scriptsAppended (set_now (now w + 1) w)).
    change (wgCalls w) with (wgCalls (set_now (now w + 1) w)).
    generalize (set_now (now w + 1) w).
    intros x ids. revert x.
    induction ids as [|id ids IHi]; intros x; [cbn; auto|].
    cbn [fold_left]. cbn zeta.
    destruct (runTimer_flags dwellTime x id) as (F1 & F2 & F3 & F4 & F5 & _).
    destruct (IHi (runTimer dwellTime x id)) as (G1 & G2 & G3 & G4 & G5).
    repeat split; congruence. }
  destruct T as (T1 & T2 & T3 & T4 & T5).
  destruct (IH (tick dwellTime w)) as (G1 & G2 & G3 & G4 & G5).
  repeat split; congruence.
Qed.

(** After a success the effect of the pause variant keeps the flag and the
    library object, and appends no script. *)
Lemma pause_steady_effect (b : bool) (w : World) :
  webgazerInitialized w = true -> windowWebgazer w = true ->
  let w' := useEffect PauseVariant b w in
  webgazerInitialized w' = true /\ windowWebgazer w' = true /\
  scriptsAppended w' = scriptsAppended w.
Proof.
  intros Hf Hw. simpl.
  unfold useEffect. rewrite runCleanup_shape.
  destruct b.
  - unfold enabledBranch.
    destruct (cleanup w); cbn; rewrite Hf, Hw; cbn; auto.
  - rewrite disabledBranch_shape. destruct (cleanup w); cbn; auto.
Qed.

(** Once the flag is set, the pause variant never clears it and never
    appends another script. *)
Lemma pause_steady_step (dwellTime : Z) (i : Input) (w : World) :
  webgazerInitialized w = true -> windowWebgazer w = true ->
  let w' := step PauseVariant dwellTime i w in
  webgazerInitialized w' = true /\ windowWebgazer w' = true /\
  scriptsAppended w' = scriptsAppended w.
Proof.
  intros Hf Hw. destruct i as [b| | | | |doc data|p|ms|]; simpl.
  - destruct (Bool.eqb b (enabled w)); [auto|].
    exact (pause_steady_effect b (commit w) Hf Hw).
  - destruct (pendingScripts w); cbn; auto.
  - cbn. auto.
  - destruct (pendingBegins w); cbn; auto.
  - cbn. auto.
  - destruct (gazeListenerSet w); [|auto]. cbn.
    unfold gazeListener. destruct data as [xy|]; [|auto].
    destruct (dwellStep_flags dwellTime
                (resolveButton doc (currentPoint PauseVariant xy w))
                (set_gazePosition (Some xy) w)) as (_ & F2 & F3 & F4 & _).
    cbn in F2, F3, F4 |- *. repeat split; congruence.
  - destruct (mouseListener w); [|auto].
    rewrite handleMouseMove_shape. cbn. auto.
  - destruct (advance_flags dwellTime ms w) as (_ & F2 & F3 & F4 & _).
    repeat split; congruence.
  - cbn. auto.
Qed.

Lemma pause_steady_run (dwellTime : Z) (tr : list Input) (w : World) :
  webgazerInitialized w = true -> windowWebgazer w = true ->
  let w' := run PauseVariant dwellTime tr w in
  webgazerInitialized w' = true /\ windowWebgazer w' = true /\
  scriptsAppended w' = scriptsAppended w.
Proof.
  revert w. induction tr as [|i tr IH]; simpl; intros w Hf Hw; [auto|].
  destruct (pause_steady_step dwellTime i w Hf Hw) as (S1 & S2 & S3).
  destruct (IH _ S1 S2) as (R1 & R2 & R3). repeat split; congruence.
Qed.

Lemma reachable_run (variant : Variant) (dwellTime : Z) (tr : list Input)
    (w : World) :
  reachable variant dwellTime w ->
  reachable variant dwellTime (run variant dwellTime tr w).
Proof.
  revert w. induction tr as [|i tr IH]; simpl; intros w H; [exact H|].
  apply IH, reachable_step, H.
Qed.

Lemma step_setEnabled (variant : Variant) (dwellTime : Z) (b : bool) (w : World) :
  enabled w = negb b ->
  step variant dwellTime (SetEnabled b) w = useEffect variant b (commit w).
Proof.
  intros H. cbn [step]. rewrite H. now destruct b.
Qed.

(** C6, amended.  In [src/hooks/useEyeTracking.ts], once an acquisition has
    succeeded the flag stays set and no script is ever appended again; every
    later enable calls [resume()] on the existing instance and reports
    [isInitialized].  (Acquisitions started before that first success are not
    withdrawn.)  In [src/unnamed/part_002] a disable after a success ends the
    library and clears the flag, so that the next enable appends the script
    anew. *)
Theorem C6_resume_after_success (dwellTime : Z) :
  (forall (w : World) (tr : list Input),
      reachable PauseVariant dwellTime w ->
      webgazerInitialized w = true ->
      let w' := run PauseVariant dwellTime tr w in
      webgazerInitialized w' = true /\
      scriptsAppended w' = scriptsAppended w /\
      (enabled w' = false ->
       let w'' := step PauseVariant dwellTime (SetEnabled true) w' in
       wgCalls w'' = wgCalls w' ++ [WgResume] /\
       isInitialized w'' = true /\
       scriptsAppended w'' = scriptsAppended w)) /\
  (forall w : World,
      reachable MouseVariant dwellTime w ->
      webgazerInitialized w = true -> enabled w = true ->
      let w' := step MouseVariant dwellTime (SetEnabled false) w in
      let w'' := step MouseVariant dwellTime (SetEnabled true) w' in
      webgazerInitialized w' = false /\
      scriptsAppended w'' = S (scriptsAppended w)).
Proof.
  split.
  - intros w tr Hr Hf w'.
    assert (Hw : windowWebgazer w = true).
    { apply (inv_flag _ _ _ (reachable_inv _ _ _ Hr)), Hf. }
    destruct (pause_steady_run dwellTime tr w Hf Hw) as (R1 & R2 & R3).
    fold w' in R1, R2, R3. repeat split; auto.
    all: assert (HI : Consistent PauseVariant dwellTime (commit w'))
           by (apply commit_consistent, reachable_inv, reachable_run, Hr);
         pose proof (inv_cleanup_off _ _ _ HI H) as Hc;
         rewrite (step_setEnabled _ _ true w' H); unfold useEffect;
         rewrite runCleanup_shape, Hc; unfold enabledBranch; cbn;
         rewrite R1, R2; cbn; auto.
  - intros w Hr Hf He w' w''.
    assert (HI : Consistent MouseVariant dwellTime w)
      by (apply reachable_inv, Hr).
    assert (Hw : windowWebgazer w = true) by (apply (inv_flag _ _ _ HI), Hf).
    assert (F : webgazerInitialized w' = false /\ enabled w' = false /\
                cleanup w' = NoCleanup /\
                scriptsAppended w' = scriptsAppended w).
    { unfold w'. rewrite (step_setEnabled _ _ false w He).
      unfold useEffect. rewrite runCleanup_shape, disabledBranch_shape.
      destruct (cleanup (commit w)); cbn; rewrite Hw, Hf; cbn; auto. }
    destruct F as (F1 & F2 & F3 & F4). split; [exact F1|].
    unfold w''. clearbody w'. rewrite (step_setEnabled _ _ true w' F2).
    assert (F3' : cleanup (commit w') = NoCleanup) by exact F3.
    unfold useEffect. rewrite runCleanup_shape, F3'.
    unfold enabledBranch. cbn. rewrite F1. cbn. congruence.
Qed.

(** C6, counterexample: on [src/unnamed/part_002] one disable between two
    enables is enough for the script to be appended, and [begin()] to be
    called, twice. *)
Lemma C6_second_acquisition_counterexample :
  let w := run MouseVariant 2000 enableTwice mounted in
  scriptsAppended w = 2%nat /\ beginCalls w = 2%nat.
Proof. vm_compute. split; reflexivity. Qed.
(* ===================================================================== *)
(** ** C9: the dwell timer callback *)
(* ===================================================================== *)

Lemma clickEvents_app (l1 l2 : list DomCall) :
  clickEvents (l1 ++ l2) = clickEvents l1 ++ clickEvents l2.
Proof.
  induction l1 as [|c l1 IH]; simpl; [reflexivity|].
  destruct c as [el|el]; [destruct (isHTMLElement el)|]; simpl;
    now rewrite IH.
Qed.

Lemma clickEvents_clickCalls (b : Element) : clickEvents (clickCalls b) = [b].
Proof.
  unfold clickCalls. destruct (isHTMLElement b) eqn:E; simpl; now rewrite E.
Qed.

Lemma NoDwell_dwellTimers (w : World) : NoDwell w -> dwellTimers w = [].
Proof.
  intros (_ & _ & _ & Ht). unfold dwellTimers.
  destruct (filter _ _) as [|t l] eqn:E; [reflexivity|].
  assert (Hin : In t (t :: l)) by (left; reflexivity).
  rewrite <- E in Hin. apply filter_In in Hin as [Hin Hk].
  destruct (Ht t Hin) as [H1 H2]. unfold isKind in Hk.
  destruct (kind (action t)); simpl in Hk; congruence.
Qed.

(** When the dwell timer runs, the page is left idle and the button has been
    asked to click. *)
Lemma dwell_fire_idle (variant : Variant) (dwellTime : Z) (w : World)
    (t : Timer) (T : string) (b : Element) :
  Consistent variant dwellTime w -> In t (timers w) ->
  action t = DwellComplete T b ->
  NoDwell (fire dwellTime t w) /\
  domCalls (fire dwellTime t w) = domCalls w ++ clickCalls b.
Proof.
  intros HI Hin Ha. unfold fire. rewrite Ha, dwellCallback_shape.
  repeat split; cbn in *; intros; break_in; timer_cases HI; act_cases;
    norm_iff; cbn in *; try congruence.
Qed.

Lemma runTimer_pending (variant : Variant) (dwellTime : Z) (w : World)
    (t : Timer) :
  Consistent variant dwellTime w -> In t (timers w) ->
  runTimer dwellTime w (tid t) = fire dwellTime t w.
Proof.
  intros HI Hin. unfold runTimer.
  rewrite (find_hasId_unique (tid t) (timers w) t); auto.
  apply (inv_nodup _ _ _ HI).
Qed.

(** C9, amended: when the dwell timer runs, [click()] is called on the
    button; if that throws (the button is not an HTMLElement), the error is
    caught and the handler makes one further attempt, dispatching a click
    event on the same button.  Either way the button receives exactly one
    click event, the selector is idle afterwards (no hovered target,
    percentage 0, no dwell timer or progress interval pending), and without
    new gaze samples no further call is ever made on a button. *)
Theorem C9_click_fallback_then_idle (variant : Variant) (dwellTime : Z)
    (w : World) (t : Timer) (T : string) (b : Element) (tr : list Input) :
  reachable variant dwellTime w -> In t (timers w) ->
  action t = DwellComplete T b -> noGaze tr ->
  let w' := runTimer dwellTime w (tid t) in
  let w'' := run variant dwellTime tr w' in
  domCalls w' =
    domCalls w ++ (if isHTMLElement b then [ClickCall b]
                   else [ClickCall b; DispatchClickEvent b]) /\
  activations w' = activations w ++ [b] /\
  hoveredElement w' = None /\ dwellProgress w' = 0%Q /\ dwellTimers w' = [] /\
  domCalls w'' = domCalls w' /\ hoveredElement w'' = None.
Proof.
  intros Hr Hin Ha Hg w' w''. apply reachable_inv in Hr.
  unfold w'' , w'. rewrite (runTimer_pending variant dwellTime w t Hr Hin).
  destruct (dwell_fire_idle variant dwellTime w t T b Hr Hin Ha) as [Hq Hd].
  destruct (quiet_run variant dwellTime tr _ Hq Hg) as [Hq' Hd'].
  split; [exact Hd|]. split.
  { unfold activations. rewrite Hd, clickEvents_app, clickEvents_clickCalls.
    reflexivity. }
  split; [apply Hq|]. split; [apply Hq|].
  split; [now apply NoDwell_dwellTimers|].
  split; [exact Hd'|apply Hq'].
Qed.

(** C9, counterexample: the gaze rests for two seconds on a tagged element
    that has no [click()] method.  The call fails, and the handler does try
    again, with a dispatched event. *)
Lemma C9_retry_counterexample :
  let w := run PauseVariant 2000 dwellOnSvg mounted in
  domCalls w = [ClickCall svgButton; DispatchClickEvent svgButton] /\
  hoveredElement w = None.
Proof. vm_compute. split; reflexivity. Qed.
(* ===================================================================== *)
(** ** C2: the dwell percentage *)
(* ===================================================================== *)

Section Progress.

Variable dwellTime : Z.
Hypothesis dwellTime_pos : 0 < dwellTime.

Lemma progressAt_le_100 (e : Z) : (progressAt dwellTime e <= 100)%Q.
Proof. unfold progressAt. apply Q.le_min_r. Qed.

Lemma ratio_mono (e1 e2 : Z) :
  e1 <= e2 ->
  (inject_Z e1 / inject_Z dwellTime * 100 <=
   inject_Z e2 / inject_Z dwellTime * 100)%Q.
Proof.
  intros H. apply Qmult_le_compat_r; [|discriminate].
  unfold Qdiv. apply Qmult_le_compat_r.
  - now rewrite <- Zle_Qle.
  - apply Qinv_le_0_compat. change 0%Q with (inject_Z 0).
    rewrite <- Zle_Qle. lia.
Qed.

Lemma progressAt_mono (e1 e2 : Z) :
  e1 <= e2 -> (progressAt dwellTime e1 <= progressAt dwellTime e2)%Q.
Proof.
  intros H. unfold progressAt. apply Q.min_le_compat_r, ratio_mono, H.
Qed.

Lemma progressAt_nonneg (e : Z) : 0 <= e -> (0 <= progressAt dwellTime e)%Q.
Proof.
  intros H. unfold progressAt. apply Q.min_glb; [|discriminate].
  assert (Z0 : (inject_Z 0 / inject_Z dwellTime * 100 == 0)%Q).
  { unfold Qdiv. change (inject_Z 0) with 0%Q. ring. }
  rewrite <- Z0. now apply ratio_mono.
Qed.

Local Abbreviation Bounded := (Bounded dwellTime).

Ltac bounded_goal :=
  cbn; repeat split;
  try solve [ assumption | lia | apply Qle_refl
            | apply progressAt_nonneg; lia ].

Lemma fire_bounded (t : Timer) (w : World) :
  Bounded w -> Bounded (fire dwellTime t w).
Proof.
  intros (Hs & Hl & Hh). unfold fire, Bounded.
  destruct (action t); rewrite ?dwellCallback_shape; bounded_goal.
Qed.

Lemma runTimer_bounded (w : World) (id : nat) :
  Bounded w -> Bounded (runTimer dwellTime w id).
Proof.
  intros H. unfold runTimer.
  destruct (find (hasId id) (timers w)); [now apply fire_bounded|exact H].
Qed.

Lemma fold_bounded (ids : list nat) (w : World) :
  Bounded w -> Bounded (fold_left (runTimer dwellTime) ids w).
Proof.
  revert w. induction ids as [|id ids IH]; simpl; intros w H; [exact H|].
  apply IH, runTimer_bounded, H.
Qed.

Lemma set_now_bounded (w : World) : Bounded w -> Bounded (set_now (now w + 1) w).
Proof.
  intros (Hs & Hl & Hh). unfold Bounded. cbn. repeat split; [lia|exact Hl|].
  eapply Qle_trans; [exact Hh|]. apply progressAt_mono. lia.
Qed.

Lemma tick_bounded (w : World) : Bounded w -> Bounded (tick dwellTime w).
Proof. intros H. unfold tick. apply fold_bounded, set_now_bounded, H. Qed.

Lemma advance_bounded (ms : nat) (w : World) :
  Bounded w -> Bounded (advance dwellTime ms w).
Proof.
  revert w. induction ms as [|n IH]; simpl; intros w H; [exact H|].
  apply IH, tick_bounded, H.
Qed.

Lemma dwellStep_bounded (button : option Element) (w : World) :
  Bounded w -> Bounded (dwellStep dwellTime button w).
Proof.
  intros (Hs & Hl & Hh). unfold dwellStep, Bounded.
  destruct button as [b|].
  - destruct (getAttribute b) as [T|]; [|auto].
    destruct (_ && _); [|auto].
    rewrite startDwell_shape. bounded_goal.
  - rewrite stopDwell_shape. destruct (currentHoveredRef w); bounded_goal.
Qed.

Lemma useEffect_bounded (variant : Variant) (b : bool) (w : World) :
  Bounded w -> Bounded (useEffect variant b w).
Proof.
  intros (Hs & Hl & Hh).
  unfold useEffect, Bounded. rewrite runCleanup_shape. destruct b.
  - unfold enabledBranch.
    destruct variant, (cleanup w); cbn;
      repeat match goal with
             | |- context [if ?c then _ else _] => destruct c
             end; bounded_goal.
  - rewrite disabledBranch_shape.
    destruct variant, (cleanup w); bounded_goal.
Qed.

Lemma step_bounded (variant : Variant) (i : Input) (w : World) :
  Bounded w -> Bounded (step variant dwellTime i w).
Proof.
  intros H. destruct i as [b| | | | |doc data|p|ms|]; cbn [step].
  - destruct (Bool.eqb b (enabled w)); [exact H|].
    apply useEffect_bounded. exact H.
  - destruct (pendingScripts w); [exact H|]. exact H.
  - exact H.
  - destruct (pendingBegins w); exact H.
  - exact H.
  - destruct (gazeListenerSet w); [|exact H].
    unfold gazeListener. destruct data as [xy|]; [|exact H].
    assert (B : Bounded
                  (dwellStep dwellTime
                     (resolveButton doc (currentPoint variant xy w))
                     match variant with
                     | PauseVariant => set_gazePosition (Some xy) w
                     | MouseVariant =>
                         if negb (isUsingMouseRef w)
                         then set_gazePosition (Some xy) w else w
                     end)).
    { apply dwellStep_bounded.
      destruct variant; [exact H|]. destruct (negb (isUsingMouseRef w)); exact H. }
    exact B.
  - destruct (mouseListener w); [|exact H].
    rewrite handleMouseMove_shape. exact H.
  - now apply advance_bounded.
  - exact H.
Qed.

Lemma mounted_bounded : Bounded mounted.
Proof.
  unfold Bounded. split; [cbn; lia|]. split; [apply Qle_refl|].
  change (0 <= progressAt dwellTime 0)%Q. apply progressAt_nonneg. lia.
Qed.

Lemma reachable_bounded (variant : Variant) (w : World) :
  reachable variant dwellTime w -> Bounded w.
Proof.
  intros [tr ->]. generalize mounted_bounded. generalize mounted.
  induction tr as [|i tr IH]; simpl; intros w H; [exact H|].
  apply IH, step_bounded, H.
Qed.

Lemma Progressed_refl (w : World) : Progressed w w.
Proof. left. split; [reflexivity|apply Qle_refl]. Qed.

Lemma Progressed_trans (variant : Variant) (a b c : World) :
  Consistent variant dwellTime c ->
  Progressed a b -> Progressed b c -> Progressed a c.
Proof.
  intros HI [[H1 L1]|[H1 L1]] [[H2 L2]|[H2 L2]].
  - left. split; [congruence|eapply Qle_trans; eauto].
  - right. auto.
  - right. split; [congruence|].
    apply (inv_idle _ _ _ HI). rewrite <- (inv_hovered _ _ _ HI). congruence.
  - right. auto.
Qed.

Lemma runTimer_progressed (variant : Variant) (w : World) (id : nat) :
  Consistent variant dwellTime w -> Bounded w ->
  Progressed w (runTimer dwellTime w id).
Proof.
  intros HI (Hs & Hl & Hh). unfold runTimer.
  destruct (find (hasId id) (timers w)) as [t|]; [|apply Progressed_refl].
  unfold fire. destruct (action t).
  - right. rewrite dwellCallback_shape. cbn. auto.
  - left. cbn. auto.
  - left. cbn. split; [reflexivity|apply Qle_refl].
  - left. cbn. split; [reflexivity|apply Qle_refl].
Qed.

Lemma fold_progressed (variant : Variant) (ids : list nat) (w : World) :
  Consistent variant dwellTime w -> Bounded w ->
  Progressed w (fold_left (runTimer dwellTime) ids w).
Proof.
  revert w. induction ids as [|id ids IH]; simpl; intros w HI HB.
  - apply Progressed_refl.
  - apply (Progressed_trans variant _ (runTimer dwellTime w id)).
    + apply fold_runTimer_inv, runTimer_inv, HI.
    + now apply (runTimer_progressed variant).
    + apply IH; [apply runTimer_inv, HI|now apply runTimer_bounded].
Qed.

Lemma tick_progressed (variant : Variant) (w : World) :
  Consistent variant dwellTime w -> Bounded w -> Progressed w (tick dwellTime w).
Proof.
  intros HI HB. unfold tick.
  exact (fold_progressed variant _ (set_now (now w + 1) w)
           (set_now_consistent _ _ _ w HI) (set_now_bounded w HB)).
Qed.

Lemma advance_progressed (variant : Variant) (ms : nat) (w : World) :
  Consistent variant dwellTime w -> Bounded w ->
  Progressed w (advance dwellTime ms w).
Proof.
  revert w. induction ms as [|n IH]; intros w HI HB.
  - apply Progressed_refl.
  - cbn [advance].
    apply (Progressed_trans variant _ (tick dwellTime w)).
    + apply advance_inv, tick_inv, HI.
    + now apply (tick_progressed variant).
    + apply IH; [apply tick_inv, HI|now apply tick_bounded].
Qed.

(** What the claim says of one step, from [Progressed]. *)
Lemma Progressed_claim (variant : Variant) (w w' : World) :
  Consistent variant dwellTime w -> Progressed w w' ->
  (hoveredElement w' = hoveredElement w ->
   (dwellProgress w <= dwellProgress w')%Q) /\
  (hoveredElement w' <> hoveredElement w -> dwellProgress w' = 0%Q).
Proof.
  intros HI [[H L]|[H L]]; split; intros E; auto; try contradiction.
  rewrite L. rewrite (inv_idle _ _ _ HI); [apply Qle_refl|].
  rewrite <- (inv_hovered _ _ _ HI). congruence.
Qed.

Lemma differs_true (T : string) (cur : option string) :
  differs T cur = true -> cur <> Some T.
Proof.
  unfold differs. destruct cur as [c|]; [|discriminate].
  intros H E. injection E as ->. now rewrite String.eqb_refl in H.
Qed.

Lemma dwellStep_claim (variant : Variant) (button : option Element)
    (w w0 : World) :
  Consistent variant dwellTime w ->
  hoveredElement w0 = hoveredElement w ->
  currentHoveredRef w0 = currentHoveredRef w ->
  dwellProgress w0 = dwellProgress w ->
  let w' := dwellStep dwellTime button w0 in
  (hoveredElement w' = hoveredElement w ->
   (dwellProgress w <= dwellProgress w')%Q) /\
  (hoveredElement w' <> hoveredElement w -> dwellProgress w' = 0%Q).
Proof.
  intros HI Eh Ec Ep. unfold dwellStep.
  pose proof (inv_hovered _ _ _ HI) as Hhov.
  destruct button as [b|].
  - destruct (getAttribute b) as [T|];
      [|cbn; rewrite Eh, Ep; split; [intros _; apply Qle_refl|congruence]].
    destruct (negb (T =? "")%string);
      [|cbn; rewrite Eh, Ep; split; [intros _; apply Qle_refl|congruence]].
    destruct (differs T (currentHoveredRef w0)) eqn:Ed;
      [|cbn; rewrite Eh, Ep; split; [intros _; apply Qle_refl|congruence]].
    apply differs_true in Ed. rewrite startDwell_shape. cbn.
    split; [|reflexivity]. intros E. exfalso. apply Ed. congruence.
  - rewrite stopDwell_shape.
    destruct (currentHoveredRef w0) as [c|] eqn:E0; cbn.
    + split; [|reflexivity]. intros E. congruence.
    + rewrite Eh, Ep. split; [intros _; apply Qle_refl|congruence].
Qed.

(** C2: after every step of every reachable page the dwell percentage lies
    in [0, 100]; across the step it has not decreased if the hovered target
    id is the same before and after, and it is 0 if the id has changed
    (to, from or between targets). *)
Theorem C2_progress_bounded_monotone_reset (variant : Variant)
    (w : World) (i : Input) :
  reachable variant dwellTime w ->
  let w' := step variant dwellTime i w in
  (0 <= dwellProgress w' /\ dwellProgress w' <= 100)%Q /\
  (hoveredElement w' = hoveredElement w ->
   (dwellProgress w <= dwellProgress w')%Q) /\
  (hoveredElement w' <> hoveredElement w -> dwellProgress w' = 0%Q).
Proof.
  intros Hr w'.
  assert (HB' : Bounded w')
    by (apply (reachable_bounded variant), reachable_step, Hr).
  pose proof (reachable_bounded variant w Hr) as HB.
  apply reachable_inv in Hr. pose proof Hr as HI.
  split.
  { destruct HB' as (_ & Hl & Hh). split; [exact Hl|].
    eapply Qle_trans; [exact Hh|apply progressAt_le_100]. }
  assert (Same : forall x : World,
             hoveredElement x = hoveredElement w ->
             dwellProgress x = dwellProgress w ->
             (hoveredElement x = hoveredElement w ->
              (dwellProgress w <= dwellProgress x)%Q) /\
             (hoveredElement x <> hoveredElement w -> dwellProgress x = 0%Q)).
  { intros x E1 E2. rewrite E2. split; [intros _; apply Qle_refl|congruence]. }
  unfold w'. destruct i as [b| | | | |doc data|p|ms|]; cbn [step].
  - destruct (Bool.eqb b (enabled w)); [now apply Same|].
    unfold useEffect. rewrite runCleanup_shape. destruct b.
    + apply Same; unfold enabledBranch;
        destruct variant, (cleanup (commit w)); cbn;
        repeat match goal with
               | |- context [if ?c then _ else _] => destruct c
               end; reflexivity.
    + apply (Progressed_claim variant); [exact Hr|]. right.
      rewrite disabledBranch_shape. destruct variant; cbn; auto.
  - destruct (pendingScripts w); now apply Same.
  - now apply Same.
  - destruct (pendingBegins w); now apply Same.
  - now apply Same.
  - destruct (gazeListenerSet w); [|now apply Same].
    unfold gazeListener. destruct data as [xy|]; [|now apply Same].
    apply (dwellStep_claim variant _ w); auto;
      destruct variant; try destruct (negb (isUsingMouseRef w)); reflexivity.
  - destruct (mouseListener w); [|now apply Same].
    rewrite handleMouseMove_shape. now apply Same.
  - apply (Progressed_claim variant); [exact Hr|].
    now apply (advance_progressed variant).
  - now apply Same.
Qed.

End Progress.
(* ===================================================================== *)
(** ** C5: arbitration between pointer and gaze *)
(* ===================================================================== *)

Lemma pointerAge_cons (i : Input) (tr : list Input) (en : bool)
    (age : option nat) :
  pointerAge (i :: tr) en age =
  pointerAge tr (pointerEnabled i en) (pointerClock i en age).
Proof. destruct i; reflexivity. Qed.

Lemma runTimer_mouse_off (dwellTime : Z) (w : World) (id : nat) :
  isUsingMouse w = false -> isUsingMouse (runTimer dwellTime w id) = false.
Proof.
  intros H. unfold runTimer.
  destruct (find (hasId id) (timers w)) as [t|]; [|exact H].
  unfold fire. destruct (action t); rewrite ?dwellCallback_shape; cbn; auto.
Qed.

Lemma advance_mouse_off (dwellTime : Z) (ms : nat) (w : World) :
  isUsingMouse w = false -> isUsingMouse (advance dwellTime ms w) = false.
Proof.
  revert w. induction ms as [|n IH]; intros w H; [exact H|].
  cbn [advance]. apply IH. unfold tick.
  generalize (map tid (filter (isDue (now (set_now (now w + 1) w)))
                              (timers (set_now (now w + 1) w)))).
  change (isUsingMouse w) with (isUsingMouse (set_now (now w + 1) w)) in H.
  revert H. generalize (set_now (now w + 1) w).
  intros x H ids. revert x H.
  induction ids as [|id ids IHi]; intros x H; [exact H|].
  cbn [fold_left]. apply IHi. now apply runTimer_mouse_off.
Qed.

(** The inactivity timer runs at its deadline and not before. *)
Lemma advance_mouse_timer (variant : Variant) (dwellTime : Z) (ms : nat)
    (w : World) (t0 : Timer) :
  Consistent variant dwellTime w -> In t0 (timers w) ->
  action t0 = MouseInactive -> isUsingMouse w = true ->
  now w < deadline t0 ->
  (now w + Z.of_nat ms < deadline t0 ->
   In t0 (timers (advance dwellTime ms w)) /\
   isUsingMouse (advance dwellTime ms w) = true) /\
  (deadline t0 <= now w + Z.of_nat ms ->
   isUsingMouse (advance dwellTime ms w) = false).
Proof.
  intros HI Hin Ha Hm Hlt.
  apply (advance_fires variant dwellTime t0
           (fun x => isUsingMouse x = true)
           (fun x => isUsingMouse x = false)); auto.
  - intros x id _ H. now apply runTimer_mouse_off.
  - intros x id Hx Hx0 H Hne.
    split; [apply (runTimer_keeps variant); auto; rewrite Ha; discriminate|].
    unfold runTimer.
    destruct (find (hasId id) (timers x)) as [t|] eqn:E; [|exact H].
    apply find_hasId_In in E as [Ht Htid].
    destruct (timer_facts _ _ x t Hx Ht) as (_ & _ & _ & M1 & _).
    destruct (timer_facts _ _ x t0 Hx Hx0) as (_ & _ & _ & M0 & _).
    unfold fire. destruct (action t) eqn:Eat;
      rewrite ?dwellCallback_shape; cbn; auto.
    exfalso. apply Hne. rewrite Ha in M0. cbn in M0, M1.
    pose proof (proj1 M0 eq_refl). pose proof (proj1 M1 eq_refl). congruence.
  - intros x _ _ _. unfold fire. rewrite Ha. reflexivity.
Qed.

(** Handlers other than the mouse's and the effect leave the arbitration
    alone. *)
Lemma step_keeps_mouse (variant : Variant) (dwellTime : Z) (i : Input)
    (w : World) :
  Consistent variant dwellTime w ->
  match i with
  | SetEnabled _ | MouseMove _ | Wait _ => False
  | _ => True
  end ->
  let w' := step variant dwellTime i w in
  isUsingMouse w' = isUsingMouse w /\ isUsingMouseRef w' = isUsingMouseRef w /\
  enabled w' = enabled w /\ now w' = now w /\
  mouseListener w' = mouseListener w /\
  forall t, In t (timers w) -> action t = MouseInactive -> In t (timers w').
Proof.
  intros HI Hi.
  destruct i as [b| | | | |doc data|p|ms|]; try contradiction; cbn [step].
  - destruct (pendingScripts w); cbn; auto 10.
  - cbn; auto 10.
  - destruct (pendingBegins w); cbn; auto 10.
    repeat split; auto. intros. apply in_or_app. auto.
  - cbn; auto 10.
  - destruct (gazeListenerSet w); [|cbn; auto 10].
    unfold gazeListener. destruct data as [xy|]; [|cbn; auto 10].
    set (w0 := match variant with
               | PauseVariant => set_gazePosition (Some xy) w
               | MouseVariant =>
                   if negb (isUsingMouseRef w)
                   then set_gazePosition (Some xy) w else w
               end).
    assert (E : isUsingMouse w0 = isUsingMouse w /\
                isUsingMouseRef w0 = isUsingMouseRef w /\
                enabled w0 = enabled w /\ now w0 = now w /\
                mouseListener w0 = mouseListener w /\
                timers w0 = timers w /\
                dwellTimerRef w0 = dwellTimerRef w /\
                progressIntervalRef w0 = progressIntervalRef w /\
                currentHoveredRef w0 = currentHoveredRef w).
    { unfold w0. destruct variant; [|destruct (negb (isUsingMouseRef w))]; cbn; auto 10. }
    destruct E as (E1 & E2 & E3 & E4 & E5 & E6 & E7 & E8 & E9).
    generalize (resolveButton doc (currentPoint variant xy w)).
    intros button. clearbody w0. unfold dwellStep.
    assert (Keep : forall t, In t (timers w) -> action t = MouseInactive ->
                   In t (cancel (progressIntervalRef w0)
                           (cancel (dwellTimerRef w0) (timers w0)))).
    { intros t Hin Ha. rewrite E6, E7, E8.
      destruct (timer_facts _ _ w t HI Hin) as (_ & D & P & _).
      rewrite Ha in D, P. cbn in D, P.
      apply In_cancel. split; [apply In_cancel; split; [exact Hin|]|].
      - intros X. apply D in X. discriminate.
      - intros X. apply P in X. discriminate. }
    destruct button as [b|].
    + destruct (getAttribute b) as [T|]; [|cbn; rewrite ?E6; auto 10].
      destruct (_ && _); [|cbn; rewrite ?E6; auto 10].
      rewrite startDwell_shape. cbn. repeat split; auto.
      intros t Hin Ha. apply in_or_app. left. apply in_or_app. left. auto.
    + rewrite stopDwell_shape.
      destruct (currentHoveredRef w0); cbn;
        [repeat split; auto|rewrite E6; auto 10].
  - cbn; auto 10.
Qed.

Lemma pointerRel_other (dwellTime : Z) (i : Input) (en : bool)
    (age : option nat) (w : World) :
  Consistent MouseVariant dwellTime w -> pointerRel en age w ->
  match i with
  | SetEnabled _ | MouseMove _ | Wait _ => False
  | _ => True
  end ->
  pointerRel en age (step MouseVariant dwellTime i w).
Proof.
  intros HI (He & Hoff & Hage) Hi.
  destruct (step_keeps_mouse MouseVariant dwellTime i w HI Hi)
    as (K1 & _ & K3 & K4 & _ & K6).
  unfold pointerRel. rewrite K1, K3, K4. repeat split; auto.
  destruct age as [n|]; [|exact Hage].
  destruct (n <? 5000)%nat; [|exact Hage].
  destruct Hage as (Hm & t & Hin & Ha & Hd). split; [exact Hm|].
  exists t. auto.
Qed.

Lemma pointerRel_step (dwellTime : Z) (i : Input) (en : bool)
    (age : option nat) (w : World) :
  Consistent MouseVariant dwellTime w -> pointerRel en age w ->
  pointerRel (pointerEnabled i en) (pointerClock i en age)
             (step MouseVariant dwellTime i w).
Proof.
  intros HI (He & Hoff & Hage).
  pose proof (inv_listener _ _ _ HI eq_refl) as Hl.
  destruct i as [b| | | | |doc data|p|ms|].
  - (* the prop changes *)
    cbn [pointerEnabled pointerClock].
    destruct (Bool.eqb b (enabled w)) eqn:Eb.
    + apply eqb_prop in Eb. cbn [step]. rewrite Eb, Bool.eqb_reflx, He.
      destruct en; [unfold pointerRel; auto|].
      rewrite (Hoff eq_refl) in Hage. unfold pointerRel. auto.
    + apply eqb_false_iff in Eb. destruct b.
      * assert (Hen : enabled w = false) by (destruct (enabled w); congruence).
        rewrite Hoff in * by congruence.
        rewrite (step_setEnabled _ _ true w Hen).
        unfold useEffect. rewrite runCleanup_shape.
        rewrite (inv_cleanup_off _ _ _
                   (commit_consistent _ _ _ HI) Hen).
        unfold enabledBranch, pointerRel. cbn in *.
        repeat match goal with
               | |- context [if ?c then _ else _] => destruct c
               end; cbn; repeat split; auto; discriminate.
      * assert (Hen : enabled w = true) by (destruct (enabled w); congruence).
        destruct (disable_clears MouseVariant dwellTime w HI Hen)
          as (_ & _ & _ & Hm & _).
        unfold pointerRel. repeat split; auto.
        rewrite (step_setEnabled _ _ false w Hen).
        unfold useEffect. rewrite runCleanup_shape, disabledBranch_shape.
        destruct (cleanup (commit w)); reflexivity.
  - now apply pointerRel_other.
  - now apply pointerRel_other.
  - now apply pointerRel_other.
  - now apply pointerRel_other.
  - now apply pointerRel_other.
  - (* the mouse moves *)
    cbn [pointerEnabled pointerClock step]. rewrite Hl, He.
    destruct en.
    + rewrite handleMouseMove_shape. unfold pointerRel. cbn.
      repeat split; auto; try discriminate.
      eexists. split; [apply in_or_app; right; left; reflexivity|].
      cbn. split; [reflexivity|lia].
    + unfold pointerRel. auto.
  - (* time passes *)
    cbn [pointerEnabled pointerClock step].
    destruct (advance_flags dwellTime ms w) as (F1 & _).
    unfold pointerRel. rewrite F1.
    split; [exact He|]. split; [intros E; rewrite (Hoff E); reflexivity|].
    destruct age as [n|]; cbn [option_map];
      [|now apply advance_mouse_off].
    destruct (n <? 5000)%nat eqn:En.
    + apply Nat.ltb_lt in En.
      destruct Hage as (Hm & t & Hin & Ha & Hd).
      assert (Hlt : now w < deadline t) by lia.
      destruct (advance_mouse_timer MouseVariant dwellTime ms w t
                  HI Hin Ha Hm Hlt) as [A1 A2].
      destruct (n + ms <? 5000)%nat eqn:En'.
      * apply Nat.ltb_lt in En'.
        destruct A1 as [A1 A1']; [lia|]. split; [exact A1'|].
        exists t. rewrite now_advance. repeat split; auto. lia.
      * apply Nat.ltb_ge in En'. apply A2. lia.
    + apply Nat.ltb_ge in En.
      destruct (n + ms <? 5000)%nat eqn:En';
        [apply Nat.ltb_lt in En'; lia|].
      now apply advance_mouse_off.
  - now apply pointerRel_other.
Qed.

Lemma pointerRel_run (dwellTime : Z) (tr : list Input) (en : bool)
    (age : option nat) (w : World) :
  Consistent MouseVariant dwellTime w -> pointerRel en age w ->
  (isUsingMouse (run MouseVariant dwellTime tr w) = true <->
   exists n, pointerAge tr en age = Some n /\ (n < 5000)%nat).
Proof.
  revert en age w. induction tr as [|i tr IH]; intros en age w HI HR.
  - cbn [run pointerAge]. destruct HR as (_ & _ & Hage).
    destruct age as [n|].
    + destruct (n <? 5000)%nat eqn:En.
      * apply Nat.ltb_lt in En. split; [intros _; eauto|intros _; apply Hage].
      * apply Nat.ltb_ge in En. rewrite Hage. split; [discriminate|].
        intros (m & [= <-] & Hm). lia.
    + rewrite Hage. split; [discriminate|]. intros (m & Hm & _). discriminate.
  - cbn [run]. rewrite pointerAge_cons.
    apply IH; [now apply step_inv|now apply pointerRel_step].
Qed.

(** A handled movement in detail: the source is the pointer, the reported
    position is the event's point, and the inactivity timer is due 5000 ms
    later. *)
Lemma handled_move (dwellTime : Z) (w : World) (p : Point) :
  reachable MouseVariant dwellTime w -> enabled w = true ->
  let w' := step MouseVariant dwellTime (MouseMove p) w in
  isUsingMouse w' = true /\ gazePosition w' = Some p /\
  exists t, In t (timers w') /\ action t = MouseInactive /\
            deadline t = now w + 5000.
Proof.
  intros Hr He. apply reachable_inv in Hr.
  pose proof (inv_listener _ _ _ Hr eq_refl) as Hl.
  cbn [step]. rewrite Hl, He, handleMouseMove_shape. cbn.
  repeat split.
  eexists. split; [apply in_or_app; right; left; reflexivity|].
  cbn. auto.
Qed.

(** C5, amended: in [src/unnamed/part_002] the active source is the pointer
    exactly when a pointer movement was handled less than 5000 ms ago and the
    hook has not been disabled since.  A movement is handled when the hook is
    enabled: it then sets the source to the pointer at once, records the
    event's point as the current position and starts a timer due 5000 ms
    later. *)
Theorem C5_pointer_active_for_5000ms (dwellTime : Z) :
  (forall tr : list Input,
      isUsingMouse (run MouseVariant dwellTime tr mounted) = true <->
      exists n, pointerAge tr false None = Some n /\ (n < 5000)%nat) /\
  (forall (w : World) (p : Point),
      reachable MouseVariant dwellTime w -> enabled w = true ->
      let w' := step MouseVariant dwellTime (MouseMove p) w in
      isUsingMouse w' = true /\ gazePosition w' = Some p /\
      exists t, In t (timers w') /\ action t = MouseInactive /\
                deadline t = now w + 5000).
Proof.
  split.
  - intros tr. apply pointerRel_run; [apply mounted_inv|].
    unfold pointerRel. cbn. auto.
  - apply handled_move.
Qed.

(** C5, counterexample: one second after a pointer movement the hook is
    disabled; the last movement is 1000 ms old, yet the source is gaze. *)
Lemma C5_disable_counterexample :
  sinceLastPointerMove moveThenDisable None = Some 1000%nat /\
  isUsingMouse (run MouseVariant 2000 moveThenDisable mounted) = false.
Proof. vm_compute. split; reflexivity. Qed.
(* ===================================================================== *)
(** ** C7: gaze samples while the pointer is the active source *)
(* ===================================================================== *)

Lemma lastPointer_cons (i : Input) (tr : list Input) (last : option Point) :
  lastPointer (i :: tr) last = lastPointer tr (pointAfter i last).
Proof. destruct i; reflexivity. Qed.

Lemma renderedSinceMove_cons (i : Input) (tr : list Input) (r : bool) :
  renderedSinceMove (i :: tr) r = renderedSinceMove tr (renderedAfter i r).
Proof. destruct i; reflexivity. Qed.

Lemma dwellStep_position (dwellTime : Z) (button : option Element) (w : World) :
  gazePosition (dwellStep dwellTime button w) = gazePosition w /\
  isUsingMouseRef (dwellStep dwellTime button w) = isUsingMouseRef w /\
  mouseListener (dwellStep dwellTime button w) = mouseListener w /\
  latestGazePositionRef (dwellStep dwellTime button w) =
    latestGazePositionRef w.
Proof.
  unfold dwellStep. destruct button as [b|].
  - destruct (getAttribute b) as [T|]; [|auto].
    destruct (_ && _); [|auto]. rewrite startDwell_shape. cbn. auto.
  - rewrite stopDwell_shape. destruct (currentHoveredRef w); cbn; auto.
Qed.

Lemma runTimer_position (dwellTime : Z) (w : World) (id : nat) :
  let w' := runTimer dwellTime w id in
  gazePosition w' = gazePosition w /\ mouseListener w' = mouseListener w /\
  (isUsingMouseRef w' = true -> isUsingMouseRef w = true) /\
  latestGazePositionRef w' = latestGazePositionRef w.
Proof.
  unfold runTimer. destruct (find (hasId id) (timers w)) as [t|];
    [|cbn; auto].
  unfold fire. destruct (action t); rewrite ?dwellCallback_shape; cbn; auto.
  repeat split. discriminate.
Qed.

Lemma advance_position (dwellTime : Z) (ms : nat) (w : World) :
  let w' := advance dwellTime ms w in
  gazePosition w' = gazePosition w /\ mouseListener w' = mouseListener w /\
  (isUsingMouseRef w' = true -> isUsingMouseRef w = true) /\
  latestGazePositionRef w' = latestGazePositionRef w.
Proof.
  revert w. induction ms as [|n IH]; intros w; [cbn; auto|].
  cbn [advance]. cbn zeta.
  assert (T : gazePosition (tick dwellTime w) = gazePosition w /\
              mouseListener (tick dwellTime w) = mouseListener w /\
              (isUsingMouseRef (tick dwellTime w) = true ->
               isUsingMouseRef w = true) /\
              latestGazePositionRef (tick dwellTime w) =
                latestGazePositionRef w).
  { unfold tick.
    generalize (map tid (filter (isDue (now (set_now (now w + 1) w)))
                                (timers (set_now (now w + 1) w)))).
    change (gazePosition w) with (gazePosition (set_now (now w + 1) w)).
    change (mouseListener w) with (mouseListener (set_now (now w + 1) w)).
    change (isUsingMouseRef w)
      with (isUsingMouseRef (set_now (now w + 1) w)).
    change (latestGazePositionRef w)
      with (latestGazePositionRef (set_now (now w + 1) w)).
    generalize (set_now (now w + 1) w).
    intros x ids. revert x.
    induction ids as [|id ids IHi]; intros x; [cbn; auto|].
    cbn [fold_left].
    destruct (runTimer_position dwellTime x id) as (F1 & F2 & F3 & F4).
    destruct (IHi (runTimer dwellTime x id)) as (G1 & G2 & G3 & G4).
    repeat split; [congruence|congruence|auto|congruence]. }
  destruct T as (T1 & T2 & T3 & T4).
  destruct (IH (tick dwellTime w)) as (G1 & G2 & G3 & G4).
  repeat split; [congruence|congruence|auto|congruence].
Qed.

Lemma enable_not_mouse (dwellTime : Z) (w : World) :
  Consistent MouseVariant dwellTime w -> enabled w = false ->
  isUsingMouseRef (useEffect MouseVariant true w) = false.
Proof.
  intros HC Hen. pose proof (inv_disabled _ _ _ HC Hen) as Hoff.
  unfold useEffect. rewrite runCleanup_shape.
  rewrite (inv_cleanup_off _ _ _ HC Hen).
  unfold enabledBranch. cbn.
  repeat match goal with
         | |- context [if ?c then _ else _] => destruct c
         end; cbn; tauto.
Qed.

Lemma disable_not_mouse (w : World) :
  isUsingMouseRef (useEffect MouseVariant false w) = false.
Proof.
  unfold useEffect. rewrite runCleanup_shape, disabledBranch_shape.
  reflexivity.
Qed.

(** A change of the prop leaves gaze as the active source. *)
Lemma setEnabled_not_mouse (dwellTime : Z) (b : bool) (w : World) :
  Consistent MouseVariant dwellTime w -> b <> enabled w ->
  isUsingMouseRef (useEffect MouseVariant b (commit w)) = false.
Proof.
  intros HC Hb. destruct b.
  - apply (enable_not_mouse dwellTime); [now apply commit_consistent|].
    cbn. destruct (enabled w); congruence.
  - apply disable_not_mouse.
Qed.

Lemma pointRel_step (dwellTime : Z) (i : Input) (last : option Point)
    (w : World) :
  Consistent MouseVariant dwellTime w -> pointRel last w ->
  pointRel (pointAfter i last) (step MouseVariant dwellTime i w).
Proof.
  intros HC HR.
  destruct i as [b| | | | |doc data|p|ms|]; cbn [pointAfter step].
  - destruct (Bool.eqb b (enabled w)) eqn:Eb; [exact HR|].
    apply eqb_false_iff in Eb. unfold pointRel.
    rewrite (setEnabled_not_mouse dwellTime b w HC Eb). discriminate.
  - destruct (pendingScripts w); [exact HR|]. exact HR.
  - exact HR.
  - destruct (pendingBegins w); exact HR.
  - exact HR.
  - destruct (gazeListenerSet w); [|exact HR].
    unfold gazeListener. destruct data as [xy|]; [|exact HR].
    unfold pointRel. cbn.
    match goal with
    | |- context [dwellStep ?d ?b ?x] =>
        destruct (dwellStep_position d b x) as (P1 & P2 & P3 & _)
    end.
    rewrite P1, P2, P3.
    destruct (isUsingMouseRef w) eqn:Em; cbn;
      [intros _; now apply HR|intros X; congruence].
  - destruct (mouseListener w) eqn:El.
    + rewrite handleMouseMove_shape. unfold pointRel. cbn. eauto.
    + unfold pointRel. intros Hm. destruct (HR Hm) as (_ & _ & Hl). congruence.
  - destruct (advance_position dwellTime ms w) as (A1 & A2 & A3 & _).
    unfold pointRel. rewrite A1, A2. intros Hm. apply HR, A3, Hm.
  - exact HR.
Qed.

Lemma syncRel_step (dwellTime : Z) (i : Input) (r : bool)
    (last : option Point) (w : World) :
  Consistent MouseVariant dwellTime w -> pointRel last w -> syncRel r last w ->
  syncRel (renderedAfter i r) (pointAfter i last)
          (step MouseVariant dwellTime i w).
Proof.
  intros HC HR HS.
  destruct i as [b| | | | |doc data|p|ms|];
    cbn [pointAfter renderedAfter step].
  - destruct (Bool.eqb b (enabled w)) eqn:Eb; [exact HS|].
    apply eqb_false_iff in Eb. unfold syncRel.
    rewrite (setEnabled_not_mouse dwellTime b w HC Eb). discriminate.
  - destruct (pendingScripts w); [exact HS|]. exact HS.
  - exact HS.
  - destruct (pendingBegins w); exact HS.
  - exact HS.
  - destruct (gazeListenerSet w); [|exact HS].
    unfold gazeListener. destruct data as [xy|]; [|exact HS].
    unfold syncRel. cbn.
    match goal with
    | |- context [dwellStep ?d ?b ?x] =>
        destruct (dwellStep_position d b x) as (_ & P2 & _ & P4)
    end.
    rewrite P2, P4.
    destruct (isUsingMouseRef w) eqn:Em; cbn;
      [intros _; now apply HS|intros X; congruence].
  - destruct (mouseListener w) eqn:El.
    + intros _ X. discriminate X.
    + intros Hm. destruct (HR Hm) as (_ & _ & Hl). congruence.
  - destruct (advance_position dwellTime ms w) as (_ & _ & A3 & A4).
    unfold syncRel. rewrite A4. intros Hm. apply HS, A3, Hm.
  - intros Hm _. cbn. now apply HR.
Qed.

Lemma pointRel_run (dwellTime : Z) (tr : list Input) (r : bool)
    (last : option Point) (w : World) :
  Consistent MouseVariant dwellTime w -> pointRel last w -> syncRel r last w ->
  pointRel (lastPointer tr last) (run MouseVariant dwellTime tr w) /\
  syncRel (renderedSinceMove tr r) (lastPointer tr last)
          (run MouseVariant dwellTime tr w).
Proof.
  revert r last w.
  induction tr as [|i tr IH]; intros r last w HI HR HS; [auto|].
  cbn [run]. rewrite lastPointer_cons, renderedSinceMove_cons.
  apply IH; [now apply step_inv|now apply pointRel_step|
             now apply syncRel_step].
Qed.

(** What the listener does with a sample, by the active source. *)
Lemma gazeListener_sample (dwellTime : Z) (doc : Document) (xy : Point)
    (w : World) :
  let w' := gazeListener MouseVariant dwellTime doc (Some xy) w in
  (isUsingMouseRef w = true ->
   w' = dwellStep dwellTime
          (resolveButton doc match latestGazePositionRef w with
                             | Some q => q
                             | None => xy
                             end) w /\
   gazePosition w' = gazePosition w) /\
  (isUsingMouseRef w = false ->
   w' = dwellStep dwellTime (resolveButton doc xy)
                  (set_gazePosition (Some xy) w) /\
   gazePosition w' = Some xy).
Proof.
  unfold gazeListener, currentPoint.
  split; intros Hm; rewrite Hm; cbn; (split; [reflexivity|]).
  - apply dwellStep_position.
  - match goal with
    | |- gazePosition (dwellStep ?d ?b ?x) = _ =>
        destruct (dwellStep_position d b x) as (P1 & _)
    end.
    rewrite P1. reflexivity.
Qed.

(** C7, amended: on every page [src/unnamed/part_002] can reach, while the
    pointer is the active source a gaze sample leaves the reported position
    at the point of the last pointer movement and takes the dwell step at
    the position kept in [latestGazePositionRef] (at the sample itself while
    that is null); once React has re-rendered the hook since the last
    pointer movement, that position is the pointer's point.  While gaze is
    the active source the sample becomes the reported position and the
    target is resolved at the sample. *)
Theorem C7_gaze_sample_by_source (dwellTime : Z) (tr : list Input)
    (doc : Document) (xy : Point) :
  let w := run MouseVariant dwellTime tr mounted in
  let w' := gazeListener MouseVariant dwellTime doc (Some xy) w in
  isUsingMouseRef w = isUsingMouse w /\
  (isUsingMouse w = true ->
   exists p, lastPointer tr None = Some p /\ gazePosition w = Some p /\
             gazePosition w' = Some p /\
             w' = dwellStep dwellTime
                    (resolveButton doc match latestGazePositionRef w with
                                       | Some q => q
                                       | None => xy
                                       end) w /\
             (renderedSinceMove tr false = true ->
              latestGazePositionRef w = Some p /\
              w' = dwellStep dwellTime (resolveButton doc p) w)) /\
  (isUsingMouse w = false ->
   w' = dwellStep dwellTime (resolveButton doc xy)
                  (set_gazePosition (Some xy) w) /\
   gazePosition w' = Some xy).
Proof.
  intros w w'.
  assert (HI : Consistent MouseVariant dwellTime w)
    by apply run_inv, mounted_inv.
  destruct (pointRel_run dwellTime tr false None mounted) as [HR HS].
  { apply mounted_inv. }
  { unfold pointRel. discriminate. }
  { unfold syncRel. discriminate. }
  fold w in HR, HS.
  pose proof (inv_mouse_state _ _ _ HI) as Hs.
  destruct (gazeListener_sample dwellTime doc xy w) as [G1 G2].
  fold w' in G1, G2.
  split; [symmetry; exact Hs|]. split; intros Hm; rewrite Hs in Hm.
  - destruct (HR Hm) as (Hp & (p & Hlast) & _).
    destruct (G1 Hm) as [Hw Hg].
    exists p. split; [exact Hlast|]. split; [congruence|].
    split; [congruence|]. split; [exact Hw|].
    intros Hr. pose proof (HS Hm Hr) as Hl.
    split; [congruence|]. rewrite Hw, Hl, Hlast. reflexivity.
  - exact (G2 Hm).
Qed.

(** C7, counterexample: a gaze sample far from the apple has been rendered,
    then the mouse moves onto the apple.  The next gaze sample arrives before
    React re-renders: the pointer is the active source and its last point is
    over the apple, yet the listener resolves the target at the old gaze
    position, finds nothing there and starts no dwell.  After the re-render
    the same sample starts the dwell on the apple. *)
Lemma C7_stale_point_counterexample :
  let w := run MouseVariant 2000 mouseBeforeRender mounted in
  let w' := gazeListener MouseVariant 2000 appleDoc (Some (mkPoint 400 400)) w in
  let v := run MouseVariant 2000 mouseRendered mounted in
  let v' := gazeListener MouseVariant 2000 appleDoc (Some (mkPoint 400 400)) v in
  isUsingMouse w = true /\
  lastPointer mouseBeforeRender None = Some (mkPoint 10 10) /\
  resolveId appleDoc (mkPoint 10 10) = Some "apple"%string /\
  currentPoint MouseVariant (mkPoint 400 400) w = mkPoint 700 700 /\
  w' <> dwellStep 2000 (resolveButton appleDoc (mkPoint 10 10)) w /\
  hoveredElement w' = None /\
  hoveredElement v' = Some "apple"%string.
Proof.
  vm_compute. repeat split; try reflexivity.
  intros E. discriminate E.
Qed.
(* ===================================================================== *)
(** ** C1: a completed dwell activates its target once *)
(* ===================================================================== *)

Lemma now_useEffect (variant : Variant) (b : bool) (w : World) :
  now (useEffect variant b w) = now w.
Proof.
  unfold useEffect. rewrite runCleanup_shape. destruct b.
  - unfold enabledBranch. destruct variant, (cleanup w); cbn;
      repeat match goal with
             | |- context [if ?c then _ else _] => destruct c
             end; reflexivity.
  - rewrite disabledBranch_shape.
    destruct variant, (cleanup w); reflexivity.
Qed.

Lemma now_step (variant : Variant) (dwellTime : Z) (i : Input) (w : World) :
  now (step variant dwellTime i w) = now w + Z.of_nat (duration [i]).
Proof.
  destruct i as [b| | | | |doc data|p|ms|]; cbn [step duration].
  - destruct (Bool.eqb b (enabled w)); [lia|].
    rewrite now_useEffect. cbn. lia.
  - destruct (pendingScripts w); cbn; lia.
  - cbn; lia.
  - destruct (pendingBegins w); cbn; lia.
  - cbn; lia.
  - destruct (gazeListenerSet w); [|lia].
    unfold gazeListener. destruct data as [xy|]; [|cbn; lia].
    cbn. unfold dwellStep.
    match goal with
    | |- context [resolveButton ?d ?c] => destruct (resolveButton d c) as [b|]
    end.
    + destruct (getAttribute b) as [T|];
        [|destruct variant; try destruct (negb (isUsingMouseRef w)); cbn; lia].
      destruct (_ && _);
        [|destruct variant; try destruct (negb (isUsingMouseRef w)); cbn; lia].
      rewrite startDwell_shape.
      destruct variant; try destruct (negb (isUsingMouseRef w)); cbn; lia.
    + rewrite stopDwell_shape.
      destruct variant; try destruct (negb (isUsingMouseRef w)); cbn;
        match goal with
        | |- context [match ?c with Some _ => _ | None => _ end] => destruct c
        end; cbn; lia.
  - destruct (mouseListener w); [|lia].
    rewrite handleMouseMove_shape. cbn. lia.
  - rewrite now_advance. lia.
  - cbn. lia.
Qed.

Lemma runTimer_dwelling (variant : Variant) (dwellTime : Z) (T : string)
    (b : Element) (t0 : Timer) (calls : list DomCall) (w : World) (id : nat) :
  action t0 = DwellComplete T b ->
  Consistent variant dwellTime w -> Dwelling T t0 calls w -> id <> tid t0 ->
  Dwelling T t0 calls (runTimer dwellTime w id).
Proof.
  intros Ha HI (Hin & Hc & Hh & Hd) Hne.
  split; [apply (runTimer_keeps variant); auto; rewrite Ha; discriminate|].
  unfold runTimer.
  destruct (find (hasId id) (timers w)) as [t|] eqn:E; [|auto].
  apply find_hasId_In in E as [Ht Htid].
  destruct (timer_facts _ _ w t HI Ht) as (_ & D1 & _).
  destruct (timer_facts _ _ w t0 HI Hin) as (_ & D0 & _).
  unfold fire. destruct (action t) eqn:Eat; cbn; auto.
  exfalso. apply Hne. rewrite Ha in D0. cbn in D0, D1.
  pose proof (proj1 D0 eq_refl). pose proof (proj1 D1 eq_refl). congruence.
Qed.

(** Until its deadline the dwell goes on; at the deadline the button is
    clicked and the page is idle. *)
Lemma advance_dwelling (variant : Variant) (dwellTime : Z) (T : string)
    (b : Element) (t0 : Timer) (calls : list DomCall) (ms : nat) (w : World) :
  action t0 = DwellComplete T b ->
  Consistent variant dwellTime w -> Dwelling T t0 calls w -> now w < deadline t0 ->
  (now w + Z.of_nat ms < deadline t0 ->
   Dwelling T t0 calls (advance dwellTime ms w)) /\
  (deadline t0 <= now w + Z.of_nat ms ->
   NoDwell (advance dwellTime ms w) /\
   domCalls (advance dwellTime ms w) = calls ++ clickCalls b).
Proof.
  intros Ha HI HD Hlt.
  destruct (advance_fires variant dwellTime t0
              (Dwelling T t0 calls)
              (fun x => NoDwell x /\ domCalls x = calls ++ clickCalls b))
    with (ms := ms) (w := w) as [A1 A2]; auto.
  - intros x id _ [Hq Hd].
    destruct (quiet_runTimer dwellTime x id Hq) as [Hq' Hd'].
    split; [exact Hq'|congruence].
  - intros x id Hx Hin Hx' Hne.
    pose proof (runTimer_dwelling variant dwellTime T b t0 calls x id
                  Ha Hx Hx' Hne) as HD'.
    split; [apply HD'|exact HD'].
  - intros x Hx Hin (_ & _ & _ & Hd).
    destruct (dwell_fire_idle variant dwellTime x t0 T b Hx Hin Ha)
      as [Hq Hd'].
    split; [exact Hq|congruence].
  - apply HD.
  - split; [|exact A2]. intros H. now apply A1.
Qed.

Lemma resolveId_button (doc : Document) (p : Point) (T : string) :
  resolveId doc p = Some T ->
  exists b, resolveButton doc p = Some b /\ getAttribute b = Some T.
Proof.
  unfold resolveId. destruct (resolveButton doc p) as [b|]; [|discriminate].
  intros H. eauto.
Qed.

Lemma step_dwelling (variant : Variant) (dwellTime : Z) (T : string)
    (b : Element) (t0 : Timer) (calls : list DomCall) (i : Input) (w : World) :
  action t0 = DwellComplete T b ->
  Consistent variant dwellTime w -> Dwelling T t0 calls w ->
  staysOn variant dwellTime T [i] w ->
  now w + Z.of_nat (duration [i]) < deadline t0 ->
  Dwelling T t0 calls (step variant dwellTime i w).
Proof.
  intros Ha HI HD Hs Hlt. pose proof HD as (Hin & Hc & Hh & Hd).
  destruct (timer_facts _ _ w t0 HI Hin) as (_ & _ & _ & M0 & F0 & _).
  destruct (F0 T b Ha) as (_ & _ & HT & _).
  rewrite Ha in M0. cbn in M0.
  destruct i as [e| | | | |doc data|p|ms|]; cbn [step].
  - destruct Hs as [[] _].
  - destruct (pendingScripts w); cbn; exact HD.
  - exact HD.
  - destruct (pendingBegins w); [exact HD|].
    unfold Dwelling. cbn. repeat split; auto. apply in_or_app. auto.
  - exact HD.
  - destruct (gazeListenerSet w); [|exact HD].
    destruct data as [xy|]; [|exact HD].
    destruct Hs as [Hs _]. apply resolveId_button in Hs as (b' & Hb & Hb').
    unfold gazeListener. rewrite Hb. unfold dwellStep. rewrite Hb'.
    assert (E : differs T
                  (currentHoveredRef
                     match variant with
                     | PauseVariant => set_gazePosition (Some xy) w
                     | MouseVariant =>
                         if negb (isUsingMouseRef w)
                         then set_gazePosition (Some xy) w else w
                     end) = false).
    { destruct variant; [|destruct (negb (isUsingMouseRef w))]; cbn; rewrite Hc; cbn;
        now rewrite String.eqb_refl. }
    rewrite E, andb_false_r.
    destruct variant; [|destruct (negb (isUsingMouseRef w))]; exact HD.
  - destruct (mouseListener w); [|exact HD].
    rewrite handleMouseMove_shape. unfold Dwelling. cbn. repeat split; auto.
    apply in_or_app. left. apply In_cancel. split; [exact Hin|].
    intros X. apply M0 in X. discriminate.
  - cbn [duration] in Hlt.
    destruct (advance_dwelling variant dwellTime T b t0 calls ms w
                Ha HI HD) as [A1 _]; [lia|]. apply A1. lia.
  - exact HD.
Qed.

Lemma staysOn_cons (variant : Variant) (dwellTime : Z) (T : string)
    (i : Input) (tr : list Input) (w : World) :
  staysOn variant dwellTime T (i :: tr) w ->
  staysOn variant dwellTime T [i] w /\
  staysOn variant dwellTime T tr (step variant dwellTime i w).
Proof. cbn. tauto. Qed.

Lemma duration_cons (i : Input) (tr : list Input) :
  duration (i :: tr) = (duration [i] + duration tr)%nat.
Proof. destruct i; cbn; lia. Qed.

Lemma run_dwelling (variant : Variant) (dwellTime : Z) (T : string)
    (b : Element) (t0 : Timer) (calls : list DomCall) (tr : list Input)
    (w : World) :
  action t0 = DwellComplete T b ->
  Consistent variant dwellTime w -> Dwelling T t0 calls w ->
  staysOn variant dwellTime T tr w ->
  now w + Z.of_nat (duration tr) < deadline t0 ->
  Dwelling T t0 calls (run variant dwellTime tr w) /\
  now (run variant dwellTime tr w) = now w + Z.of_nat (duration tr).
Proof.
  intros Ha. revert w. induction tr as [|i tr IH]; intros w HI HD Hs Hlt.
  - cbn. split; [exact HD|lia].
  - apply staysOn_cons in Hs as [Hs1 Hs2]. rewrite duration_cons in *.
    cbn [run].
    destruct (IH (step variant dwellTime i w)) as [I1 I2]; auto.
    + now apply step_inv.
    + apply (step_dwelling variant dwellTime T b); auto. lia.
    + rewrite now_step. lia.
    + split; [exact I1|]. rewrite I2, now_step. lia.
Qed.

(** C1, amended: let [dwellTime] be a delay that [setTimeout] waits for as it
    is (at most 2147483647 ms), and let a gaze sample resolve to a button [b]
    whose id [T] is not empty and is not the hovered id.  The dwell on [T]
    starts at 0.  If from then on no prop change occurs and every sample
    resolves to a button with id [T], then for the whole of [dwellTime] ms
    [T] stays hovered and no click is made, and at [dwellTime] ms exactly one
    click event is delivered, to [b]; right after it no target is hovered,
    the percentage is 0 and no dwell timer or progress interval is pending,
    so that this dwell cannot fire again. *)
Theorem C1_dwell_activates_once (variant : Variant) (dwellTime : Z)
    (w : World) (doc : Document) (xy : Point) (b : Element) (T : string)
    (tr : list Input) (n : nat) :
  dwellTime <= 2147483647 ->
  reachable variant dwellTime w -> gazeListenerSet w = true ->
  resolveButton doc (currentPoint variant xy w) = Some b ->
  getAttribute b = Some T -> T <> ""%string ->
  currentHoveredRef w <> Some T ->
  let w0 := step variant dwellTime (Gaze doc (Some xy)) w in
  staysOn variant dwellTime T tr w0 ->
  (0 < n)%nat -> Z.of_nat (duration tr + n) = dwellTime ->
  let w1 := run variant dwellTime tr w0 in
  let w2 := step variant dwellTime (Wait n) w1 in
  hoveredElement w0 = Some T /\ dwellProgress w0 = 0%Q /\
  activations w1 = activations w /\ hoveredElement w1 = Some T /\
  activations w2 = activations w ++ [b] /\
  hoveredElement w2 = None /\ dwellProgress w2 = 0%Q /\ dwellTimers w2 = [].
Proof.
  intros Hmax Hr Hg Hb HbT HT Hcur w0 Hs Hn Hdur w1 w2.
  assert (Hdelay : timeoutDelay dwellTime = dwellTime)
    by (apply timeoutDelay_id; lia).
  assert (HI0 : Consistent variant dwellTime w0)
    by (apply step_inv, reachable_inv, Hr).
  set (t0 := mkTimer (S (nextTimerId w)) (now w + timeoutDelay dwellTime)
                     (DwellComplete T b)).
  assert (Hd : differs T (currentHoveredRef w) = true).
  { unfold differs. destruct (currentHoveredRef w) as [c|]; [|reflexivity].
    apply negb_true_iff, String.eqb_neq. congruence. }
  assert (HTb : negb (T =? "")%string = true)
    by now apply negb_true_iff, String.eqb_neq.
  assert (E0 : Dwelling T t0 (domCalls w) w0 /\ now w0 = now w /\
               dwellProgress w0 = 0%Q).
  { unfold w0. cbn [step]. rewrite Hg. unfold gazeListener.
    rewrite Hb. unfold dwellStep. rewrite HbT, HTb.
    assert (E : differs T
                  (currentHoveredRef
                     match variant with
                     | PauseVariant => set_gazePosition (Some xy) w
                     | MouseVariant =>
                         if negb (isUsingMouseRef w)
                         then set_gazePosition (Some xy) w else w
                     end) = true).
    { destruct variant; [|destruct (negb (isUsingMouseRef w))]; exact Hd. }
    rewrite E. cbn [andb]. rewrite startDwell_shape. unfold Dwelling.
    destruct variant; [|destruct (negb (isUsingMouseRef w))]; cbn; repeat split;
      apply in_or_app; right; left; reflexivity. }
  destruct E0 as (HD0 & Hnow0 & Hp0). clearbody w0.
  assert (Hdl : deadline t0 = now w0 + Z.of_nat (duration tr) + Z.of_nat n).
  { cbn [t0 deadline]. rewrite Hdelay. lia. }
  destruct (run_dwelling variant dwellTime T b t0 (domCalls w) tr w0
              eq_refl HI0 HD0 Hs) as [HD1 Hnow1]; [lia|].
  fold w1 in HD1, Hnow1.
  assert (HI1 : Consistent variant dwellTime w1) by now apply run_inv.
  clearbody w1.
  destruct (advance_dwelling variant dwellTime T b t0 (domCalls w) n w1
              eq_refl HI1 HD1) as [_ A2]; [lia|].
  destruct A2 as [Hq Hc2]; [lia|].
  change (advance dwellTime n w1) with w2 in Hq, Hc2.
  destruct HD0 as (_ & _ & Hh0 & _). destruct HD1 as (_ & _ & Hh1 & Hc1).
  unfold activations.
  split; [exact Hh0|]. split; [exact Hp0|].
  split; [now rewrite Hc1|]. split; [exact Hh1|].
  split; [rewrite Hc2, clickEvents_app, clickEvents_clickCalls; reflexivity|].
  split; [apply Hq|]. split; [apply Hq|]. now apply NoDwell_dwellTimers.
Qed.

(** C1, counterexample: for four seconds every sample resolves to the same
    button, whose id is the empty string; the listener never starts a dwell
    on it, nothing is hovered and no click is made. *)
Lemma C1_empty_id_counterexample :
  resolveId emptyDoc (mkPoint 10 10) = Some ""%string /\
  let w := run PauseVariant 2000 dwellOnEmpty mounted in
  activations w = [] /\ hoveredElement w = None.
Proof. vm_compute. repeat split; reflexivity. Qed.
(* ===================================================================== *)
(** ** No click before a full dwell time has passed *)
(* ===================================================================== *)

(** A timer other than a dwell timer runs: no call is made on a button, and
    the dwell timers are the ones there were. *)
Lemma fire_other (variant : Variant) (dwellTime : Z) (w : World) (t : Timer) :
  Consistent variant dwellTime w -> In t (timers w) ->
  kind (action t) <> KDwell ->
  domCalls (fire dwellTime t w) = domCalls w /\
  forall t', In t' (timers (fire dwellTime t w)) ->
             kind (action t') = KDwell -> In t' (timers w).
Proof.
  intros HI Hin Hk. unfold fire.
  destruct (action t) eqn:Ha; cbn in Hk; try congruence; cbn;
    (split; [reflexivity|]); intros t' Hin' Hk'.
  - apply In_rearm in Hin' as (t0 & Hin0 & Eid & Eact & [Ed|[Et Ed]]).
    + assert (t' = t0) by (destruct t', t0; cbn in *; congruence).
      congruence.
    + exfalso.
      assert (t0 = t).
      { apply (NoDup_tid_inj (timers w)); auto. apply (inv_nodup _ _ _ HI). }
      subst t0. rewrite Eact, Ha in Hk'. discriminate.
  - apply In_cleared in Hin'. apply Hin'.
  - apply In_cleared in Hin'. apply Hin'.
Qed.

Lemma fold_guarded (variant : Variant) (dwellTime : Z) (D : Z)
    (ids : list nat) (w : World) :
  Consistent variant dwellTime w -> Guarded dwellTime D w ->
  (forall t, In t (timers w) -> In (tid t) ids ->
             kind (action t) <> KDwell) ->
  domCalls (fold_left (runTimer dwellTime) ids w) = domCalls w /\
  Guarded dwellTime D (fold_left (runTimer dwellTime) ids w).
Proof.
  revert w. induction ids as [|id ids IH]; cbn [fold_left];
    intros w HI HG Hids; [auto|].
  assert (S : domCalls (runTimer dwellTime w id) = domCalls w /\
              now (runTimer dwellTime w id) = now w /\
              forall t', In t' (timers (runTimer dwellTime w id)) ->
                         kind (action t') = KDwell -> In t' (timers w)).
  { rewrite now_runTimer. unfold runTimer.
    destruct (find (hasId id) (timers w)) as [t|] eqn:E; [|auto].
    apply find_hasId_In in E as [Hin Hid].
    destruct (fire_other variant dwellTime w t HI Hin) as [F1 F2].
    - apply Hids; [exact Hin|]. left. auto.
    - auto. }
  destruct S as (S1 & S2 & S3).
  destruct (IH (runTimer dwellTime w id)) as [I1 I2].
  - now apply runTimer_inv.
  - destruct HG as [G1 G2]. split; [rewrite S2; exact G1|].
    intros t Hin Hk. apply G2; auto.
  - intros t Hin Hi Hk. apply (Hids t); auto. right. exact Hi.
  - split; [congruence|exact I2].
Qed.

Lemma tick_guarded (variant : Variant) (dwellTime : Z) (D : Z) (w : World) :
  Consistent variant dwellTime w -> Guarded dwellTime D w -> now w + 1 < D ->
  domCalls (tick dwellTime w) = domCalls w /\
  Guarded dwellTime D (tick dwellTime w).
Proof.
  intros HI [G1 G2] Hlt. unfold tick.
  apply (fold_guarded variant dwellTime D _ (set_now (now w + 1) w)).
  - now apply set_now_consistent.
  - split; [cbn; lia|exact G2].
  - cbn. intros t Hin Hi Hk.
    apply in_map_iff in Hi as (t' & Hid & Hf).
    apply filter_In in Hf as [Hin' Hdue].
    assert (t' = t).
    { apply (NoDup_tid_inj (timers w)); auto.
      apply (inv_nodup _ _ _ HI). }
    subst t'. unfold isDue in Hdue. apply Z.leb_le in Hdue.
    specialize (G2 t Hin Hk). lia.
Qed.

Lemma advance_guarded (variant : Variant) (dwellTime : Z) (D : Z) (ms : nat)
    (w : World) :
  Consistent variant dwellTime w -> Guarded dwellTime D w ->
  now w + Z.of_nat ms < D ->
  domCalls (advance dwellTime ms w) = domCalls w /\
  Guarded dwellTime D (advance dwellTime ms w).
Proof.
  revert w. induction ms as [|n IH]; intros w HI HG Hlt; [cbn; auto|].
  cbn [advance].
  destruct (tick_guarded variant dwellTime D w HI HG) as [T1 T2]; [lia|].
  destruct (IH (tick dwellTime w)) as [I1 I2]; auto.
  - now apply tick_inv.
  - rewrite now_tick. lia.
  - split; [congruence|exact I2].
Qed.

Lemma dwellStep_guarded (dwellTime : Z) (D : Z) (button : option Element)
    (w : World) :
  Guarded dwellTime D w ->
  domCalls (dwellStep dwellTime button w) = domCalls w /\
  Guarded dwellTime D (dwellStep dwellTime button w).
Proof.
  intros [G1 G2]. unfold dwellStep, Guarded. destruct button as [b|].
  - destruct (getAttribute b) as [T|]; [|auto].
    destruct (_ && _); [|auto].
    rewrite startDwell_shape. cbn. repeat split; auto.
    intros t Hin Hk. break_in; cbn in *; auto; discriminate.
  - rewrite stopDwell_shape. destruct (currentHoveredRef w); cbn; auto.
    repeat split; auto. intros t Hin Hk. break_in. auto.
Qed.

Lemma useEffect_guarded (variant : Variant) (dwellTime : Z) (D : Z)
    (b : bool) (w : World) :
  Guarded dwellTime D w ->
  domCalls (useEffect variant b w) = domCalls w /\
  Guarded dwellTime D (useEffect variant b w).
Proof.
  intros [G1 G2].
  unfold useEffect, Guarded. rewrite runCleanup_shape. destruct b.
  - unfold enabledBranch.
    destruct variant, (cleanup w); cbn;
      repeat match goal with
             | |- context [if ?c then _ else _] => destruct c
             end; cbn; repeat split; auto; intros; break_in; auto.
  - rewrite disabledBranch_shape.
    destruct variant, (cleanup w); cbn; repeat split; auto;
      intros; break_in; auto.
Qed.

Lemma step_guarded (variant : Variant) (dwellTime : Z) (D : Z) (i : Input)
    (w : World) :
  Consistent variant dwellTime w -> Guarded dwellTime D w ->
  now w + Z.of_nat (duration [i]) < D ->
  domCalls (step variant dwellTime i w) = domCalls w /\
  Guarded dwellTime D (step variant dwellTime i w).
Proof.
  intros HI HG Hlt. pose proof HG as [G1 G2].
  destruct i as [b| | | | |doc data|p|ms|]; cbn [step].
  - destruct (Bool.eqb b (enabled w)); [auto|].
    exact (useEffect_guarded variant dwellTime D b (commit w) HG).
  - destruct (pendingScripts w); cbn; auto.
  - cbn. auto.
  - destruct (pendingBegins w); [auto|]. unfold Guarded. cbn.
    repeat split; auto. intros t Hin Hk. break_in; auto. discriminate.
  - cbn. auto.
  - destruct (gazeListenerSet w); [|auto].
    unfold gazeListener. destruct data as [xy|]; [|auto].
    match goal with
    | |- context [dwellStep ?d ?b ?x] =>
        destruct (dwellStep_guarded d D b x) as [S1 S2]
    end.
    { destruct variant; [|destruct (negb (isUsingMouseRef w))]; exact HG. }
    split; [|exact S2]. cbn. rewrite S1.
    destruct variant; [|destruct (negb (isUsingMouseRef w))]; reflexivity.
  - destruct (mouseListener w); [|auto].
    rewrite handleMouseMove_shape. unfold Guarded. cbn.
    repeat split; auto. intros t Hin Hk. break_in; auto. discriminate.
  - cbn [duration] in Hlt.
    apply (advance_guarded variant); auto. lia.
  - cbn. auto.
Qed.

Lemma run_guarded (variant : Variant) (dwellTime : Z) (D : Z)
    (tr : list Input) (w : World) :
  Consistent variant dwellTime w -> Guarded dwellTime D w ->
  now w + Z.of_nat (duration tr) < D ->
  domCalls (run variant dwellTime tr w) = domCalls w.
Proof.
  revert w. induction tr as [|i tr IH]; intros w HI HG Hlt; [reflexivity|].
  rewrite duration_cons in Hlt. cbn [run].
  destruct (step_guarded variant dwellTime D i w HI HG) as [S1 S2]; [lia|].
  rewrite IH; auto.
  - now apply step_inv.
  - rewrite now_step. lia.
Qed.
(* ===================================================================== *)
(** ** C3: disabling cancels the dwell *)
(* ===================================================================== *)

(** C3, amended: when [enabled] flips to false, whatever dwell was in
    progress, the hovered target is null and the percentage 0 at once; the
    dwell timer, the progress interval and the inactivity timer have left the
    timer table (only the 1 s timers of completed acquisitions may remain).
    From then on no click is made for as long as no new gaze sample reaches
    the listener; and whatever arrives, gaze samples included, no click is
    made before a full [dwellTime] (a delay [setTimeout] waits for as it is)
    has passed again, so none at the deadline of the dwell that was
    cancelled. *)
Theorem C3_disable_cancels_dwell (variant : Variant) (dwellTime : Z)
    (w : World) (tr tr' : list Input) :
  dwellTime <= 2147483647 ->
  reachable variant dwellTime w -> enabled w = true ->
  noGaze tr -> Z.of_nat (duration tr') < dwellTime ->
  let w' := step variant dwellTime (SetEnabled false) w in
  hoveredElement w' = None /\ dwellProgress w' = 0%Q /\
  (forall t, In t (timers w') -> action t = InitDone) /\
  activations w' = activations w /\
  (let w'' := run variant dwellTime tr w' in
   activations w'' = activations w /\
   hoveredElement w'' = None /\ dwellProgress w'' = 0%Q) /\
  activations (run variant dwellTime tr' w') = activations w.
Proof.
  intros Hmax Hr He Hg Hshort w'. apply reachable_inv in Hr.
  assert (Hdelay : timeoutDelay dwellTime = dwellTime)
    by (apply timeoutDelay_id; lia).
  assert (HI' : Consistent variant dwellTime w') by now apply step_inv.
  destruct (disable_clears variant dwellTime w Hr He)
    as (Hq & Hd & Ht & _ & _). fold w' in Hq, Hd, Ht.
  destruct (quiet_run variant dwellTime tr w' Hq Hg) as [Hq' Hd'].
  assert (HG : Guarded dwellTime (now w' + dwellTime) w').
  { split; [lia|]. intros t Hin Hk. destruct Hq as (_ & _ & _ & Hq).
    destruct (Hq t Hin). contradiction. }
  pose proof (run_guarded variant dwellTime _ tr' w' HI' HG) as Hd''.
  destruct Hq as (_ & Hh & Hp & _). destruct Hq' as (_ & Hh' & Hp' & _).
  unfold activations. repeat split; auto; try congruence.
  rewrite Hd''; [congruence|lia].
Qed.

(** C3, counterexample: the hook is disabled 1200 ms into a dwell on the
    apple.  The disable does not remove the gaze listener, and the listener
    does not look at [enabled]: the next sample on the apple starts a new
    dwell, and two seconds later the apple is clicked although the hook is
    still disabled.  So it is in both files. *)
Lemma C3_gaze_after_disable_counterexample :
  let w := run PauseVariant 2000 midDwell mounted in
  let w' := run PauseVariant 2000 sampleAfterDisable w in
  let v := run MouseVariant 2000 midDwell mounted in
  let v' := run MouseVariant 2000 sampleAfterDisable v in
  (hoveredElement w, activations w) = (Some "apple"%string, []) /\
  (enabled w', activations w') = (false, [appleButton]) /\
  (hoveredElement v, activations v) = (Some "apple"%string, []) /\
  (enabled v', activations v') = (false, [appleButton]).
Proof. vm_compute. repeat split; reflexivity. Qed.
(* ===================================================================== *)
(** ** What is in progress has its timers *)
(* ===================================================================== *)

Lemma fire_armed (variant : Variant) (dwellTime : Z) (w : World) (t : Timer) :
  Consistent variant dwellTime w -> In t (timers w) -> Armed w ->
  Armed (fire dwellTime t w).
Proof.
  intros HI Hin (A1 & A2 & A3). unfold fire.
  destruct (action t) as [T b| | |] eqn:Ha.
  - rewrite dwellCallback_shape. split; [cbn; discriminate|]. split.
    + intros Hm. cbn in Hm. destruct (A2 Hm) as (m & Hm1 & Hm2).
      exists m. split; [|exact Hm2]. cbn.
      apply In_cancel. split.
      * apply In_cleared. split; [exact Hm1|]. intros E.
        assert (m = t).
        { apply (NoDup_tid_inj (timers w)); auto. apply (inv_nodup _ _ _ HI). }
        subst m. congruence.
      * intros E. apply (inv_progress_own _ _ _ HI m Hm1) in E.
        rewrite Hm2 in E. discriminate.
    + intros m Hm Ham. cbn in Hm |- *. break_in. eauto.
  - split; [|split].
    + intros T HT. cbn in HT. destruct (A1 T HT) as (iv & tm & b & I1 & I2 & I3 & I4).
      assert (R : forall x, In x (timers w) ->
                 exists x', In x' (rearm (tid t) (now w + 50) (timers w)) /\
                            action x' = action x).
      { intros x Hx. unfold rearm.
        exists (if hasId (tid t) x then mkTimer (tid x) (now w + 50) (action x)
                else x).
        split; [apply in_map_iff; exists x; auto|].
        now destruct (hasId (tid t) x). }
      destruct (R iv I1) as (iv' & J1 & J2). destruct (R tm I3) as (tm' & J3 & J4).
      exists iv', tm', b. cbn. repeat split; auto; congruence.
    + intros Hm. cbn in Hm. destruct (A2 Hm) as (m & Hm1 & Hm2). cbn.
      exists (if hasId (tid t) m then mkTimer (tid m) (now w + 50) (action m)
              else m).
      split; [apply in_map_iff; exists m; auto|].
      now destruct (hasId (tid t) m).
    + intros m Hm Ham. cbn in Hm |- *.
      apply In_rearm in Hm as (m0 & M1 & _ & M3 & _).
      apply (A3 m0 M1). congruence.
  - split; [|split].
    + intros T HT. cbn in HT. destruct (A1 T HT) as (iv & tm & b & I1 & I2 & I3 & I4).
      exists iv, tm, b. cbn.
      repeat split; auto; apply In_cleared; split; auto; intros E;
        [assert (iv = t)|assert (tm = t)];
        try (apply (NoDup_tid_inj (timers w)); auto; apply (inv_nodup _ _ _ HI));
        subst; congruence.
    + cbn. discriminate.
    + intros m Hm Ham. cbn in Hm. exfalso. break_in.
      assert (E1 : mouseInactivityTimerRef w = Some (tid m))
        by (apply (inv_mouse_own _ _ _ HI m H); now rewrite Ham).
      assert (E2 : mouseInactivityTimerRef w = Some (tid t))
        by (apply (inv_mouse_own _ _ _ HI t Hin); now rewrite Ha).
      congruence.
  - assert (K : forall x, In x (timers w) -> action x <> InitDone ->
                 In x (filter (fun t0 => negb (hasId (tid t) t0)) (timers w))).
    { intros x Hx Hn. apply In_cleared. split; [exact Hx|]. intros E.
      assert (x = t).
      { apply (NoDup_tid_inj (timers w)); auto. apply (inv_nodup _ _ _ HI). }
      subst. congruence. }
    split; [|split].
    + intros T HT. cbn in HT. destruct (A1 T HT) as (iv & tm & b & I1 & I2 & I3 & I4).
      exists iv, tm, b. cbn. repeat split; auto; apply K; auto; congruence.
    + intros Hm. cbn in Hm. destruct (A2 Hm) as (m & Hm1 & Hm2).
      exists m. cbn. split; [apply K; auto; congruence|exact Hm2].
    + intros m Hm Ham. cbn in Hm |- *. break_in. eauto.
Qed.

Lemma startDwell_armed (variant : Variant) (dwellTime : Z) (w : World)
    (T : string) (b : Element) :
  Consistent variant dwellTime w -> Armed w ->
  Armed (startDwell dwellTime T b w).
Proof.
  intros HI (A1 & A2 & A3). rewrite startDwell_shape. split; [|split].
  - intros T' HT. cbn in HT. injection HT as <-.
    exists (mkTimer (nextTimerId w) (now w + timeoutDelay 50) ProgressTick),
           (mkTimer (S (nextTimerId w)) (now w + timeoutDelay dwellTime)
                    (DwellComplete T b)), b.
    cbn. rewrite !in_app_iff. cbn. tauto.
  - intros Hm. cbn in Hm. destruct (A2 Hm) as (m & Hm1 & Hm2).
    exists m. split; [|exact Hm2]. cbn. rewrite !in_app_iff. left. left.
    apply In_cancel. split; [apply In_cancel; split; [exact Hm1|]|]; intros E.
    + apply (inv_dwell_own _ _ _ HI m Hm1) in E. rewrite Hm2 in E. discriminate.
    + apply (inv_progress_own _ _ _ HI m Hm1) in E. rewrite Hm2 in E.
      discriminate.
  - intros m Hm Ham. cbn in Hm |- *. break_in; cbn in *; try discriminate.
    eauto.
Qed.

Lemma stopDwell_armed (variant : Variant) (dwellTime : Z) (w : World) :
  Consistent variant dwellTime w -> Armed w -> Armed (stopDwell w).
Proof.
  intros HI HA. rewrite stopDwell_shape.
  destruct (currentHoveredRef w) as [c|] eqn:Ec; [|exact HA].
  destruct HA as (A1 & A2 & A3).
  split; [cbn; discriminate|]. split.
  - intros Hm. cbn in Hm. destruct (A2 Hm) as (m & Hm1 & Hm2).
    exists m. split; [|exact Hm2]. cbn.
    apply In_cancel. split; [apply In_cancel; split; [exact Hm1|]|]; intros E.
    + apply (inv_dwell_own _ _ _ HI m Hm1) in E. rewrite Hm2 in E. discriminate.
    + apply (inv_progress_own _ _ _ HI m Hm1) in E. rewrite Hm2 in E.
      discriminate.
  - intros m Hm Ham. cbn in Hm |- *. break_in. eauto.
Qed.

Lemma dwellStep_armed (variant : Variant) (dwellTime : Z)
    (button : option Element) (w : World) :
  Consistent variant dwellTime w -> Armed w ->
  Armed (dwellStep dwellTime button w).
Proof.
  intros HI HA. unfold dwellStep. destruct button as [b|].
  - destruct (getAttribute b) as [T|]; [|exact HA].
    destruct (_ && _); [|exact HA]. now apply (startDwell_armed variant).
  - now apply (stopDwell_armed variant dwellTime).
Qed.

Lemma gazeListener_armed (variant : Variant) (dwellTime : Z) (doc : Document)
    (data : option Point) (w : World) :
  Consistent variant dwellTime w -> Armed w ->
  Armed (gazeListener variant dwellTime doc data w).
Proof.
  intros HI HA. unfold gazeListener. destruct data as [xy|]; [|exact HA].
  apply (dwellStep_armed variant).
  - destruct variant; [|destruct (negb (isUsingMouseRef w))];
      try apply set_gazePosition_consistent; exact HI.
  - destruct variant; [|destruct (negb (isUsingMouseRef w))]; exact HA.
Qed.

Lemma handleMouseMove_armed (variant : Variant) (dwellTime : Z) (e : Point)
    (w : World) :
  Consistent variant dwellTime w -> Armed w -> Armed (handleMouseMove e w).
Proof.
  intros HI (A1 & A2 & A3). rewrite handleMouseMove_shape. split; [|split].
  - intros T HT. cbn in HT.
    destruct (A1 T HT) as (iv & tm & b & I1 & I2 & I3 & I4).
    exists iv, tm, b. cbn. rewrite !in_app_iff.
    repeat split; auto; left; apply In_cancel; split; auto; intros E.
    + apply (inv_mouse_own _ _ _ HI iv I1) in E. rewrite I2 in E. discriminate.
    + apply (inv_mouse_own _ _ _ HI tm I3) in E. rewrite I4 in E. discriminate.
  - intros _. cbn.
    exists (mkTimer (nextTimerId w) (now w + timeoutDelay 5000) MouseInactive).
    rewrite in_app_iff. cbn. auto.
  - reflexivity.
Qed.

Lemma useEffect_armed (variant : Variant) (dwellTime : Z) (b : bool)
    (w : World) :
  Consistent variant dwellTime w -> b <> enabled w -> Armed w ->
  Armed (useEffect variant b w).
Proof.
  intros HI Hb (A1 & A2 & A3). unfold useEffect. rewrite runCleanup_shape.
  destruct b.
  - assert (Hc : cleanup w = NoCleanup).
    { apply (inv_cleanup_off _ _ _ HI). destruct (enabled w); congruence. }
    rewrite Hc. unfold enabledBranch.
    destruct variant; cbn;
      repeat match goal with
             | |- context [if ?c then _ else _] => destruct c
             end; cbn; repeat split; auto.
  - rewrite disabledBranch_shape.
    destruct variant, (cleanup w); cbn; (split; [cbn; discriminate|]); split;
      cbn; intros; try discriminate; break_in;
      try (destruct (inv_pause _ _ _ HI eq_refl) as (P1 & P2 & P3));
      try solve [ eauto | congruence ].
    all: exfalso;
      match goal with
      | Hin : In ?t (timers _), Ha : action ?t = MouseInactive |- _ =>
          pose proof (proj1 (inv_mouse_own _ _ _ HI t Hin)) as E;
          rewrite Ha in E; specialize (E eq_refl); congruence
      end.
Qed.
Lemma runTimer_armed (variant : Variant) (dwellTime : Z) (w : World) (id : nat) :
  Consistent variant dwellTime w -> Armed w -> Armed (runTimer dwellTime w id).
Proof.
  intros HI HA. unfold runTimer.
  destruct (find (hasId id) (timers w)) as [t|] eqn:E; [|exact HA].
  apply find_hasId_In in E as [Hin _].
  exact (fire_armed variant dwellTime w t HI Hin HA).
Qed.

Lemma fold_armed (variant : Variant) (dwellTime : Z) (ids : list nat)
    (w : World) :
  Consistent variant dwellTime w -> Armed w ->
  Armed (fold_left (runTimer dwellTime) ids w).
Proof.
  revert w. induction ids as [|id ids IH]; cbn [fold_left]; intros w HI HA;
    [exact HA|].
  apply IH; [now apply runTimer_inv|now apply (runTimer_armed variant)].
Qed.

Lemma advance_armed (variant : Variant) (dwellTime : Z) (ms : nat) (w : World) :
  Consistent variant dwellTime w -> Armed w -> Armed (advance dwellTime ms w).
Proof.
  revert w. induction ms as [|n IH]; cbn [advance]; intros w HI HA;
    [exact HA|].
  apply IH; [now apply tick_inv|].
  unfold tick. apply (fold_armed variant); [now apply set_now_consistent|exact HA].
Qed.

Lemma step_armed (variant : Variant) (dwellTime : Z) (i : Input) (w : World) :
  Consistent variant dwellTime w -> Armed w -> Armed (step variant dwellTime i w).
Proof.
  intros HI HA. pose proof HI as HC.
  destruct i as [b| | | | |doc data|p|ms|]; cbn [step].
  - destruct (Bool.eqb b (enabled w)) eqn:E; [exact HA|].
    apply (useEffect_armed variant dwellTime);
      [now apply commit_consistent| |exact HA].
    intros ->. cbn in E. now rewrite Bool.eqb_reflx in E.
  - destruct (pendingScripts w); exact HA.
  - exact HA.
  - destruct (pendingBegins w); [exact HA|].
    destruct HA as (A1 & A2 & A3). split; [|split]; cbn.
    + intros T HT. destruct (A1 T HT) as (iv & tm & b & I1 & I2 & I3 & I4).
      exists iv, tm, b. rewrite !in_app_iff. tauto.
    + intros Hm. destruct (A2 Hm) as (m & M1 & M2). exists m.
      rewrite in_app_iff. tauto.
    + intros m Hm Ham. break_in; [eauto|discriminate].
  - exact HA.
  - destruct (gazeListenerSet w); [|exact HA].
    exact (gazeListener_armed variant dwellTime doc data w HC HA).
  - destruct (mouseListener w); [|exact HA].
    exact (handleMouseMove_armed variant dwellTime p w HC HA).
  - now apply (advance_armed variant).
  - exact HA.
Qed.

Lemma reachable_armed (variant : Variant) (dwellTime : Z) (w : World) :
  reachable variant dwellTime w -> Armed w.
Proof.
  intros [tr ->].
  assert (G : forall w0, Consistent variant dwellTime w0 -> Armed w0 ->
                         Armed (run variant dwellTime tr w0)).
  { induction tr as [|i tr IH]; cbn [run]; intros w0 HI HA; [exact HA|].
    apply IH; [now apply step_inv|now apply step_armed]. }
  apply G; [apply mounted_inv|].
  split; [|split]; cbn; intros; try discriminate; contradiction.
Qed.
Lemma In_dwellTimers (w : World) (t : Timer) :
  In t (dwellTimers w) <->
  In t (timers w) /\ (kind (action t) = KDwell \/ kind (action t) = KProgress).
Proof.
  unfold dwellTimers. rewrite filter_In, orb_true_iff. unfold isKind.
  destruct (kind (action t)); intuition discriminate.
Qed.

(** X1: on every reachable page the pending dwell timers are those of the
    hovered target, no more and no fewer.  When nothing is hovered, neither a
    dwell timer nor a progress interval is pending.  When [T] is hovered, one
    progress interval and one dwell timer are pending and no other of their
    kinds; the dwell timer will click a button whose [data-symbol-id] is [T],
    and it is due at the start of the dwell plus the delay [setTimeout]
    makes of [dwellTime]. *)
Theorem X1_dwell_timers_match_target (variant : Variant) (dwellTime : Z)
    (w : World) :
  reachable variant dwellTime w ->
  match hoveredElement w with
  | None => dwellTimers w = []
  | Some T =>
      exists iv tm b,
        In iv (timers w) /\ action iv = ProgressTick /\
        In tm (timers w) /\ action tm = DwellComplete T b /\
        getAttribute b = Some T /\
        deadline tm = dwellStartTimeRef w + timeoutDelay dwellTime /\
        forall t, In t (dwellTimers w) -> t = iv \/ t = tm
  end.
Proof.
  intros Hr. pose proof (reachable_armed _ _ _ Hr) as (A1 & _ & _).
  apply reachable_inv in Hr as HI.
  rewrite (inv_hovered _ _ _ HI).
  destruct (currentHoveredRef w) as [T|] eqn:Ec.
  - destruct (A1 T eq_refl) as (iv & tm & b & I1 & I2 & I3 & I4).
    exists iv, tm, b.
    destruct (inv_dwell _ _ _ HI tm T b I3 I4) as (_ & D2 & _ & D4).
    repeat split; auto.
    intros t Ht. apply In_dwellTimers in Ht as [Hin [Hk|Hk]].
    + right. apply (NoDup_tid_inj (timers w)); auto;
        [apply (inv_nodup _ _ _ HI)|].
      apply (inv_dwell_own _ _ _ HI t Hin) in Hk.
      assert (Hk' : dwellTimerRef w = Some (tid tm))
        by (apply (inv_dwell_own _ _ _ HI tm I3); now rewrite I4).
      congruence.
    + left. apply (NoDup_tid_inj (timers w)); auto;
        [apply (inv_nodup _ _ _ HI)|].
      apply (inv_progress_own _ _ _ HI t Hin) in Hk.
      assert (Hk' : progressIntervalRef w = Some (tid iv))
        by (apply (inv_progress_own _ _ _ HI iv I1); now rewrite I2).
      congruence.
  - destruct (dwellTimers w) as [|t l] eqn:E; [reflexivity|exfalso].
    assert (Ht : In t (dwellTimers w)) by (rewrite E; now left).
    apply In_dwellTimers in Ht as [Hin [Hk|Hk]].
    + destruct (action t) as [T b| | |] eqn:Ha; try discriminate.
      destruct (inv_dwell _ _ _ HI t T b Hin Ha) as (D1 & _). congruence.
    + destruct (action t) eqn:Ha; try discriminate.
      now apply (inv_progress _ _ _ HI t Hin Ha).
Qed.

(** X2: pointer mode is on exactly while an inactivity timer is pending, and
    at most one is: a pointer movement replaces the timer of the previous
    one, so that pointer mode always has an end scheduled.  The file without
    mouse arbitration never has such a timer. *)
Theorem X2_pointer_mode_has_its_timer (variant : Variant) (dwellTime : Z)
    (w : World) :
  reachable variant dwellTime w ->
  (isUsingMouse w = true <->
   exists t, In t (timers w) /\ action t = MouseInactive) /\
  (forall t1 t2, In t1 (timers w) -> In t2 (timers w) ->
                 action t1 = MouseInactive -> action t2 = MouseInactive ->
                 t1 = t2) /\
  (variant = PauseVariant ->
   forall t, In t (timers w) -> action t <> MouseInactive).
Proof.
  intros Hr. pose proof (reachable_armed _ _ _ Hr) as (_ & A2 & A3).
  apply reachable_inv in Hr as HI.
  rewrite (inv_mouse_state _ _ _ HI). split; [|split].
  - split; [exact A2|]. intros (t & Hin & Ha). exact (A3 t Hin Ha).
  - intros t1 t2 H1 H2 E1 E2.
    apply (NoDup_tid_inj (timers w)); auto; [apply (inv_nodup _ _ _ HI)|].
    assert (K1 : mouseInactivityTimerRef w = Some (tid t1))
      by (apply (inv_mouse_own _ _ _ HI t1 H1); now rewrite E1).
    assert (K2 : mouseInactivityTimerRef w = Some (tid t2))
      by (apply (inv_mouse_own _ _ _ HI t2 H2); now rewrite E2).
    congruence.
  - intros -> t Hin Ha.
    destruct (inv_pause _ _ _ HI eq_refl) as (_ & _ & P3).
    assert (K : mouseInactivityTimerRef w = Some (tid t))
      by (apply (inv_mouse_own _ _ _ HI t Hin); now rewrite Ha).
    congruence.
Qed.
(* ===================================================================== *)
(** ** Which handlers click *)
(* ===================================================================== *)

Lemma useEffect_domCalls (variant : Variant) (b : bool) (w : World) :
  domCalls (useEffect variant b w) = domCalls w.
Proof.
  unfold useEffect. rewrite runCleanup_shape. destruct b.
  - unfold enabledBranch.
    destruct variant, (cleanup w); cbn;
      repeat match goal with
             | |- context [if ?c then _ else _] => destruct c
             end; reflexivity.
  - rewrite disabledBranch_shape.
    destruct variant, (cleanup w); reflexivity.
Qed.

(** Only the passing of time makes calls on buttons. *)
Lemma step_domCalls (variant : Variant) (dwellTime : Z) (i : Input) (w : World) :
  (forall ms, i <> Wait ms) ->
  domCalls (step variant dwellTime i w) = domCalls w.
Proof.
  intros Hw. destruct i as [b| | | | |doc data|p|ms|]; cbn [step].
  - destruct (Bool.eqb b (enabled w)); [reflexivity|].
    rewrite useEffect_domCalls. reflexivity.
  - destruct (pendingScripts w); reflexivity.
  - reflexivity.
  - destruct (pendingBegins w); reflexivity.
  - reflexivity.
  - destruct (gazeListenerSet w); [|reflexivity].
    unfold gazeListener. destruct data as [xy|]; [|reflexivity].
    cbn. unfold dwellStep.
    destruct (resolveButton doc (currentPoint variant xy w)) as [b|].
    + destruct (getAttribute b) as [T|];
        [|destruct variant; [|destruct (negb (isUsingMouseRef w))]; reflexivity].
      destruct (_ && _);
        [|destruct variant; [|destruct (negb (isUsingMouseRef w))]; reflexivity].
      rewrite startDwell_shape.
      destruct variant; [|destruct (negb (isUsingMouseRef w))]; reflexivity.
    + rewrite stopDwell_shape.
      destruct variant; [|destruct (negb (isUsingMouseRef w))]; cbn;
        destruct (currentHoveredRef w); reflexivity.
  - destruct (mouseListener w); [|reflexivity].
    rewrite handleMouseMove_shape. reflexivity.
  - exfalso. now apply (Hw ms).
  - reflexivity.
Qed.

(** A timer callback makes no call on a button, or it is the dwell timer's:
    the button it was started for is asked to click, and no dwell is in
    progress afterwards. *)
Lemma runTimer_clicks (variant : Variant) (dwellTime : Z) (w : World) (id : nat) :
  Consistent variant dwellTime w ->
  (domCalls (runTimer dwellTime w id) = domCalls w /\
   forall t', In t' (timers (runTimer dwellTime w id)) ->
              kind (action t') = KDwell -> In t' (timers w)) \/
  (exists t T b, In t (timers w) /\ action t = DwellComplete T b /\
                 domCalls (runTimer dwellTime w id) = domCalls w ++ clickCalls b /\
                 NoDwell (runTimer dwellTime w id)).
Proof.
  intros HI. unfold runTimer.
  destruct (find (hasId id) (timers w)) as [t|] eqn:E; [|left; auto].
  apply find_hasId_In in E as [Hin _].
  destruct (action t) as [T b| | |] eqn:Ha.
  - right. exists t, T, b.
    destruct (dwell_fire_idle variant dwellTime w t T b HI Hin Ha) as [Q D].
    auto.
  - left. apply (fire_other variant); auto. rewrite Ha. discriminate.
  - left. apply (fire_other variant); auto. rewrite Ha. discriminate.
  - left. apply (fire_other variant); auto. rewrite Ha. discriminate.
Qed.
(* ===================================================================== *)
(** ** At most one activation per dwell time *)
(* ===================================================================== *)

Section AtMostOnce.

Variable variant : Variant.
Variable dwellTime : Z.

Lemma NoDwell_guarded (D : Z) (x : World) :
  NoDwell x -> D <= now x + timeoutDelay dwellTime -> Guarded dwellTime D x.
Proof.
  intros (_ & _ & _ & Hq) HD. split; [exact HD|].
  intros t Hin Hk. destruct (Hq t Hin). contradiction.
Qed.

Lemma fold_once (D : Z) (ids : list nat) (x : World) :
  Consistent variant dwellTime x -> D <= now x + timeoutDelay dwellTime ->
  Once dwellTime D (domCalls x) (fold_left (runTimer dwellTime) ids x).
Proof.
  revert x. induction ids as [|id ids IH]; cbn [fold_left]; intros x HI HD;
    [now left|].
  pose proof (runTimer_inv variant dwellTime x id HI) as HI'.
  destruct (runTimer_clicks variant dwellTime x id HI)
    as [[E _]|(t & T & b & _ & _ & E & Q)].
  - rewrite <- E. apply IH; [exact HI'|]. now rewrite now_runTimer.
  - right. exists b.
    assert (G : Guarded dwellTime D (runTimer dwellTime x id))
      by (apply NoDwell_guarded; [exact Q|now rewrite now_runTimer]).
    destruct (fold_guarded variant dwellTime D ids _ HI' G) as [F1 F2].
    + intros t' Hin _. destruct Q as (_ & _ & _ & Q). now destruct (Q t' Hin).
    + split; [congruence|exact F2].
Qed.

Lemma tick_once (D : Z) (c0 : list DomCall) (x : World) :
  Consistent variant dwellTime x -> D <= now x + timeoutDelay dwellTime ->
  now x + 1 < D -> Once dwellTime D c0 x ->
  Once dwellTime D c0 (tick dwellTime x).
Proof.
  intros HI HD Hlt [E|(b & E & G)].
  - subst c0. unfold tick.
    apply (fold_once D _ (set_now (now x + 1) x)).
    + now apply set_now_consistent.
    + cbn. lia.
  - right. exists b.
    destruct (tick_guarded variant dwellTime D x HI G Hlt) as [T1 T2].
    split; [congruence|exact T2].
Qed.

Lemma advance_once (D : Z) (c0 : list DomCall) (ms : nat) (x : World) :
  Consistent variant dwellTime x -> D <= now x + timeoutDelay dwellTime ->
  now x + Z.of_nat ms < D -> Once dwellTime D c0 x ->
  Once dwellTime D c0 (advance dwellTime ms x).
Proof.
  revert x. induction ms as [|n IH]; cbn [advance]; intros x HI HD Hlt HO;
    [exact HO|].
  apply IH.
  - now apply tick_inv.
  - rewrite now_tick. lia.
  - rewrite now_tick. lia.
  - apply tick_once; auto. lia.
Qed.

Lemma step_once (D : Z) (c0 : list DomCall) (i : Input) (x : World) :
  Consistent variant dwellTime x -> D <= now x + timeoutDelay dwellTime ->
  now x + Z.of_nat (duration [i]) < D -> Once dwellTime D c0 x ->
  Once dwellTime D c0 (step variant dwellTime i x).
Proof.
  intros HI HD Hlt HO.
  destruct (match i with Wait _ => true | _ => false end) eqn:Ew.
  - destruct i; try discriminate. cbn [step]. cbn [duration] in Hlt.
    apply advance_once; auto. lia.
  - destruct HO as [E|(b & E & G)].
    + left. rewrite step_domCalls; [exact E|].
      intros ms ->. discriminate.
    + right. exists b.
      destruct (step_guarded variant dwellTime D i x HI G Hlt) as [S1 S2].
      split; [congruence|exact S2].
Qed.

Lemma run_once (D : Z) (c0 : list DomCall) (tr : list Input) (x : World) :
  Consistent variant dwellTime x -> D <= now x + timeoutDelay dwellTime ->
  now x + Z.of_nat (duration tr) < D -> Once dwellTime D c0 x ->
  Once dwellTime D c0 (run variant dwellTime tr x).
Proof.
  revert x. induction tr as [|i tr IH]; cbn [run]; intros x HI HD Hlt HO;
    [exact HO|].
  rewrite duration_cons in Hlt.
  apply IH.
  - now apply step_inv.
  - rewrite now_step. lia.
  - rewrite now_step. lia.
  - apply step_once; auto. lia.
Qed.

(** X3: the dwell selector clicks at most once per dwell time (a delay that
    [setTimeout] waits for as it is, at most 2147483647 ms).  From any
    reachable page, whatever arrives during a stretch of time shorter than
    [dwellTime] (gaze samples on any targets, pointer movements, prop
    changes, re-renders), at most one button receives a click event in that
    stretch. *)
Theorem X3_one_activation_per_dwell_time (w : World) (tr : list Input) :
  dwellTime <= 2147483647 ->
  reachable variant dwellTime w ->
  Z.of_nat (duration tr) < dwellTime ->
  let w' := run variant dwellTime tr w in
  activations w' = activations w \/
  exists b, activations w' = activations w ++ [b].
Proof.
  intros Hmax Hr Hd w'. apply reachable_inv in Hr.
  assert (Hdelay : timeoutDelay dwellTime = dwellTime)
    by (apply timeoutDelay_id; lia).
  destruct (run_once (now w + timeoutDelay dwellTime) (domCalls w) tr w Hr)
    as [E|(b & E & _)]; try lia; [now left| |].
  - left. unfold activations, w'. now rewrite E.
  - right. exists b. unfold activations, w'.
    now rewrite E, clickEvents_app, clickEvents_clickCalls.
Qed.

End AtMostOnce.
(* ===================================================================== *)
(** ** A dwell time that [setTimeout] does not wait for *)
(* ===================================================================== *)

(** A delay between 2^31 and 2^32 wraps to a negative number, which counts
    as no delay. *)
Lemma timeoutDelay_wraps (delay : Z) :
  2147483647 < delay < 4294967296 -> timeoutDelay delay = 0.
Proof.
  intros H. unfold timeoutDelay, toInt32.
  replace (delay + 2147483648) with (delay - 2147483648 + 1 * 4294967296)
    by lia.
  rewrite Z.mod_add by lia. rewrite Z.mod_small by lia. lia.
Qed.

(** A dwell timer that is due runs at the next tick of the clock. *)
Lemma tick_dwelling (variant : Variant) (dwellTime : Z) (T : string)
    (b : Element) (t0 : Timer) (calls : list DomCall) (w : World) :
  action t0 = DwellComplete T b ->
  Consistent variant dwellTime w -> Dwelling T t0 calls w ->
  deadline t0 <= now w + 1 ->
  NoDwell (tick dwellTime w) /\
  domCalls (tick dwellTime w) = calls ++ clickCalls b.
Proof.
  intros Ha HI HD Hd.
  destruct (tick_fires variant dwellTime t0
              (Dwelling T t0 calls)
              (fun x => NoDwell x /\ domCalls x = calls ++ clickCalls b))
    with (w := w) as [A1 _]; auto.
  - intros x id _ [Hq Hc].
    destruct (quiet_runTimer dwellTime x id Hq) as [Hq' Hc'].
    split; [exact Hq'|congruence].
  - intros x id Hx Hin Hx' Hne.
    pose proof (runTimer_dwelling variant dwellTime T b t0 calls x id
                  Ha Hx Hx' Hne) as HD'.
    split; [apply HD'|exact HD'].
  - intros x Hx Hin (_ & _ & _ & Hc).
    destruct (dwell_fire_idle variant dwellTime x t0 T b Hx Hin Ha)
      as [Hq Hc'].
    split; [exact Hq|congruence].
  - apply HD.
Qed.

(** X17: a [dwellTime] between 2^31 and 2^32 ms is not waited for.  The
    delay of [setTimeout] is a 32-bit signed integer, so such a value wraps
    to a negative delay, which counts as 0: a sample that resolves to a
    button with a non-empty id other than the hovered one starts the dwell,
    and the button is clicked at the next tick of the clock, one millisecond
    later, with nothing hovered afterwards. *)
Theorem X17_oversized_dwell_time_is_not_waited_for (variant : Variant)
    (dwellTime : Z) (w : World) (doc : Document) (xy : Point) (b : Element)
    (T : string) :
  2147483647 < dwellTime < 4294967296 ->
  reachable variant dwellTime w -> gazeListenerSet w = true ->
  resolveButton doc (currentPoint variant xy w) = Some b ->
  getAttribute b = Some T -> T <> ""%string ->
  currentHoveredRef w <> Some T ->
  let w0 := step variant dwellTime (Gaze doc (Some xy)) w in
  let w1 := step variant dwellTime (Wait 1) w0 in
  hoveredElement w0 = Some T /\ activations w0 = activations w /\
  now w1 = now w + 1 /\
  activations w1 = activations w ++ [b] /\
  hoveredElement w1 = None /\ dwellTimers w1 = [].
Proof.
  intros Hbig Hr Hg Hb HbT HT Hcur w0 w1.
  assert (Hdelay : timeoutDelay dwellTime = 0)
    by now apply timeoutDelay_wraps.
  assert (HI0 : Consistent variant dwellTime w0)
    by (apply step_inv, reachable_inv, Hr).
  set (t0 := mkTimer (S (nextTimerId w)) (now w + timeoutDelay dwellTime)
                     (DwellComplete T b)).
  assert (Hd : differs T (currentHoveredRef w) = true).
  { unfold differs. destruct (currentHoveredRef w) as [c|]; [|reflexivity].
    apply negb_true_iff, String.eqb_neq. congruence. }
  assert (HTb : negb (T =? "")%string = true)
    by now apply negb_true_iff, String.eqb_neq.
  assert (E0 : Dwelling T t0 (domCalls w) w0 /\ now w0 = now w).
  { unfold w0. cbn [step]. rewrite Hg. unfold gazeListener.
    rewrite Hb. unfold dwellStep. rewrite HbT, HTb.
    assert (E : differs T
                  (currentHoveredRef
                     match variant with
                     | PauseVariant => set_gazePosition (Some xy) w
                     | MouseVariant =>
                         if negb (isUsingMouseRef w)
                         then set_gazePosition (Some xy) w else w
                     end) = true).
    { destruct variant; [|destruct (negb (isUsingMouseRef w))]; exact Hd. }
    rewrite E. cbn [andb]. rewrite startDwell_shape. unfold Dwelling.
    destruct variant; [|destruct (negb (isUsingMouseRef w))]; cbn; repeat split;
      apply in_or_app; right; left; reflexivity. }
  destruct E0 as (HD0 & Hnow0). clearbody w0.
  assert (Hdl : deadline t0 <= now w0 + 1).
  { cbn [t0 deadline]. rewrite Hdelay. lia. }
  destruct (tick_dwelling variant dwellTime T b t0 (domCalls w) w0
              eq_refl HI0 HD0 Hdl) as [Hq Hc].
  change (tick dwellTime w0) with w1 in Hq, Hc.
  destruct HD0 as (_ & _ & Hh0 & Hc0).
  unfold activations.
  split; [exact Hh0|]. split; [now rewrite Hc0|].
  split; [unfold w1; cbn [step]; rewrite now_advance; lia|].
  split; [rewrite Hc, clickEvents_app, clickEvents_clickCalls; reflexivity|].
  split; [apply Hq|]. now apply NoDwell_dwellTimers.
Qed.
(* ===================================================================== *)
(** ** The percentage shown during a dwell *)
(* ===================================================================== *)

Lemma runTimer_start (dwellTime : Z) (x : World) (id : nat) :
  dwellStartTimeRef (runTimer dwellTime x id) = dwellStartTimeRef x.
Proof.
  unfold runTimer. destruct (find (hasId id) (timers x)) as [t|];
    [|reflexivity].
  unfold fire. destruct (action t); rewrite ?dwellCallback_shape; reflexivity.
Qed.

Lemma fold_start (dwellTime : Z) (ids : list nat) (x : World) :
  dwellStartTimeRef (fold_left (runTimer dwellTime) ids x) =
  dwellStartTimeRef x.
Proof.
  revert x. induction ids as [|id ids IH]; intros x; [reflexivity|].
  cbn [fold_left]. rewrite IH. apply runTimer_start.
Qed.

(** The callbacks of one millisecond, the dwell timer not among them: the
    progress interval, if it is one of them, shows the percentage of this
    millisecond and is due again 50 ms later; if it is not, it is left as it
    was. *)
Lemma fold_sampling (variant : Variant) (dwellTime : Z) (T : string)
    (b : Element) (t0 : Timer) (calls : list DomCall) (s : Z)
    (ids : list nat) :
  action t0 = DwellComplete T b ->
  forall (x : World) (iv : Timer),
  Consistent variant dwellTime x -> Dwelling T t0 calls x ->
  ~ In (tid t0) ids ->
  dwellStartTimeRef x = s -> In iv (timers x) -> action iv = ProgressTick ->
  let x' := fold_left (runTimer dwellTime) ids x in
  (In (tid iv) ids ->
   dwellProgress x' = progressAt dwellTime (now x - s) /\
   exists iv', In iv' (timers x') /\ action iv' = ProgressTick /\
               deadline iv' = now x + 50) /\
  (~ In (tid iv) ids -> dwellProgress x' = dwellProgress x /\ In iv (timers x')).
Proof.
  intros Ha. induction ids as [|id ids IH]; intros x iv HI HD Hn0 Hs Hiv Haiv.
  - cbn. split; [contradiction|auto].
  - cbn [fold_left].
    assert (Hne : id <> tid t0) by (intros ->; apply Hn0; now left).
    assert (Hn0' : ~ In (tid t0) ids) by (intros X; apply Hn0; now right).
    pose proof (runTimer_inv variant dwellTime x id HI) as HI1.
    pose proof (runTimer_dwelling variant dwellTime T b t0 calls x id
                  Ha HI HD Hne) as HD1.
    pose proof (runTimer_start dwellTime x id) as Hs1. rewrite Hs in Hs1.
    pose proof (now_runTimer dwellTime x id) as Hnow1.
    destruct (find (hasId id) (timers x)) as [t|] eqn:E.
    + pose proof E as E'. apply find_hasId_In in E' as [Ht Hid].
      assert (R : runTimer dwellTime x id = fire dwellTime t x)
        by (unfold runTimer; now rewrite E).
      destruct (action t) as [T' b'| | |] eqn:Hat.
      * (* the dwell timer is not among them *)
        exfalso. apply Hne. rewrite <- Hid.
        destruct HD as (Hin0 & _).
        assert (K1 : dwellTimerRef x = Some (tid t))
          by (apply (inv_dwell_own _ _ _ HI t Ht); now rewrite Hat).
        assert (K2 : dwellTimerRef x = Some (tid t0))
          by (apply (inv_dwell_own _ _ _ HI t0 Hin0); now rewrite Ha).
        congruence.
      * (* the progress interval *)
        assert (t = iv).
        { apply (NoDup_tid_inj (timers x)); auto;
            [apply (inv_nodup _ _ _ HI)|].
          assert (K1 : progressIntervalRef x = Some (tid t))
            by (apply (inv_progress_own _ _ _ HI t Ht); now rewrite Hat).
          assert (K2 : progressIntervalRef x = Some (tid iv))
            by (apply (inv_progress_own _ _ _ HI iv Hiv); now rewrite Haiv).
          congruence. }
        subst t.
        set (iv1 := mkTimer (tid iv) (now x + 50) ProgressTick).
        assert (F : dwellProgress (runTimer dwellTime x id) =
                      progressAt dwellTime (now x - s) /\
                    In iv1 (timers (runTimer dwellTime x id))).
        { rewrite R. unfold fire. rewrite Hat. cbn. rewrite Hs.
          split; [reflexivity|].
          unfold rearm. apply in_map_iff. exists iv. split; [|exact Hiv].
          assert (Hh : hasId (tid iv) iv = true) by now apply hasId_true.
          rewrite Hh, Haiv. reflexivity. }
        destruct F as [F1 F2].
        destruct (IH _ iv1 HI1 HD1 Hn0' Hs1 F2 eq_refl) as [I1 I2].
        rewrite Hnow1 in I1.
        split; [intros _|intros X; exfalso; apply X; now left].
        destruct (in_dec Nat.eq_dec (tid iv1) ids) as [Hin|Hnin].
        -- exact (I1 Hin).
        -- destruct (I2 Hnin) as [J1 J2]. split; [congruence|].
           exists iv1. auto.
      * (* the inactivity timer *)
        assert (Hd : tid iv <> id).
        { intros X. assert (iv = t); [|subst; congruence].
          apply (NoDup_tid_inj (timers x)); auto;
            [apply (inv_nodup _ _ _ HI)|congruence]. }
        assert (F : dwellProgress (runTimer dwellTime x id) = dwellProgress x /\
                    In iv (timers (runTimer dwellTime x id))).
        { rewrite R. unfold fire. rewrite Hat. cbn.
          split; [reflexivity|]. apply In_cleared. split; [exact Hiv|].
          congruence. }
        destruct F as [F1 F2].
        destruct (IH _ iv HI1 HD1 Hn0' Hs1 F2 Haiv) as [I1 I2].
        rewrite Hnow1 in I1.
        split; [intros [X|X]; [congruence|exact (I1 X)]|].
        intros X. destruct I2 as [J1 J2]; [intros Y; apply X; now right|].
        split; [congruence|exact J2].
      * (* the timer of an acquisition *)
        assert (Hd : tid iv <> id).
        { intros X. assert (iv = t); [|subst; congruence].
          apply (NoDup_tid_inj (timers x)); auto;
            [apply (inv_nodup _ _ _ HI)|congruence]. }
        assert (F : dwellProgress (runTimer dwellTime x id) = dwellProgress x /\
                    In iv (timers (runTimer dwellTime x id))).
        { rewrite R. unfold fire. rewrite Hat. cbn.
          split; [reflexivity|]. apply In_cleared. split; [exact Hiv|].
          congruence. }
        destruct F as [F1 F2].
        destruct (IH _ iv HI1 HD1 Hn0' Hs1 F2 Haiv) as [I1 I2].
        rewrite Hnow1 in I1.
        split; [intros [X|X]; [congruence|exact (I1 X)]|].
        intros X. destruct I2 as [J1 J2]; [intros Y; apply X; now right|].
        split; [congruence|exact J2].
    + assert (R : runTimer dwellTime x id = x)
        by (unfold runTimer; now rewrite E).
      rewrite R in *.
      pose proof (find_hasId_none id (timers x) iv E Hiv) as Hd.
      destruct (IH _ iv HI HD Hn0' Hs Hiv Haiv) as [I1 I2].
      split; [intros [X|X]; [congruence|exact (I1 X)]|].
      intros X. apply I2. intros Y. apply X. now right.
Qed.

Lemma due_id (x : World) (t : Timer) (variant : Variant) (dwellTime : Z) :
  Consistent variant dwellTime x -> In t (timers x) ->
  (In (tid t) (map tid (filter (isDue (now x)) (timers x))) <->
   deadline t <= now x).
Proof.
  intros HI Hin. split.
  - intros H. apply in_map_iff in H as (t' & Hid & Hf).
    apply filter_In in Hf as [Hin' Hdue].
    assert (t' = t)
      by (apply (NoDup_tid_inj (timers x)); auto; apply (inv_nodup _ _ _ HI)).
    subst t'. unfold isDue in Hdue. now apply Z.leb_le in Hdue.
  - intros H. apply in_map, filter_In. split; [exact Hin|].
    unfold isDue. now apply Z.leb_le.
Qed.

Lemma shownProgress_same (dwellTime : Z) (e e' : Z) :
  0 <= e -> e / 50 = e' / 50 ->
  shownProgress dwellTime e' = shownProgress dwellTime e.
Proof.
  intros He Hk. unfold shownProgress. rewrite Hk.
  assert (E : (e' <? 50) = (e <? 50)).
  { destruct (e <? 50) eqn:E1; destruct (e' <? 50) eqn:E2; try reflexivity;
      rewrite ?Z.ltb_lt, ?Z.ltb_ge in *; exfalso;
      Z.div_mod_to_equations; lia. }
  now rewrite E.
Qed.

Lemma tick_sampling (variant : Variant) (dwellTime : Z) (T : string)
    (b : Element) (t0 : Timer) (calls : list DomCall) (s : Z) (x : World) :
  action t0 = DwellComplete T b ->
  Consistent variant dwellTime x -> Dwelling T t0 calls x ->
  now x + 1 < deadline t0 -> s <= now x ->
  SamplingAt dwellTime s (now x - s) x ->
  SamplingAt dwellTime s (now x + 1 - s) (tick dwellTime x).
Proof.
  intros Ha HI HD Hlt Hs (Hst & iv & Hiv & Haiv & Hdl & Hp).
  unfold tick.
  set (x0 := set_now (now x + 1) x).
  assert (HI0 : Consistent variant dwellTime x0)
    by now apply set_now_consistent.
  assert (HD0 : Dwelling T t0 calls x0) by exact HD.
  assert (Hin0 : In t0 (timers x0)) by apply HD.
  assert (Hn0 : ~ In (tid t0) (map tid (filter (isDue (now x0)) (timers x0)))).
  { intros X. apply (due_id x0 t0 variant dwellTime HI0 Hin0) in X.
    cbn in X. lia. }
  destruct (fold_sampling variant dwellTime T b t0 calls s _ Ha x0 iv
              HI0 HD0 Hn0 Hst Hiv Haiv) as [F1 F2].
  split; [rewrite fold_start; exact Hst|].
  pose proof (due_id x0 iv variant dwellTime HI0 Hiv) as Hdue.
  change (now x0) with (now x + 1) in *.
  destruct (Z.le_gt_cases (deadline iv) (now x + 1)) as [Hle|Hgt].
  - (* the interval runs in this millisecond *)
    destruct (F1 (proj2 Hdue Hle)) as (P1 & iv' & I1 & I2 & I3).
    assert (Hk : (now x + 1 - s) / 50 = (now x - s) / 50 + 1 /\
                 now x + 1 - s = 50 * ((now x + 1 - s) / 50) /\
                 50 <= now x + 1 - s)
      by (Z.div_mod_to_equations; lia).
    destruct Hk as (K1 & K2 & K3).
    exists iv'. split; [exact I1|]. split; [exact I2|]. split.
    + rewrite I3. Z.div_mod_to_equations. lia.
    + rewrite P1. unfold shownProgress.
      assert (L : (now x + 1 - s <? 50) = false) by (apply Z.ltb_ge; lia).
      rewrite L, <- K2. reflexivity.
  - (* it does not *)
    destruct F2 as [P1 I1]; [intros X; apply Hdue in X; lia|].
    assert (Hk : (now x - s) / 50 = (now x + 1 - s) / 50)
      by (Z.div_mod_to_equations; lia).
    exists iv. split; [exact I1|]. split; [exact Haiv|]. split.
    + rewrite <- Hk. exact Hdl.
    + rewrite P1. cbn. rewrite Hp. symmetry.
      apply shownProgress_same; [lia|exact Hk].
Qed.

Lemma advance_sampling (variant : Variant) (dwellTime : Z) (T : string)
    (b : Element) (t0 : Timer) (calls : list DomCall) (s : Z) (ms : nat)
    (x : World) :
  action t0 = DwellComplete T b ->
  Consistent variant dwellTime x -> Dwelling T t0 calls x ->
  now x + Z.of_nat ms < deadline t0 -> s <= now x ->
  SamplingAt dwellTime s (now x - s) x ->
  SamplingAt dwellTime s (now x + Z.of_nat ms - s) (advance dwellTime ms x).
Proof.
  intros Ha. revert x. induction ms as [|n IH]; intros x HI HD Hlt Hs HS.
  - cbn [advance]. now rewrite Z.add_0_r.
  - cbn [advance].
    assert (HD1 : Dwelling T t0 calls (tick dwellTime x)).
    { destruct (advance_dwelling variant dwellTime T b t0 calls 1 x
                  Ha HI HD) as [A1 _]; [lia|]. apply A1. lia. }
    pose proof (tick_sampling variant dwellTime T b t0 calls s x
                  Ha HI HD) as HS1.
    specialize (IH (tick dwellTime x) (tick_inv _ _ _ HI) HD1).
    rewrite now_tick in IH.
    replace (now x + Z.of_nat (S n) - s)
      with (now x + 1 + Z.of_nat n - s) by lia.
    apply IH; [lia|lia|]. apply HS1; [lia|exact Hs|exact HS].
Qed.

Lemma SamplingAt_more (dwellTime : Z) (s e : Z) (x y : World) :
  SamplingAt dwellTime s e x ->
  dwellStartTimeRef y = dwellStartTimeRef x ->
  dwellProgress y = dwellProgress x ->
  (forall t, In t (timers x) -> action t = ProgressTick -> In t (timers y)) ->
  SamplingAt dwellTime s e y.
Proof.
  intros (Hst & iv & Hiv & Ha & Hd & Hp) E1 E2 E3.
  split; [congruence|]. exists iv. repeat split; auto. congruence.
Qed.

Lemma step_sampling (variant : Variant) (dwellTime : Z) (T : string)
    (b : Element) (t0 : Timer) (calls : list DomCall) (s : Z) (i : Input)
    (w : World) :
  action t0 = DwellComplete T b ->
  Consistent variant dwellTime w -> Dwelling T t0 calls w ->
  staysOn variant dwellTime T [i] w ->
  now w + Z.of_nat (duration [i]) < deadline t0 -> s <= now w ->
  SamplingAt dwellTime s (now w - s) w ->
  SamplingAt dwellTime s (now w + Z.of_nat (duration [i]) - s)
             (step variant dwellTime i w).
Proof.
  intros Ha HI HD Hs Hlt Hle HS. pose proof HD as (Hin & Hc & Hh & Hd).
  assert (Same : forall y,
             dwellStartTimeRef y = dwellStartTimeRef w ->
             dwellProgress y = dwellProgress w ->
             (forall t, In t (timers w) -> action t = ProgressTick ->
                        In t (timers y)) ->
             SamplingAt dwellTime s (now w + 0 - s) y).
  { intros y E1 E2 E3. rewrite Z.add_0_r.
    exact (SamplingAt_more dwellTime s _ w y HS E1 E2 E3). }
  destruct i as [e| | | | |doc data|p|ms|]; cbn [step duration Z.of_nat].
  - destruct Hs as [[] _].
  - destruct (pendingScripts w); cbn; apply Same; auto.
  - apply Same; auto.
  - destruct (pendingBegins w); [apply Same; auto|].
    apply Same; cbn; auto. intros t Ht _. apply in_or_app. auto.
  - apply Same; auto.
  - destruct (gazeListenerSet w); [|apply Same; auto].
    destruct data as [xy|]; [|apply Same; auto].
    destruct Hs as [Hs _]. apply resolveId_button in Hs as (b' & Hb & Hb').
    unfold gazeListener. rewrite Hb. unfold dwellStep. rewrite Hb'.
    assert (E : differs T
                  (currentHoveredRef
                     match variant with
                     | PauseVariant => set_gazePosition (Some xy) w
                     | MouseVariant =>
                         if negb (isUsingMouseRef w)
                         then set_gazePosition (Some xy) w else w
                     end) = false).
    { destruct variant; [|destruct (negb (isUsingMouseRef w))]; cbn;
        rewrite Hc; cbn; now rewrite String.eqb_refl. }
    rewrite E, andb_false_r.
    destruct variant; [|destruct (negb (isUsingMouseRef w))];
      apply Same; auto.
  - destruct (mouseListener w); [|apply Same; auto].
    rewrite handleMouseMove_shape. apply Same; cbn; auto.
    intros t Ht Hat. apply in_or_app. left. apply In_cancel.
    split; [exact Ht|]. intros X.
    apply (inv_mouse_own _ _ _ HI t Ht) in X. rewrite Hat in X. discriminate.
  - cbn [duration] in Hlt. rewrite Nat.add_0_r in *.
    apply (advance_sampling variant dwellTime T b t0 calls); auto.
  - apply Same; auto.
Qed.

Lemma run_sampling (variant : Variant) (dwellTime : Z) (T : string)
    (b : Element) (t0 : Timer) (calls : list DomCall) (s : Z)
    (tr : list Input) (w : World) :
  action t0 = DwellComplete T b ->
  Consistent variant dwellTime w -> Dwelling T t0 calls w ->
  staysOn variant dwellTime T tr w ->
  now w + Z.of_nat (duration tr) < deadline t0 -> s <= now w ->
  SamplingAt dwellTime s (now w - s) w ->
  SamplingAt dwellTime s (now w + Z.of_nat (duration tr) - s)
             (run variant dwellTime tr w).
Proof.
  intros Ha. revert w. induction tr as [|i tr IH]; intros w HI HD Hs Hlt Hle HS.
  - cbn. now rewrite Z.add_0_r.
  - apply staysOn_cons in Hs as [Hs1 Hs2]. rewrite duration_cons in *.
    cbn [run].
    replace (now w + Z.of_nat (duration [i] + duration tr) - s)
      with (now w + Z.of_nat (duration [i]) + Z.of_nat (duration tr) - s)
      by lia.
    rewrite <- (now_step variant dwellTime i w).
    apply IH.
    + now apply step_inv.
    + apply (step_dwelling variant dwellTime T b); auto. lia.
    + exact Hs2.
    + rewrite now_step. lia.
    + rewrite now_step. lia.
    + rewrite now_step.
      apply (step_sampling variant dwellTime T b t0 calls); auto. lia.
Qed.

(* ===================================================================== *)
(** ** What gets clicked *)
(* ===================================================================== *)

Lemma runTimer_receivers (variant : Variant) (dwellTime : Z) (w : World)
    (id : nat) :
  Consistent variant dwellTime w ->
  Forall (fun c => isSymbolButton (receiver c)) (domCalls w) ->
  Forall (fun c => isSymbolButton (receiver c))
         (domCalls (runTimer dwellTime w id)).
Proof.
  intros HI HF.
  destruct (runTimer_clicks variant dwellTime w id HI)
    as [[E _]|(t & T & b & Hin & Ha & E & _)]; rewrite E; [exact HF|].
  apply Forall_app. split; [exact HF|].
  destruct (inv_dwell _ _ _ HI t T b Hin Ha) as (_ & D2 & D3 & _).
  assert (Hb : isSymbolButton b) by (exists T; auto).
  unfold clickCalls. destruct (isHTMLElement b); repeat constructor; exact Hb.
Qed.

Lemma advance_receivers (variant : Variant) (dwellTime : Z) (ms : nat)
    (w : World) :
  Consistent variant dwellTime w ->
  Forall (fun c => isSymbolButton (receiver c)) (domCalls w) ->
  Forall (fun c => isSymbolButton (receiver c))
         (domCalls (advance dwellTime ms w)).
Proof.
  revert w. induction ms as [|n IH]; cbn [advance]; intros w HI HF;
    [exact HF|].
  apply IH; [now apply tick_inv|]. unfold tick.
  assert (G : forall ids x, Consistent variant dwellTime x ->
                Forall (fun c => isSymbolButton (receiver c)) (domCalls x) ->
                Forall (fun c => isSymbolButton (receiver c))
                       (domCalls (fold_left (runTimer dwellTime) ids x))).
  { induction ids as [|id ids IHi]; cbn [fold_left]; intros x Hx Fx;
      [exact Fx|].
    apply IHi; [now apply runTimer_inv|now apply (runTimer_receivers variant)]. }
  apply G; [now apply set_now_consistent|exact HF].
Qed.

(** X4: the hook clicks nothing but symbol buttons.  On every reachable page,
    every call it has made ([click()] or [dispatchEvent]) was made on an
    element that carries a non-empty [data-symbol-id], so every element that
    has received a click event from the hook is such a button. *)
Theorem X4_only_symbol_buttons_are_clicked (variant : Variant)
    (dwellTime : Z) (w : World) :
  reachable variant dwellTime w ->
  Forall (fun c => isSymbolButton (receiver c)) (domCalls w) /\
  Forall isSymbolButton (activations w).
Proof.
  intros [tr ->].
  assert (G : forall x, Consistent variant dwellTime x ->
                Forall (fun c => isSymbolButton (receiver c)) (domCalls x) ->
                Forall (fun c => isSymbolButton (receiver c))
                       (domCalls (run variant dwellTime tr x))).
  { induction tr as [|i tr IH]; cbn [run]; intros x HI HF; [exact HF|].
    apply IH; [now apply step_inv|].
    destruct i as [b| | | | |doc data|p|ms|];
      try (rewrite step_domCalls; [exact HF|discriminate]).
    cbn [step]. now apply (advance_receivers variant). }
  assert (F : Forall (fun c => isSymbolButton (receiver c))
                     (domCalls (run variant dwellTime tr mounted)))
    by (apply G; [apply mounted_inv|constructor]).
  split; [exact F|]. unfold activations.
  induction F as [|c l Hc _ IH]; cbn [clickEvents]; [constructor|].
  destruct c as [el|el]; [destruct (isHTMLElement el)|]; auto.
Qed.
(* ===================================================================== *)
(** ** A gaze sample on a new target, and on the same target *)
(* ===================================================================== *)

(** X5: moving the gaze to another symbol restarts the dwell from zero, and
    looking on at the same symbol does not.  A sample that resolves to a
    button whose non-empty id [T] is not the hovered one makes [T] the
    hovered target with percentage 0 and the dwell starting now; the pending
    dwell timers are then exactly a progress interval due in 50 ms and a
    dwell timer for that button due after the delay [setTimeout] makes of
    [dwellTime] (those of the previous target are gone, and it has not been
    clicked).  A sample that resolves to
    the hovered id leaves the timers, the start time and the percentage as
    they are. *)
Theorem X5_new_target_restarts_dwell (variant : Variant) (dwellTime : Z)
    (w : World) (doc : Document) (xy : Point) (b : Element) (T : string) :
  reachable variant dwellTime w -> gazeListenerSet w = true ->
  resolveButton doc (currentPoint variant xy w) = Some b ->
  getAttribute b = Some T ->
  let w' := step variant dwellTime (Gaze doc (Some xy)) w in
  (T <> ""%string -> currentHoveredRef w <> Some T ->
   hoveredElement w' = Some T /\ dwellProgress w' = 0%Q /\
   dwellStartTimeRef w' = now w /\ domCalls w' = domCalls w /\
   exists iv tm,
     action iv = ProgressTick /\ deadline iv = now w + 50 /\
     action tm = DwellComplete T b /\
     deadline tm = now w + timeoutDelay dwellTime /\
     forall t, In t (dwellTimers w') <-> t = iv \/ t = tm) /\
  (currentHoveredRef w = Some T ->
   timers w' = timers w /\ hoveredElement w' = hoveredElement w /\
   dwellProgress w' = dwellProgress w /\
   dwellStartTimeRef w' = dwellStartTimeRef w).
Proof.
  intros Hr Hg Hb HbT w'. apply reachable_inv in Hr as HI.
  assert (E : w' = dwellStep dwellTime (Some b)
                 (match variant with
                  | PauseVariant => set_gazePosition (Some xy) w
                  | MouseVariant =>
                      if negb (isUsingMouseRef w)
                      then set_gazePosition (Some xy) w else w
                  end)).
  { unfold w'. cbn [step]. rewrite Hg. unfold gazeListener. now rewrite Hb. }
  set (w0 := match variant with
             | PauseVariant => set_gazePosition (Some xy) w
             | MouseVariant =>
                 if negb (isUsingMouseRef w)
                 then set_gazePosition (Some xy) w else w
             end) in E.
  assert (F : currentHoveredRef w0 = currentHoveredRef w /\
              timers w0 = timers w /\ now w0 = now w /\
              domCalls w0 = domCalls w /\ nextTimerId w0 = nextTimerId w /\
              dwellTimerRef w0 = dwellTimerRef w /\
              progressIntervalRef w0 = progressIntervalRef w /\
              hoveredElement w0 = hoveredElement w /\
              dwellProgress w0 = dwellProgress w /\
              dwellStartTimeRef w0 = dwellStartTimeRef w).
  { unfold w0. destruct variant; [|destruct (negb (isUsingMouseRef w))];
      cbn; auto 12. }
  destruct F as (F1 & F2 & F3 & F4 & F5 & F6 & F7 & F8 & F9 & F10).
  clearbody w0 w'. subst w'. unfold dwellStep. rewrite HbT, F1. split.
  - intros HT Hcur.
    assert (Hd : negb (T =? "")%string && differs T (currentHoveredRef w) = true).
    { apply andb_true_iff. split; [now apply negb_true_iff, String.eqb_neq|].
      unfold differs. destruct (currentHoveredRef w) as [c|]; [|reflexivity].
      apply negb_true_iff, String.eqb_neq. congruence. }
    rewrite Hd, startDwell_shape. cbn. rewrite F2, F3, F4, F5, F6, F7.
    repeat split; auto.
    exists (mkTimer (nextTimerId w) (now w + 50) ProgressTick),
           (mkTimer (S (nextTimerId w)) (now w + timeoutDelay dwellTime)
                    (DwellComplete T b)).
    repeat split; auto.
    + intros Ht. apply filter_In in Ht as [Hin Hk].
      break_in; auto. exfalso.
      destruct (kind (action t)) eqn:Ek; try discriminate.
      * apply (inv_dwell_own _ _ _ HI t H) in Ek. congruence.
      * apply (inv_progress_own _ _ _ HI t H) in Ek. congruence.
    + intros [->| ->]; apply filter_In; rewrite !in_app_iff; cbn; auto.
  - intros Hcur.
    assert (Hd : differs T (currentHoveredRef w) = false).
    { rewrite Hcur. cbn. now rewrite String.eqb_refl. }
    rewrite Hd, andb_false_r. cbn. auto.
Qed.
(* ===================================================================== *)
(** ** Calls made on the gaze library *)
(* ===================================================================== *)

(** What a disable asks of the library: the cleanup of the effect run that
    appended the script stops it if it has loaded, and the disabled branch
    stops it (again) if an acquisition has succeeded. *)
Lemma disable_calls (variant : Variant) (w : World) :
  let w' := useEffect variant false w in
  wgCalls w' =
    wgCalls w ++
    stopCalls (stopCall variant)
      (match cleanup w with CleanupInit => windowWebgazer w | _ => false end) ++
    stopCalls (stopCall variant) (windowWebgazer w && webgazerInitialized w) /\
  windowWebgazer w' = windowWebgazer w.
Proof.
  unfold useEffect. rewrite runCleanup_shape, disabledBranch_shape.
  destruct variant, (cleanup w); cbn;
    rewrite <- ?app_assoc, ?app_nil_r; cbn; auto.
Qed.

(** What an enable asks of it: [resume()] when an acquisition has succeeded
    and the library is there, nothing otherwise. *)
Lemma enable_calls (variant : Variant) (w : World) :
  cleanup w = NoCleanup ->
  let w' := useEffect variant true w in
  wgCalls w' =
    wgCalls w ++
    (if webgazerInitialized w && windowWebgazer w then [WgResume] else []) /\
  windowWebgazer w' = windowWebgazer w /\
  scriptsAppended w' =
    (if webgazerInitialized w then scriptsAppended w
     else S (scriptsAppended w)) /\
  isInitialized w' =
    (if webgazerInitialized w && windowWebgazer w then true
     else isInitialized w).
Proof.
  intros Hc. unfold useEffect. rewrite runCleanup_shape, Hc.
  unfold enabledBranch.
  destruct variant; cbn;
    destruct (webgazerInitialized w) eqn:Ef, (windowWebgazer w) eqn:Ew;
    cbn; rewrite ?Ef, ?Ew, ?app_nil_r; auto 10.
Qed.

Lemma Begun_more (w w' : World) (l : list WgCall) :
  Begun w -> windowWebgazer w' = windowWebgazer w ->
  wgCalls w' = wgCalls w ++ l -> (windowWebgazer w = false -> l = []) ->
  Begun w'.
Proof.
  unfold Begun. intros H Hw Hc Hl. rewrite Hw, Hc.
  destruct (windowWebgazer w).
  - destruct H as [rest ->]. now exists (rest ++ l).
  - rewrite (Hl eq_refl), app_nil_r. exact H.
Qed.

Lemma step_begun (variant : Variant) (dwellTime : Z) (i : Input) (w : World) :
  Consistent variant dwellTime w -> Begun w -> Begun (step variant dwellTime i w).
Proof.
  intros HI HB.
  assert (Same : forall x, windowWebgazer x = windowWebgazer w ->
                           wgCalls x = wgCalls w -> Begun x).
  { intros x E1 E2. apply (Begun_more w x []); auto.
    now rewrite app_nil_r. }
  destruct i as [b| | | | |doc data|p|ms|]; cbn [step].
  - destruct (Bool.eqb b (enabled w)) eqn:E; [exact HB|]. destruct b.
    + assert (Hc : cleanup w = NoCleanup).
      { apply (inv_cleanup_off _ _ _ HI). now destruct (enabled w). }
      destruct (enable_calls variant (commit w) Hc) as (C1 & C2 & _).
      eapply (Begun_more w); [exact HB|exact C2|exact C1|].
      cbn. intros ->. now rewrite andb_false_r.
    + destruct (disable_calls variant (commit w)) as (C1 & C2).
      eapply (Begun_more w); [exact HB|exact C2|exact C1|].
      cbn. intros ->. now destruct (cleanup w).
  - destruct (pendingScripts w); [exact HB|]. unfold Begun in *. cbn.
    destruct (windowWebgazer w).
    + destruct HB as [rest ->]. now exists (rest ++ [WgBegin]).
    + rewrite HB. now exists [].
  - now apply Same.
  - destruct (pendingBegins w); [exact HB|]. now apply Same.
  - now apply Same.
  - destruct (gazeListenerSet w); [|exact HB].
    unfold gazeListener. destruct data as [xy|]; [|now apply Same].
    match goal with
    | |- context [dwellStep ?d ?b ?x] =>
        destruct (dwellStep_flags d b x) as (_ & _ & F3 & _ & F5)
    end.
    apply Same; cbn; [rewrite F3|rewrite F5];
      destruct variant; [|destruct (negb (isUsingMouseRef w))| |
                         destruct (negb (isUsingMouseRef w))]; reflexivity.
  - destruct (mouseListener w); [|exact HB].
    rewrite handleMouseMove_shape. now apply Same.
  - destruct (advance_flags dwellTime ms w) as (_ & _ & F3 & _ & F5).
    now apply Same.
  - now apply Same.
Qed.

(** X6: of the calls that start and stop the gaze library ([begin()],
    [pause()], [resume()], [end()]) the hook makes none before the script
    has loaded, and the first it ever makes is [begin()]: every [pause()],
    [resume()] and [end()] comes after a [begin()]. *)
Theorem X6_library_is_begun_first (variant : Variant) (dwellTime : Z)
    (w : World) :
  reachable variant dwellTime w ->
  (windowWebgazer w = false -> wgCalls w = []) /\
  (forall c rest, wgCalls w = c :: rest -> c = WgBegin) /\
  (forall c, In c (wgCalls w) -> In WgBegin (wgCalls w)).
Proof.
  intros [tr ->].
  assert (G : forall x, Consistent variant dwellTime x -> Begun x ->
                        Begun (run variant dwellTime tr x)).
  { induction tr as [|i tr IH]; cbn [run]; intros x HI HB; [exact HB|].
    apply IH; [now apply step_inv|now apply step_begun]. }
  assert (B : Begun (run variant dwellTime tr mounted))
    by (apply G; [apply mounted_inv|reflexivity]).
  unfold Begun in B.
  destruct (windowWebgazer (run variant dwellTime tr mounted)).
  - destruct B as [rest B]. rewrite B. repeat split.
    + discriminate.
    + now intros c r [= <- _].
    + intros _ _. now left.
  - rewrite B. repeat split; try discriminate. intros c [].
Qed.
(* ===================================================================== *)
(** ** What only the effect changes *)
(* ===================================================================== *)

Lemma EffectKept_refl (w : World) : EffectKept w w.
Proof. unfold EffectKept. auto 10. Qed.

Lemma EffectKept_trans (a b c : World) :
  EffectKept a b -> EffectKept b c -> EffectKept a c.
Proof.
  unfold EffectKept. intros (A1 & A2 & A3 & A4 & A5 & A6)
                            (B1 & B2 & B3 & B4 & B5 & B6).
  repeat split; try congruence; auto.
Qed.

Lemma runTimer_effect (dwellTime : Z) (w : World) (id : nat) :
  EffectKept w (runTimer dwellTime w id).
Proof.
  unfold runTimer. destruct (find (hasId id) (timers w)) as [t|];
    [|apply EffectKept_refl].
  unfold fire, EffectKept. destruct (action t); cbn;
    rewrite ?dwellCallback_shape; cbn; auto 10.
Qed.

Lemma advance_effect (dwellTime : Z) (ms : nat) (w : World) :
  EffectKept w (advance dwellTime ms w).
Proof.
  revert w. induction ms as [|n IH]; cbn [advance]; intros w;
    [apply EffectKept_refl|].
  apply (EffectKept_trans _ (tick dwellTime w)); [|apply IH].
  unfold tick.
  apply (EffectKept_trans _ (set_now (now w + 1) w));
    [unfold EffectKept; cbn; auto 10|].
  generalize (map tid (filter (isDue (now (set_now (now w + 1) w)))
                              (timers (set_now (now w + 1) w)))).
  generalize (set_now (now w + 1) w). intros x ids. revert x.
  induction ids as [|id ids IHi]; cbn [fold_left]; intros x;
    [apply EffectKept_refl|].
  apply (EffectKept_trans _ (runTimer dwellTime x id));
    [apply runTimer_effect|apply IHi].
Qed.

Lemma step_effect (variant : Variant) (dwellTime : Z) (i : Input) (w : World) :
  noPropChange [i] -> EffectKept w (step variant dwellTime i w).
Proof.
  intros Hn. destruct i as [b| | | | |doc data|p|ms|]; cbn [step].
  - destruct Hn.
  - destruct (pendingScripts w); unfold EffectKept; cbn; auto 10.
  - unfold EffectKept; cbn; auto 10.
  - destruct (pendingBegins w); unfold EffectKept; cbn; auto 10.
  - unfold EffectKept; cbn; auto 10.
  - destruct (gazeListenerSet w); [|apply EffectKept_refl].
    unfold gazeListener. destruct data as [xy|];
      [|unfold EffectKept; cbn; auto 10].
    unfold dwellStep.
    destruct (resolveButton doc (currentPoint variant xy w)) as [b|].
    + destruct (getAttribute b) as [T|];
        [destruct (_ && _); [rewrite startDwell_shape|]|];
        destruct variant; [|destruct (negb (isUsingMouseRef w))| |
                           destruct (negb (isUsingMouseRef w))| |
                           destruct (negb (isUsingMouseRef w))];
        unfold EffectKept; cbn; auto 10.
    + rewrite stopDwell_shape.
      destruct variant; [|destruct (negb (isUsingMouseRef w))]; cbn;
        destruct (currentHoveredRef w); unfold EffectKept; cbn; auto 10.
  - destruct (mouseListener w) eqn:E; [|apply EffectKept_refl].
    rewrite handleMouseMove_shape. unfold EffectKept. cbn. auto 10.
  - apply advance_effect.
  - unfold EffectKept; cbn; auto 10.
Qed.

Lemma noPropChange_cons (i : Input) (tr : list Input) :
  noPropChange (i :: tr) <-> noPropChange [i] /\ noPropChange tr.
Proof. destruct i; cbn; tauto. Qed.

Lemma run_effect (variant : Variant) (dwellTime : Z) (tr : list Input)
    (w : World) :
  noPropChange tr -> EffectKept w (run variant dwellTime tr w).
Proof.
  revert w. induction tr as [|i tr IH]; cbn [run]; intros w Hn;
    [apply EffectKept_refl|].
  apply noPropChange_cons in Hn as [H1 H2].
  apply (EffectKept_trans _ (step variant dwellTime i w));
    [now apply step_effect|now apply IH].
Qed.
Lemma enable_effect (variant : Variant) (w : World) :
  cleanup w = NoCleanup ->
  let w' := useEffect variant true w in
  enabled w' = true /\
  webgazerInitialized w' = webgazerInitialized w /\
  (cleanup w' = CleanupInit <-> webgazerInitialized w = false).
Proof.
  intros Hc. unfold useEffect. rewrite runCleanup_shape, Hc.
  unfold enabledBranch.
  destruct variant; cbn;
    destruct (webgazerInitialized w) eqn:Ef, (windowWebgazer w) eqn:Ew;
    cbn; rewrite ?Ef; repeat split; auto; try discriminate.
Qed.

(** X7: how often a disable stops the gaze library ([pause()] in
    [src/hooks/useEyeTracking.ts], [end()] in [src/unnamed/part_002]).  Take
    any period during which the hook is enabled.  If an acquisition has
    succeeded by the time of the disable, the library is stopped once when
    the period began with a resume, and twice in a row when the period itself
    appended the script: once by the cleanup of the effect, once by the
    disabled branch.  If none has succeeded, it is stopped once when the
    script has loaded and not at all when it has not. *)
Theorem X7_stop_calls_on_disable (variant : Variant) (dwellTime : Z)
    (w : World) (tr : list Input) :
  reachable variant dwellTime w -> enabled w = false -> noPropChange tr ->
  let w1 := run variant dwellTime (SetEnabled true :: tr) w in
  let w2 := step variant dwellTime (SetEnabled false) w1 in
  enabled w1 = true /\
  wgCalls w2 =
    wgCalls w1 ++
    (if webgazerInitialized w1
     then if webgazerInitialized w
          then [stopCall variant]
          else [stopCall variant; stopCall variant]
     else if windowWebgazer w1 then [stopCall variant] else []).
Proof.
  intros Hr He Hn w1 w2.
  assert (Hr1 : reachable variant dwellTime w1)
    by (apply reachable_run, Hr).
  apply reachable_inv in Hr as HI. apply reachable_inv in Hr1 as HI1.
  pose proof (inv_cleanup_off _ _ _ HI He) as Hc.
  set (w0 := step variant dwellTime (SetEnabled true) w).
  assert (E0 : w0 = useEffect variant true (commit w))
    by (apply step_setEnabled; now rewrite He).
  assert (K : enabled w0 = true /\
              webgazerInitialized w0 = webgazerInitialized w /\
              (cleanup w0 = CleanupInit <-> webgazerInitialized w = false)).
  { rewrite E0. exact (enable_effect variant (commit w) Hc). }
  destruct K as (K1 & K2 & K3).
  assert (EK : EffectKept w0 w1)
    by exact (run_effect variant dwellTime tr w0 Hn).
  destruct EK as (E1 & E2 & _ & _ & E5 & _).
  assert (He1 : enabled w1 = true) by congruence.
  split; [exact He1|].
  assert (E2' : w2 = useEffect variant false (commit w1))
    by (apply step_setEnabled; now rewrite He1).
  assert (C : wgCalls (useEffect variant false (commit w1)) =
              wgCalls w1 ++
              stopCalls (stopCall variant)
                (match cleanup w1 with
                 | CleanupInit => windowWebgazer w1
                 | _ => false
                 end) ++
              stopCalls (stopCall variant)
                (windowWebgazer w1 && webgazerInitialized w1))
    by exact (proj1 (disable_calls variant (commit w1))).
  clearbody w2 w1 w0. rewrite E2', C. f_equal. rewrite E2.
  destruct (webgazerInitialized w1) eqn:F1.
  - rewrite (inv_flag _ _ _ HI1 F1). cbn.
    destruct (webgazerInitialized w) eqn:F.
    + destruct (cleanup w0) eqn:Ec; try reflexivity.
      discriminate (proj1 K3 eq_refl).
    + rewrite (proj2 K3 eq_refl). reflexivity.
  - assert (F0 : webgazerInitialized w0 = false).
    { destruct (webgazerInitialized w0); [|reflexivity].
      specialize (E5 eq_refl). congruence. }
    rewrite (proj2 K3 (eq_trans (eq_sym K2) F0)), andb_false_r. cbn.
    now rewrite app_nil_r.
Qed.
(* ===================================================================== *)
(** ** The mouse listener and the cursor *)
(* ===================================================================== *)

Lemma useEffect_cursor (variant : Variant) (b : bool) (w : World) :
  let w' := useEffect variant b w in
  enabled w' = b /\
  cursorHidden w' =
    match variant with PauseVariant => cursorHidden w | MouseVariant => b end.
Proof.
  unfold useEffect. rewrite runCleanup_shape. destruct b.
  - unfold enabledBranch.
    destruct variant, (cleanup w); cbn;
      repeat match goal with
             | |- context [if ?c then _ else _] => destruct c
             end; cbn; auto.
  - rewrite disabledBranch_shape. destruct variant, (cleanup w); cbn; auto.
Qed.

(** X8: in [src/unnamed/part_002] the [mousemove] listener is registered and
    the cursor is hidden exactly while the hook is enabled: every enable
    registers the listener and hides the cursor, every disable removes the
    listener and shows the cursor again, and nothing else touches either.
    [src/hooks/useEyeTracking.ts] never registers a listener, never hides the
    cursor and is never in pointer mode. *)
Theorem X8_listener_and_cursor_follow_enabled (variant : Variant)
    (dwellTime : Z) (w : World) :
  reachable variant dwellTime w ->
  match variant with
  | MouseVariant => mouseListener w = enabled w /\ cursorHidden w = enabled w
  | PauseVariant =>
      mouseListener w = false /\ cursorHidden w = false /\
      isUsingMouse w = false
  end.
Proof.
  intros Hr.
  assert (C : cursorHidden w =
              match variant with
              | PauseVariant => false
              | MouseVariant => enabled w
              end).
  { destruct Hr as [tr ->].
    assert (G : forall x,
               cursorHidden x =
                 match variant with
                 | PauseVariant => false
                 | MouseVariant => enabled x
                 end ->
               cursorHidden (run variant dwellTime tr x) =
                 match variant with
                 | PauseVariant => false
                 | MouseVariant => enabled (run variant dwellTime tr x)
                 end).
    { induction tr as [|i tr IH]; cbn [run]; intros x Hx; [exact Hx|].
      apply IH.
      destruct (match i with SetEnabled _ => true | _ => false end) eqn:Ei.
      - destruct i as [b| | | | | | | |]; try discriminate. cbn [step].
        destruct (Bool.eqb b (enabled x)); [exact Hx|].
        destruct (useEffect_cursor variant b (commit x)) as [U1 U2].
        rewrite U1, U2. destruct variant; auto.
      - destruct (step_effect variant dwellTime i x) as (E1 & _ & _ & E4 & _).
        { destruct i; try exact I. discriminate. }
        rewrite E1, E4. exact Hx. }
    apply G. now destruct variant. }
  apply reachable_inv in Hr as HI.
  destruct variant.
  - destruct (inv_pause _ _ _ HI eq_refl) as (P1 & P2 & _).
    rewrite (inv_mouse_state _ _ _ HI). auto.
  - split; [exact (inv_listener _ _ _ HI eq_refl)|exact C].
Qed.
(* ===================================================================== *)
(** ** What target resolution returns *)
(* ===================================================================== *)

Lemma closest_result (el : Element) :
  match closest el with Some c => hasAttribute c = true | None => True end.
Proof.
  revert el. fix IH 1. intros [n [s|] h [q|]]; cbn;
    try exact I; try reflexivity.
  apply IH.
Qed.

Lemma closest_tagged (el c : Element) :
  closest el = Some c -> hasAttribute c = true.
Proof. intros H. pose proof (closest_result el) as R. now rewrite H in R. Qed.

Lemma closestLoop_tagged (l : list Element) (c : Element) :
  closestLoop l = Some c -> hasAttribute c = true.
Proof.
  induction l as [|a l IH]; cbn; [discriminate|].
  destruct (isHTMLElement a); [|exact IH].
  destruct (closest a) as [c'|] eqn:E; [|exact IH].
  intros [= <-]. exact (closest_tagged a c' E).
Qed.

Lemma closestLoop_none (l : list Element) :
  closestLoop l = None <->
  forall el, In el l -> isHTMLElement el = true -> closest el = None.
Proof.
  induction l as [|a l IH]; cbn.
  - split; [intros _ el []|reflexivity].
  - destruct (isHTMLElement a) eqn:Eh.
    + destruct (closest a) as [c|] eqn:Ec.
      * split; [discriminate|]. intros H.
        specialize (H a (or_introl eq_refl) Eh). congruence.
      * rewrite IH. split.
        -- intros H el [<-|Hin] Hh; auto.
        -- intros H el Hin Hh. apply H; auto.
    + rewrite IH. split.
      * intros H el [<-|Hin] Hh; [congruence|auto].
      * intros H el Hin Hh. apply H; auto.
Qed.

Lemma find_tagged_none (l : list Element) :
  find hasAttribute l = None <-> forall el, In el l -> hasAttribute el = false.
Proof.
  split; [apply find_none|].
  induction l as [|a l IH]; cbn; intros H; [reflexivity|].
  rewrite (H a (or_introl eq_refl)). apply IH. intros el Hin. apply H. now right.
Qed.

Lemma firstProbeHit_none (doc : Document) (points : list Point) :
  firstProbeHit doc points = None <->
  forall q, In q points -> forall el, In el (doc q) -> hasAttribute el = false.
Proof.
  induction points as [|pt rest IH]; cbn.
  - split; [intros _ q []|reflexivity].
  - destruct (find hasAttribute (doc pt)) as [b|] eqn:E.
    + split; [discriminate|]. intros H.
      apply find_some in E as [Hin Hb].
      rewrite (H pt (or_introl eq_refl) b Hin) in Hb. discriminate.
    + rewrite IH. rewrite find_tagged_none in E. split.
      * intros H q [Hq|Hq]; [subst q; exact E|exact (H q Hq)].
      * intros H q Hq. apply H. now right.
Qed.

(** X9: what target resolution can return.  A resolved button always carries
    the [data-symbol-id] attribute, so that the dwell logic always reads an
    id from it.  And resolution finds nothing, which is what ends a dwell,
    exactly when no element with the attribute is hit at the point or at any
    of its four probe points and no [HTMLElement] hit at the point has an
    ancestor with the attribute. *)
Theorem X9_resolution_result (doc : Document) (p : Point) :
  (forall b, resolveButton doc p = Some b ->
             hasAttribute b = true /\ resolveId doc p = getAttribute b /\
             exists T, resolveId doc p = Some T) /\
  (resolveButton doc p = None <->
   (forall q, In q (p :: pointsToCheck p) ->
              forall el, In el (doc q) -> hasAttribute el = false) /\
   (forall el, In el (doc p) -> isHTMLElement el = true ->
               closest el = None)).
Proof.
  split.
  - intros b Hb.
    assert (Ht : hasAttribute b = true).
    { rewrite resolveButton_cases in Hb.
      destruct (find hasAttribute (doc p)) as [el|] eqn:E1.
      - injection Hb as <-. now apply find_some in E1.
      - destruct (firstProbeHit doc (pointsToCheck p)) as [c|] eqn:E2.
        + injection Hb as <-. exact (firstProbeHit_tagged doc _ _ E2).
        + exact (closestLoop_tagged _ _ Hb). }
    unfold resolveId. rewrite Hb. repeat split; auto.
    unfold hasAttribute in Ht. destruct (getAttribute b) as [T|];
      [now exists T|discriminate].
  - rewrite resolveButton_cases.
    destruct (find hasAttribute (doc p)) as [el|] eqn:E1.
    + split; [discriminate|]. intros [H _].
      apply find_some in E1 as [Hin He].
      rewrite (H p (or_introl eq_refl) el Hin) in He. discriminate.
    + rewrite find_tagged_none in E1.
      destruct (firstProbeHit doc (pointsToCheck p)) as [c|] eqn:E2.
      * split; [discriminate|]. intros [H _].
        assert (N : firstProbeHit doc (pointsToCheck p) = None).
        { apply firstProbeHit_none. intros q Hq. apply H. now right. }
        congruence.
      * rewrite firstProbeHit_none in E2. rewrite closestLoop_none.
        split.
        -- intros H. split; [|exact H].
           intros q [Hq|Hq]; [subst q; exact E1|exact (E2 q Hq)].
        -- intros [_ H]. exact H.
Qed.
(* ===================================================================== *)
(** ** The vocabulary tree *)
(* ===================================================================== *)

Section Vocabulary.

Import Types.

(** Induction on a symbol, with the property known for its children. *)
Lemma AACSymbol_children_ind (P : AACSymbol -> Prop) :
  (forall i l e c t k ch p r,
      (forall cs, ch = Some cs -> Forall P cs) ->
      P (mkAACSymbol i l e c t k ch p r)) ->
  forall s, P s.
Proof.
  intros H. fix IH 1. intros [i l e c t k ch p r]. apply H.
  destruct ch as [cs0|]; [|intros cs E; discriminate E].
  assert (F : Forall P cs0).
  { clear H. revert cs0. fix F 1.
    intros [|x rest]; constructor; [apply IH|apply F]. }
  intros cs E. injection E as E. rewrite <- E. exact F.
Qed.

(** The equations the three tree functions are written by in the source. *)
Lemma findInItem_eq (id0 : string) (item : AACSymbol) :
  App.findInItem id0 item =
  if String.eqb (id item) id0 then Some item
  else match children item with
       | Some cs => App.findSymbolById id0 cs
       | None => None
       end.
Proof.
  destruct item as [i l e c t k ch p r]. cbn.
  destruct (String.eqb i id0); [reflexivity|].
  destruct ch as [cs|]; [|reflexivity].
  induction cs as [|x cs IH]; cbn; [reflexivity|]. now rewrite IH.
Qed.

Lemma findSymbolById_cons (id0 : string) (item : AACSymbol)
    (rest : list AACSymbol) :
  App.findSymbolById id0 (item :: rest) =
  if String.eqb (id item) id0 then Some item
  else match children item with
       | Some cs =>
           match App.findSymbolById id0 cs with
           | Some found => Some found
           | None => App.findSymbolById id0 rest
           end
       | None => App.findSymbolById id0 rest
       end.
Proof.
  cbn [App.findSymbolById]. rewrite findInItem_eq.
  destruct (String.eqb (id item) id0); [reflexivity|].
  now destruct (children item).
Qed.

Lemma symbolsOf_eq (item : AACSymbol) :
  App.symbolsOf item =
  item :: match children item with
          | Some cs => App.allSymbols cs
          | None => []
          end.
Proof.
  destruct item as [i l e c t k ch p r]. cbn. f_equal;
    destruct ch as [cs|]; try reflexivity.
  all: induction cs as [|x cs IH]; cbn; [reflexivity|]; now rewrite IH.
Qed.

Lemma flattenItem_eq (item : AACSymbol) :
  GeminiService.flattenItem item =
  GeminiService.mkFlatEntry (id item) (label item) (keywords item) ::
  match children item with
  | Some cs => GeminiService.flattenVocabulary cs
  | None => []
  end.
Proof.
  destruct item as [i l e c t k ch p r]. cbn. f_equal;
    destruct ch as [cs|]; try reflexivity.
  all: induction cs as [|x cs IH]; cbn; [reflexivity|]; now rewrite IH.
Qed.

Lemma find_app_first (A : Type) (f : A -> bool) (l1 l2 : list A) :
  find f (l1 ++ l2) =
  match find f l1 with Some x => Some x | None => find f l2 end.
Proof.
  induction l1 as [|a l1 IH]; cbn; [reflexivity|].
  destruct (f a); [reflexivity|exact IH].
Qed.

Lemma findInItem_find (id0 : string) (item : AACSymbol) :
  App.findInItem id0 item =
  find (fun s => String.eqb (id s) id0) (App.symbolsOf item).
Proof.
  induction item as [i l e c t k ch p r IH] using AACSymbol_children_ind.
  rewrite findInItem_eq, symbolsOf_eq. cbn.
  destruct (String.eqb i id0); [reflexivity|].
  destruct ch as [cs|]; [|reflexivity].
  specialize (IH cs eq_refl).
  induction IH as [|x cs Hx _ IHcs]; cbn; [reflexivity|].
  now rewrite find_app_first, Hx, IHcs.
Qed.

Lemma findSymbolById_find (id0 : string) (list : list AACSymbol) :
  App.findSymbolById id0 list =
  find (fun s => String.eqb (id s) id0) (App.allSymbols list).
Proof.
  induction list as [|item rest IH]; cbn; [reflexivity|].
  now rewrite find_app_first, findInItem_find, IH.
Qed.

Lemma flattenItem_map (item : AACSymbol) :
  GeminiService.flattenItem item =
  map (fun s => GeminiService.mkFlatEntry (id s) (label s) (keywords s))
      (App.symbolsOf item).
Proof.
  induction item as [i l e c t k ch p r IH] using AACSymbol_children_ind.
  rewrite flattenItem_eq, symbolsOf_eq. cbn. f_equal.
  destruct ch as [cs|]; [|reflexivity].
  specialize (IH cs eq_refl).
  induction IH as [|x cs Hx _ IHcs]; cbn; [reflexivity|].
  now rewrite map_app, Hx, IHcs.
Qed.

Lemma flattenVocabulary_map (items : list AACSymbol) :
  GeminiService.flattenVocabulary items =
  map (fun s => GeminiService.mkFlatEntry (id s) (label s) (keywords s))
      (App.allSymbols items).
Proof.
  induction items as [|item rest IH]; cbn; [reflexivity|].
  now rewrite map_app, flattenItem_map, IH.
Qed.

End Vocabulary.
Section Lookup.

Import Types.

Lemma find_map_entry (A B : Type) (g : A -> B) (f : B -> bool) (l : list A) :
  find f (map g l) = option_map g (find (fun a => f (g a)) l).
Proof.
  induction l as [|a l IH]; cbn; [reflexivity|].
  destruct (f (g a)); [reflexivity|exact IH].
Qed.

(** X10: [findSymbolById] and [flattenVocabulary] walk the tree in the same
    order, depth first, an item before its children.  Looking an id up
    gives the symbol behind the first flattened entry that has the id, and
    gives nothing exactly when no flattened entry has it; the symbol found
    has the id asked for. *)
Theorem X10_lookup_follows_flattening (id0 : string) (list : list AACSymbol) :
  option_map
    (fun s => GeminiService.mkFlatEntry (id s) (label s) (keywords s))
    (App.findSymbolById id0 list) =
  find (fun e => String.eqb (GeminiService.entryId e) id0)
       (GeminiService.flattenVocabulary list) /\
  (App.findSymbolById id0 list = None <->
   ~ In id0 (map GeminiService.entryId (GeminiService.flattenVocabulary list))) /\
  (forall s, App.findSymbolById id0 list = Some s -> id s = id0).
Proof.
  rewrite flattenVocabulary_map, findSymbolById_find, find_map_entry.
  split; [reflexivity|]. rewrite map_map. cbn. split.
  - split.
    + intros Hn Hin. apply in_map_iff in Hin as (s & Hs & Hin).
      pose proof (find_none _ _ Hn s Hin) as Hf. cbn in Hf.
      rewrite Hs, String.eqb_refl in Hf. discriminate.
    + intros Hn.
      destruct (find _ (App.allSymbols list)) as [s|] eqn:E; [|reflexivity].
      exfalso. apply Hn. apply find_some in E as [Hin He].
      apply String.eqb_eq in He. apply in_map_iff. now exists s.
  - intros s Hs. apply find_some in Hs as [_ He]. now apply String.eqb_eq.
Qed.

(** X11: when the ids of a tree are pairwise different, every symbol of the
    tree is found under its own id: looking up the id of a symbol returns
    that very symbol, wherever it stands in the tree. *)
Theorem X11_lookup_finds_each_symbol (list : list AACSymbol) (s : AACSymbol) :
  NoDup (map GeminiService.entryId (GeminiService.flattenVocabulary list)) ->
  In s (App.allSymbols list) ->
  App.findSymbolById (id s) list = Some s.
Proof.
  rewrite flattenVocabulary_map, findSymbolById_find, map_map. cbn.
  generalize (App.allSymbols list). intros l.
  induction l as [|a l IH]; cbn; intros Hnd Hin; [destruct Hin|].
  inversion Hnd as [|x xs Hx Hnd']; subst.
  destruct Hin as [->|Hin].
  - now rewrite String.eqb_refl.
  - destruct (String.eqb (id a) (id s)) eqn:E; [|now apply IH].
    apply String.eqb_eq in E. exfalso. apply Hx. rewrite E.
    apply in_map_iff. now exists s.
Qed.

End Lookup.
(* ===================================================================== *)
(** ** The shipped vocabulary and the cards of the board *)
(* ===================================================================== *)

Section Cards.

Import Types App.
Local Open Scope string_scope.
Local Open Scope list_scope.

Lemma distinct_NoDup (l : list string) : distinct l = true -> NoDup l.
Proof.
  induction l as [|x l IH]; cbn; intros H; constructor;
    apply andb_true_iff in H as [H1 H2]; [|now apply IH].
  intros Hin. apply negb_true_iff in H1.
  assert (E : existsb (String.eqb x) l = true)
    by (apply existsb_exists; exists x; split; [exact Hin|apply String.eqb_refl]).
  congruence.
Qed.

Lemma find_unique_id (l : list AACSymbol) (s : AACSymbol) :
  NoDup (map id l) -> In s l ->
  find (fun x => String.eqb (id x) (id s)) l = Some s.
Proof.
  induction l as [|a l IH]; cbn; intros Hnd Hin; [destruct Hin|].
  inversion Hnd as [|x xs Hx Hnd']; subst.
  destruct Hin as [->|Hin].
  - now rewrite String.eqb_refl.
  - destruct (String.eqb (id a) (id s)) eqn:E; [|now apply IH].
    apply String.eqb_eq in E. exfalso. apply Hx. rewrite E.
    apply in_map_iff. now exists s.
Qed.

Lemma In_allSymbols (l : list AACSymbol) (s : AACSymbol) :
  In s (allSymbols l) <-> exists x, In x l /\ In s (symbolsOf x).
Proof.
  induction l as [|a l IH]; cbn.
  - split; [intros []|intros (x & [] & _)].
  - rewrite in_app_iff, IH. split.
    + intros [H|(x & Hx & Hs)]; [exists a; auto|exists x; auto].
    + intros (x & [<-|Hx] & Hs); [auto|right; exists x; auto].
Qed.

Lemma In_symbolsOf_self (s : AACSymbol) : In s (symbolsOf s).
Proof. rewrite symbolsOf_eq. now left. Qed.

Lemma top_level_known (l : list AACSymbol) (s : AACSymbol) :
  In s l -> In s (allSymbols l).
Proof.
  intros H. apply In_allSymbols. exists s. split; [exact H|].
  apply In_symbolsOf_self.
Qed.

(** The children of a symbol of a tree are symbols of the tree. *)
Lemma children_in_symbolsOf (item s c : AACSymbol) (cs : list AACSymbol) :
  In s (symbolsOf item) -> children s = Some cs -> In c cs ->
  In c (symbolsOf item).
Proof.
  revert s c cs.
  induction item as [i l e co t k ch p r IH] using AACSymbol_children_ind.
  intros s c cs Hs Hc Hin. rewrite symbolsOf_eq in Hs |- *. cbn in *.
  destruct Hs as [<-|Hs].
  - cbn in Hc. rewrite Hc. right. now apply top_level_known.
  - destruct ch as [cs0|]; [|destruct Hs]. right.
    apply In_allSymbols in Hs as (x & Hx & Hsx).
    apply In_allSymbols. exists x. split; [exact Hx|].
    specialize (IH cs0 eq_refl). rewrite Forall_forall in IH.
    exact (IH x Hx s c cs Hsx Hc Hin).
Qed.

Lemma children_known (l : list AACSymbol) (s c : AACSymbol)
    (cs : list AACSymbol) :
  In s (allSymbols l) -> children s = Some cs -> In c cs ->
  In c (allSymbols l).
Proof.
  intros Hs Hc Hin. apply In_allSymbols in Hs as (x & Hx & Hsx).
  apply In_allSymbols. exists x. split; [exact Hx|].
  exact (children_in_symbolsOf x s c cs Hsx Hc Hin).
Qed.

(** The ids of the shipped vocabulary are pairwise different and none is
    empty; the lists of children have no repeated id either. *)
Lemma VOCABULARY_ids :
  NoDup (map id (allSymbols Constants.VOCABULARY)) /\
  Forall (fun s => id s <> "") (allSymbols Constants.VOCABULARY).
Proof.
  split.
  - apply distinct_NoDup. vm_compute. reflexivity.
  - apply Forall_forall. intros s Hs E.
    assert (H : forallb (fun x => negb (String.eqb (id x) ""))
                        (allSymbols Constants.VOCABULARY) = true)
      by (vm_compute; reflexivity).
    rewrite forallb_forall in H. specialize (H s Hs).
    rewrite E in H. discriminate.
Qed.

(** No [relatedIds] entry of the shipped vocabulary is the id of a symbol. *)
Lemma VOCABULARY_relatedIds (s : AACSymbol) (ids : list string) :
  In s (allSymbols Constants.VOCABULARY) -> relatedIds s = Some ids ->
  unknownIds ids = true.
Proof.
  intros Hs Hr.
  assert (H : forallb (fun x => match relatedIds x with
                                | Some l => unknownIds l
                                | None => true
                                end)
                      (allSymbols Constants.VOCABULARY) = true)
    by (vm_compute; reflexivity).
  rewrite forallb_forall in H. specialize (H s Hs). now rewrite Hr in H.
Qed.

Lemma lookupAll_unknown (ids : list string) :
  unknownIds ids = true -> lookupAll ids = [].
Proof.
  unfold unknownIds.
  induction ids as [|r ids IH]; cbn [forallb lookupAll]; [reflexivity|].
  intros H. apply andb_true_iff in H as [H1 H2].
  destruct (findSymbolById r Constants.VOCABULARY); [discriminate|now apply IH].
Qed.

Lemma lookupAll_known (ids : list string) :
  Forall (fun s => In s (allSymbols Constants.VOCABULARY)) (lookupAll ids).
Proof.
  induction ids as [|r ids IH]; cbn [lookupAll]; [constructor|].
  destruct (findSymbolById r Constants.VOCABULARY) as [s|] eqn:E; [|exact IH].
  constructor; [|exact IH].
  rewrite findSymbolById_find in E. now apply find_some in E.
Qed.

End Cards.
(* ===================================================================== *)
(** ** The suggestions shown *)
(* ===================================================================== *)

Section Suggestions.

Import Types App.
Local Open Scope string_scope.
Local Open Scope list_scope.

Lemma mapSet_keys (k : string) (v : AACSymbol) (m : list (string * AACSymbol)) :
  map fst (mapSet k v m) =
  if existsb (String.eqb k) (map fst m) then map fst m else map fst m ++ [k].
Proof.
  induction m as [|[k' v'] m IH]; cbn; [reflexivity|].
  rewrite (String.eqb_sym k k').
  destruct (String.eqb k' k) eqn:E; cbn; [reflexivity|].
  rewrite IH. now destruct (existsb (String.eqb k) (map fst m)).
Qed.

Lemma mapSet_In (k : string) (v : AACSymbol) (m : list (string * AACSymbol))
    (k0 : string) (v0 : AACSymbol) :
  In (k0, v0) (mapSet k v m) -> (k0 = k /\ v0 = v) \/ In (k0, v0) m.
Proof.
  induction m as [|[k' v'] m IH]; cbn.
  - intros [H|[]]. injection H as <- <-. auto.
  - destruct (String.eqb k' k) eqn:E; cbn.
    + apply String.eqb_eq in E. subst k'.
      intros [H|H]; [injection H as <- <-; auto|auto].
    + intros [H|H]; [auto|]. destruct (IH H) as [?|?]; auto.
Qed.

Lemma mapSet_keyed (v : AACSymbol) (m : list (string * AACSymbol)) :
  Keyed m -> Keyed (mapSet (id v) v m).
Proof.
  intros [Hnd Hk]. split.
  - rewrite mapSet_keys.
    destruct (existsb (String.eqb (id v)) (map fst m)) eqn:E; [exact Hnd|].
    apply NoDup_app; [exact Hnd|repeat constructor; intros []|].
    intros k Hin [Ek|[]]. subst k.
    assert (X : existsb (String.eqb (id v)) (map fst m) = true)
      by (apply existsb_exists; exists (id v); split;
          [exact Hin|apply String.eqb_refl]).
    congruence.
  - intros k0 v0 H. apply mapSet_In in H as [[-> ->]|H]; [reflexivity|].
    now apply Hk.
Qed.

Lemma mapSet_has (k : string) (v : AACSymbol) (m : list (string * AACSymbol)) :
  In k (map fst (mapSet k v m)) /\
  forall k0, In k0 (map fst m) -> In k0 (map fst (mapSet k v m)).
Proof.
  rewrite mapSet_keys.
  destruct (existsb (String.eqb k) (map fst m)) eqn:E.
  - split; [|auto]. apply existsb_exists in E as (x & Hx & Ex).
    apply String.eqb_eq in Ex. now subst x.
  - split; [|intros k0 H]; apply in_or_app; [right; now left|now left].
Qed.

Lemma setAll_facts (items : list AACSymbol) (m : list (string * AACSymbol)) :
  Keyed m ->
  Keyed (setAll items m) /\
  (forall k v, In (k, v) (setAll items m) -> In v items \/ In (k, v) m) /\
  (forall s, In s items -> In (id s) (map fst (setAll items m))) /\
  (forall k, In k (map fst m) -> In k (map fst (setAll items m))).
Proof.
  unfold setAll. revert m.
  induction items as [|x items IH]; cbn [fold_left]; intros m HK.
  - split; [exact HK|]. split; [auto|]. split; [intros s []|auto].
  - destruct (IH _ (mapSet_keyed x m HK)) as (I1 & I2 & I3 & I4).
    destruct (mapSet_has (id x) x m) as [M1 M2].
    split; [exact I1|]. split; [|split].
    + intros k v H. destruct (I2 k v H) as [?|H']; [left; now right|].
      apply mapSet_In in H' as [[-> ->]|?]; [left; now left|now right].
    + intros s [<-|Hs]; [apply I4, M1|now apply I3].
    + intros k Hk. apply I4, M2, Hk.
Qed.

Lemma map_id_values (m : list (string * AACSymbol)) :
  Keyed m -> map id (map snd m) = map fst m.
Proof.
  intros [_ Hk]. rewrite map_map.
  induction m as [|[k v] m IH]; cbn; [reflexivity|].
  rewrite (Hk k v (or_introl eq_refl)). f_equal. apply IH.
  intros k0 v0 H. apply Hk. now right.
Qed.

Lemma merged_facts (manual ai : list AACSymbol) :
  let m := setAll ai (setAll manual []) in
  Keyed m /\
  (forall s, In s (map snd m) -> In s manual \/ In s ai) /\
  (forall s, In s manual \/ In s ai -> In (id s) (map fst m)).
Proof.
  assert (K0 : Keyed []) by (split; [constructor|intros k v []]).
  destruct (setAll_facts manual [] K0) as (M1 & M2 & M3 & _).
  destruct (setAll_facts ai _ M1) as (A1 & A2 & A3 & A4).
  split; [exact A1|]. split.
  - intros s Hs. apply in_map_iff in Hs as ([k v] & <- & Hin). cbn.
    destruct (A2 k v Hin) as [?|H]; [now right|].
    destruct (M2 k v H) as [?|[]]. now left.
  - intros s [Hs|Hs]; [apply A4, M3, Hs|apply A3, Hs].
Qed.

(** X12: the list [finalSuggestions], built by passing the manual and the
    predicted suggestions through a [Map] keyed by id, shows no id twice
    (so its React keys [sugg-<id>] are unique), shows nothing but manual or
    predicted suggestions, and shows the id of every one of them. *)
Theorem X12_suggestions_are_merged_by_id (a : AppState) :
  NoDup (map id (finalSuggestions a)) /\
  (forall s, In s (finalSuggestions a) ->
             In s (manualSuggestions a) \/ In s (aiSuggestions a)) /\
  (forall s, In s (manualSuggestions a) \/ In s (aiSuggestions a) ->
             In (id s) (map id (finalSuggestions a))).
Proof.
  unfold finalSuggestions.
  destruct (merged_facts (manualSuggestions a) (aiSuggestions a))
    as (K & F1 & F2).
  rewrite (map_id_values _ K). split; [apply K|]. split; [exact F1|exact F2].
Qed.

End Suggestions.
(* ===================================================================== *)
(** ** Every state of the board *)
(* ===================================================================== *)

Section BoardInvariant.

Import Types App.
Local Open Scope string_scope.
Local Open Scope list_scope.

Lemma handleSymbolClick_known (s : AACSymbol) (a : AppState) :
  In s (allSymbols Constants.VOCABULARY) -> Known a ->
  Known (handleSymbolClick s a).
Proof.
  intros Hs (K1 & K2 & K3 & K4). unfold handleSymbolClick.
  destruct (type s).
  - repeat split; cbn; auto. now intros c [= <-].
  - assert (E : match relatedIds s with
                | Some (r :: ids) =>
                    set_manualSuggestions (lookupAll (r :: ids))
                      (set_sentence (sentence a ++ [s]) a)
                | _ => set_manualSuggestions [] (set_sentence (sentence a ++ [s]) a)
                end = set_manualSuggestions [] (set_sentence (sentence a ++ [s]) a)).
    { destruct (relatedIds s) as [[|r ids]|] eqn:Er; try reflexivity.
      now rewrite (lookupAll_unknown _ (VOCABULARY_relatedIds s _ Hs Er)). }
    cbn zeta. rewrite E. repeat split; cbn; auto.
    apply Forall_app. split; [exact K2|]. now constructor.
Qed.

Lemma Known_sentence (l : list AACSymbol) (a : AppState) :
  Known a -> Forall (fun s => In s (allSymbols Constants.VOCABULARY)) l ->
  Known (Board.predictionEffect
           (set_generatedSentence "" (set_sentence l a))).
Proof.
  intros (K1 & K2 & K3 & K4) Hl. unfold Board.predictionEffect. cbn.
  destruct l; repeat split; cbn; auto.
Qed.

Lemma shown_known (a : AppState) (s : AACSymbol) :
  Known a -> In s (finalSuggestions a) \/ In s (itemsDisplay a) ->
  In s (allSymbols Constants.VOCABULARY).
Proof.
  intros (K1 & K2 & K3 & K4) [H|H].
  - destruct (merged_facts (manualSuggestions a) (aiSuggestions a))
      as (_ & F & _).
    destruct (F s H) as [Hm|Ha]; [rewrite K4 in Hm; destruct Hm|].
    rewrite Forall_forall in K3. now apply K3.
  - unfold itemsDisplay in H. destruct (currentCategory a) as [c|] eqn:Ec.
    + destruct (children c) as [cs|] eqn:Ecs; [|destruct H].
      exact (children_known _ c s cs (K1 c eq_refl) Ecs H).
    + now apply top_level_known.
Qed.


Lemma predictionEffect_known (a : AppState) :
  Known a -> Known (Board.predictionEffect a).
Proof.
  intros HK. unfold Board.predictionEffect.
  destruct (sentence a) eqn:E; [|exact HK].
  destruct HK as (K1 & K2 & K3 & K4). repeat split; cbn; auto.
Qed.

Lemma clickCard_known (s : AACSymbol) (a : AppState) :
  In s (allSymbols Constants.VOCABULARY) -> Known a ->
  Known (Board.clickCard s a).
Proof.
  intros Hs HK. unfold Board.clickCard.
  pose proof (handleSymbolClick_known s a Hs HK) as H.
  destruct (type s); [exact H|now apply predictionEffect_known].
Qed.

Lemma goBack_known (a : AppState) : Known a -> Known (goBack a).
Proof.
  intros (K1 & K2 & K3 & K4). repeat split; cbn; auto. discriminate.
Qed.

Lemma Forall_splice1 (A : Type) (P : A -> Prop) (n : nat) (l : list A) :
  Forall P l -> Forall P (splice1 n l).
Proof.
  intros H. unfold splice1. rewrite <- (firstn_skipn n l) in H.
  apply Forall_app in H as [H1 H2]. apply Forall_app. split; [exact H1|].
  destruct (skipn n l) as [|x rest] eqn:E.
  - assert (E' : skipn (S n) l = []).
    { apply skipn_all_iff. apply skipn_all_iff in E. lia. }
    rewrite E'. constructor.
  - assert (E' : skipn (S n) l = rest).
    { change (S n) with (1 + n)%nat. rewrite <- skipn_skipn, E. reflexivity. }
    rewrite E'. now inversion H2.
Qed.

Lemma Forall_removelast (A : Type) (P : A -> Prop) (l : list A) :
  Forall P l -> Forall P (removelast l).
Proof.
  induction l as [|x l IH]; cbn; intros H; [constructor|].
  inversion H; subst. destruct l; [constructor|]. constructor; auto.
Qed.

Lemma Known_same (a b : AppState) :
  currentCategory b = currentCategory a -> sentence b = sentence a ->
  aiSuggestions b = aiSuggestions a ->
  manualSuggestions b = manualSuggestions a -> Known a -> Known b.
Proof. unfold Known. intros -> -> -> ->. auto. Qed.

Lemma step_known (e : Board.Event) (a : AppState) :
  Known a -> Known (Board.step e a).
Proof.
  intros HK.
  assert (Pred : forall ids, Known (applyPrediction ids a)).
  { intros ids. destruct HK as (K1 & K2 & K3 & K4).
    repeat split; cbn; auto. apply lookupAll_known. }
  assert (Same : forall b, currentCategory b = currentCategory a ->
                           sentence b = sentence a ->
                           aiSuggestions b = aiSuggestions a ->
                           manualSuggestions b = manualSuggestions a ->
                           Known b).
  { intros b E1 E2 E3 E4. now apply (Known_same a). }
  unfold Board.step. destruct (view a).
  - destruct e; auto; now apply Same.
  - destruct e as [ | |n|n| |x|x|x|x|x| |index| | | |wavBlob|naturalText|ids];
      cbn [Board.onBoard].
    + exact HK.
    + now apply Same.
    + destruct (nth_error (finalSuggestions a) n) as [s|] eqn:E; [|exact HK].
      apply clickCard_known; [|exact HK].
      apply (shown_known a); [exact HK|]. left. exact (nth_error_In _ _ E).
    + destruct (nth_error (itemsDisplay a) n) as [s|] eqn:E; [|exact HK].
      apply clickCard_known; [|exact HK].
      apply (shown_known a); [exact HK|]. right. exact (nth_error_In _ _ E).
    + destruct (currentCategory a); [now apply goBack_known|exact HK].
    + unfold handleTouchStart. destruct (currentCategory a) eqn:Ec;
        [|exact HK]. now apply Same.
    + unfold handleTouchEnd. destruct (currentCategory a) eqn:Ec; [|exact HK].
      cbn zeta. destruct (_ <? _)%Z; [now apply goBack_known|exact HK].
    + unfold handleMouseDown. destruct (currentCategory a) eqn:Ec;
        [|exact HK]. now apply Same.
    + exact HK.
    + unfold handleMouseUp. destruct (currentCategory a) eqn:Ec; [|exact HK].
      destruct (negb (isDraggingRef a)); [exact HK|]. cbn zeta.
      destruct (_ <? _)%Z; [apply goBack_known|]; now apply Same.
    + now apply Same.
    + destruct (index <? List.length (sentence a))%nat; [|exact HK].
      apply Known_sentence; [exact HK|].
      apply Forall_splice1. apply HK.
    + destruct (sentence a) as [|x l] eqn:Es; [exact HK|].
      unfold handleBackspace. rewrite Es. rewrite <- Es.
      apply Known_sentence; [exact HK|].
      apply Forall_removelast. apply HK.
    + destruct HK as (K1 & K2 & K3 & K4).
      unfold Board.predictionEffect, clearSentence. cbn.
      repeat split; cbn; auto.
    + now apply Same.
    + destruct (sentence a), wavBlob; try exact HK; now apply Same.
    + now apply Same.
    + apply Pred.
Qed.

Lemma reachable_known (a : AppState) : Board.reachable a -> Known a.
Proof.
  intros [es ->].
  assert (G : forall x, Known x -> Known (Board.run es x)).
  { induction es as [|e es IH]; cbn [Board.run]; intros x Hx; [exact Hx|].
    apply IH, step_known, Hx. }
  apply G. repeat split; cbn; auto. discriminate.
Qed.

(** The top level of the shipped vocabulary, and the children of each of
    its symbols, show no id twice. *)
Lemma VOCABULARY_siblings :
  NoDup (map id Constants.VOCABULARY) /\
  forall s cs, In s (allSymbols Constants.VOCABULARY) ->
               children s = Some cs -> NoDup (map id cs).
Proof.
  split; [apply distinct_NoDup; vm_compute; reflexivity|].
  intros s cs Hs Hc.
  assert (H : forallb (fun x => match children x with
                                | Some l => distinct (map id l)
                                | None => true
                                end)
                      (allSymbols Constants.VOCABULARY) = true)
    by (vm_compute; reflexivity).
  rewrite forallb_forall in H. specialize (H s Hs). rewrite Hc in H.
  now apply distinct_NoDup.
Qed.

(** X13: every card of the board is a dwell target the hook can select.
    In every state the board can reach, each card (of the suggestions and of
    the grid) shows a symbol whose [data-symbol-id] is not empty and is the
    id under which the vocabulary holds that very symbol; and neither the
    suggestions nor the grid show an id twice. *)
Theorem X13_cards_carry_vocabulary_ids (a : AppState) :
  Board.reachable a ->
  Forall (fun s => id s <> "" /\
                   findSymbolById (id s) Constants.VOCABULARY = Some s)
         (finalSuggestions a ++ itemsDisplay a) /\
  NoDup (map id (finalSuggestions a)) /\
  NoDup (map id (itemsDisplay a)).
Proof.
  intros Hr. apply reachable_known in Hr.
  destruct VOCABULARY_ids as [Vnd Vne].
  split; [|split].
  - apply Forall_forall. intros s Hs. apply in_app_iff in Hs.
    pose proof (shown_known a s Hr Hs) as Hk. split.
    + rewrite Forall_forall in Vne. now apply Vne.
    + rewrite findSymbolById_find. now apply find_unique_id.
  - destruct (merged_facts (manualSuggestions a) (aiSuggestions a))
      as (K & _ & _).
    unfold finalSuggestions. rewrite (map_id_values _ K). apply K.
  - destruct VOCABULARY_siblings as [S1 S2]. unfold itemsDisplay.
    destruct Hr as (K1 & _).
    destruct (currentCategory a) as [c|]; [|exact S1].
    destruct (children c) as [cs|] eqn:Ec; [|constructor].
    exact (S2 c cs (K1 c eq_refl) Ec).
Qed.

(** X14: the suggestions that [handleSymbolClick] takes from [relatedIds]
    never show.  No [relatedIds] entry of the shipped vocabulary is the id
    of a symbol ('drink' and 'eat' name none), so the lookup finds nothing
    and [manualSuggestions] is empty in every state the board can reach:
    whatever is suggested comes from the prediction service. *)
Theorem X14_related_ids_suggest_nothing (a : AppState) :
  Board.reachable a ->
  manualSuggestions a = [] /\
  (forall s, In s (finalSuggestions a) -> In s (aiSuggestions a)) /\
  (forall s ids r, In s (allSymbols Constants.VOCABULARY) ->
                   relatedIds s = Some ids -> In r ids ->
                   findSymbolById r Constants.VOCABULARY = None).
Proof.
  intros Hr. apply reachable_known in Hr as (_ & _ & _ & K4).
  split; [exact K4|]. split.
  - intros s Hs.
    destruct (merged_facts (manualSuggestions a) (aiSuggestions a))
      as (_ & F & _).
    destruct (F s Hs) as [Hm|Ha]; [rewrite K4 in Hm; destruct Hm|exact Ha].
  - intros s ids r Hs Hi Hin.
    pose proof (VOCABULARY_relatedIds s ids Hs Hi) as H.
    unfold unknownIds in H. rewrite forallb_forall in H.
    specialize (H r Hin).
    now destruct (findSymbolById r Constants.VOCABULARY).
Qed.

End BoardInvariant.
(* ===================================================================== *)
(** ** The sentence strip and the swipe back *)
(* ===================================================================== *)

Section Strip.

Import Types App.
Local Open Scope string_scope.
Local Open Scope list_scope.

Lemma splice1_last (A : Type) (l : list A) (x : A) :
  splice1 (List.length l) (l ++ [x]) = l.
Proof.
  unfold splice1.
  rewrite firstn_app, firstn_all, Nat.sub_diag, app_nil_r.
  rewrite skipn_all2; [apply app_nil_r|]. rewrite length_app. cbn. lia.
Qed.

Lemma splice1_pop (A : Type) (l : list A) :
  l <> [] -> splice1 (pred (List.length l)) l = removelast l.
Proof.
  intros Hl. destruct (exists_last Hl) as (l' & x & ->).
  rewrite length_app, removelast_last. cbn.
  replace (pred (List.length l' + 1)) with (List.length l') by lia.
  apply splice1_last.
Qed.

(** X15: on the sentence strip, Backspace undoes the click on an item, and
    so does the X of the last symbol.  Clicking an item card appends the
    symbol to the sentence; either way of removing it again gives back the
    sentence as it was (and blanks the generated sentence).  On any
    non-empty sentence Backspace and the X of the last symbol do the
    same. *)
Theorem X15_backspace_undoes_item_click (symbol : AACSymbol) (a : AppState) :
  type symbol = ITEM ->
  let a' := handleSymbolClick symbol a in
  sentence a' = sentence a ++ [symbol] /\
  currentCategory a' = currentCategory a /\
  sentence (handleBackspace a') = sentence a /\
  sentence (removeFromSentence (List.length (sentence a)) a') = sentence a /\
  generatedSentence (handleBackspace a') = "" /\
  (sentence a <> [] ->
   handleBackspace a = removeFromSentence (pred (List.length (sentence a))) a).
Proof.
  intros Ht a'.
  assert (E : sentence a' = sentence a ++ [symbol] /\
              currentCategory a' = currentCategory a).
  { unfold a', handleSymbolClick. rewrite Ht.
    destruct (relatedIds symbol) as [[|r ids]|]; cbn; auto. }
  destruct E as [E1 E2]. clearbody a'.
  assert (N : sentence a' <> []) by (rewrite E1; now destruct (sentence a)).
  repeat split; auto.
  - unfold handleBackspace. destruct (sentence a') eqn:Es; [congruence|].
    cbn [sentence set_sentence set_generatedSentence].
    rewrite E1. apply removelast_last.
  - unfold removeFromSentence. cbn. rewrite E1. apply splice1_last.
  - unfold handleBackspace. destruct (sentence a') eqn:Es; [congruence|].
    reflexivity.
  - intros Hn. unfold handleBackspace, removeFromSentence.
    rewrite (splice1_pop _ _ Hn). now destruct (sentence a).
Qed.

(** X16: a swipe or a drag to the right, and nothing else, goes back.
    Inside a category, a touch that ends more than 80 px to the right of
    where it started closes the category (and leaves the sentence alone); a
    shorter one, or one to the left, changes nothing, and outside a category
    neither does anything.  A mouse drag does the same, unless the pointer
    has left the board in between. *)
Theorem X16_swipe_right_goes_back (a : AppState) (x0 x1 : Z) :
  let touch := handleTouchEnd x1 (handleTouchStart x0 a) in
  let drag := handleMouseUp x1 (handleMouseDown x0 a) in
  let left := handleMouseUp x1 (handleMouseLeave (handleMouseDown x0 a)) in
  (currentCategory a = None -> touch = a /\ drag = a) /\
  (currentCategory a <> None ->
   (x1 - x0 > 80 ->
    currentCategory touch = None /\ currentCategory drag = None /\
    sentence touch = sentence a /\ sentence drag = sentence a) /\
   (x1 - x0 <= 80 ->
    currentCategory touch = currentCategory a /\
    currentCategory drag = currentCategory a)) /\
  currentCategory left = currentCategory a /\ isDraggingRef left = false.
Proof.
  unfold handleTouchEnd, handleTouchStart, handleMouseUp, handleMouseDown,
    handleMouseLeave.
  destruct (currentCategory a) as [c|] eqn:Ec; cbn; rewrite ?Ec; cbn.
  - split; [discriminate|]. split; [|auto]. intros _. split; intros Hd.
    + assert (L : (80 <? x1 - x0)%Z = true) by (apply Z.ltb_lt; lia).
      rewrite L. cbn. auto.
    + assert (L : (80 <? x1 - x0)%Z = false) by (apply Z.ltb_ge; lia).
      rewrite L. cbn. auto.
  - split; [auto|]. split; [congruence|]. rewrite Ec. cbn. auto.
Qed.

End Strip.
(* ===================================================================== *)
(** ** The theorems at work on concrete pages *)
(* ===================================================================== *)

Lemma C1_witness :
  let w := running PauseVariant in
  let w0 := step PauseVariant 2000 (Gaze appleDoc (Some (mkPoint 10 10))) w in
  let w2 := step PauseVariant 2000 (Wait 500) (run PauseVariant 2000 holdApple w0) in
  staysOn PauseVariant 2000 "apple" holdApple w0 /\
  activations w2 = activations w ++ [appleButton] /\
  hoveredElement w2 = None.
Proof.
  intros w w0 w2.
  assert (S : staysOn PauseVariant 2000 "apple" holdApple w0)
    by (vm_compute; repeat split; reflexivity).
  split; [exact S|].
  assert (R : reachable PauseVariant 2000 w) by (exists started; reflexivity).
  assert (H5 : currentHoveredRef w <> Some "apple"%string)
    by (vm_compute; discriminate).
  assert (H6 : "apple"%string <> ""%string) by discriminate.
  assert (B : 2000 <= 2147483647) by lia.
  pose proof (C1_dwell_activates_once PauseVariant 2000 w appleDoc
                (mkPoint 10 10) appleButton "apple" holdApple 500
                B R eq_refl eq_refl eq_refl H6 H5 S
                (Nat.lt_0_succ 499) eq_refl) as C.
  cbv zeta in C. fold w0 in C. fold w2 in C.
  destruct C as (_ & _ & _ & _ & C5 & C6 & _).
  split; [exact C5|exact C6].
Defined.

Lemma C2_witness :
  let w := run MouseVariant 2000 midDwell mounted in
  let w' := step MouseVariant 2000 (Wait 300) w in
  0 < 2000 /\ reachable MouseVariant 2000 w /\
  (0 <= dwellProgress w' /\ dwellProgress w' <= 100)%Q /\
  (hoveredElement w' = hoveredElement w ->
   (dwellProgress w <= dwellProgress w')%Q).
Proof.
  intros w w'.
  assert (P : 0 < 2000) by reflexivity.
  assert (R : reachable MouseVariant 2000 w) by (exists midDwell; reflexivity).
  pose proof (C2_progress_bounded_monotone_reset 2000 P MouseVariant w
                (Wait 300) R) as C.
  cbv zeta in C. fold w' in C. destruct C as (C1 & C2 & _).
  split; [exact P|]. split; [exact R|]. split; [exact C1|exact C2].
Defined.

Lemma C3_witness :
  let w := run MouseVariant 2000 midDwell mounted in
  let w' := step MouseVariant 2000 (SetEnabled false) w in
  reachable MouseVariant 2000 w /\ enabled w = true /\ noGaze afterDisable /\
  Z.of_nat (duration holdApple) < 2000 /\
  hoveredElement w' = None /\ dwellProgress w' = 0%Q /\
  activations (run MouseVariant 2000 afterDisable w') = activations w /\
  activations (run MouseVariant 2000 holdApple w') = activations w.
Proof.
  intros w w'.
  assert (R : reachable MouseVariant 2000 w) by (exists midDwell; reflexivity).
  assert (E : enabled w = true) by (vm_compute; reflexivity).
  assert (S : Z.of_nat (duration holdApple) < 2000) by reflexivity.
  assert (B : 2000 <= 2147483647) by lia.
  pose proof (C3_disable_cancels_dwell MouseVariant 2000 w afterDisable
                holdApple B R E I S) as C.
  cbv zeta in C. fold w' in C.
  destruct C as (C1 & C2 & _ & _ & (C5 & _) & C6).
  split; [exact R|]. split; [exact E|]. split; [exact I|]. split; [exact S|].
  split; [exact C1|]. split; [exact C2|]. split; [exact C5|exact C6].
Defined.

Lemma C5_witness :
  let w := running MouseVariant in
  reachable MouseVariant 2000 w /\ enabled w = true /\
  isUsingMouse (step MouseVariant 2000 (MouseMove (mkPoint 3 4)) w) = true /\
  (isUsingMouse (run MouseVariant 2000 mouseRecently mounted) = true <->
   exists n, pointerAge mouseRecently false None = Some n /\ (n < 5000)%nat).
Proof.
  intros w.
  assert (R : reachable MouseVariant 2000 w) by (exists started; reflexivity).
  assert (E : enabled w = true) by (vm_compute; reflexivity).
  pose proof (C5_pointer_active_for_5000ms 2000) as [C1 C2].
  destruct (C2 w (mkPoint 3 4) R E) as (M & _).
  split; [exact R|]. split; [exact E|].
  split; [exact M|exact (C1 mouseRecently)].
Defined.

Lemma C6_witness :
  let w := running PauseVariant in
  let w' := run PauseVariant 2000 [SetEnabled false; Wait 100] w in
  reachable PauseVariant 2000 w /\ webgazerInitialized w = true /\
  enabled w' = false /\
  scriptsAppended (step PauseVariant 2000 (SetEnabled true) w') =
    scriptsAppended w /\
  reachable MouseVariant 2000 (running MouseVariant) /\
  scriptsAppended
    (step MouseVariant 2000 (SetEnabled true)
       (step MouseVariant 2000 (SetEnabled false) (running MouseVariant))) =
    S (scriptsAppended (running MouseVariant)).
Proof.
  intros w w'.
  assert (R : reachable PauseVariant 2000 w) by (exists started; reflexivity).
  assert (F : webgazerInitialized w = true) by (vm_compute; reflexivity).
  assert (E : enabled w' = false) by (vm_compute; reflexivity).
  assert (R' : reachable MouseVariant 2000 (running MouseVariant))
    by (exists started; reflexivity).
  assert (F' : webgazerInitialized (running MouseVariant) = true)
    by (vm_compute; reflexivity).
  assert (E' : enabled (running MouseVariant) = true)
    by (vm_compute; reflexivity).
  pose proof (C6_resume_after_success 2000) as [C1 C2].
  destruct (C1 w [SetEnabled false; Wait 100] R F) as (_ & _ & C3).
  destruct (C3 E) as (_ & _ & C4).
  destruct (C2 _ R' F' E') as (_ & C5).
  split; [exact R|]. split; [exact F|]. split; [exact E|].
  split; [exact C4|]. split; [exact R'|exact C5].
Defined.

Lemma C7_witness :
  let w := run MouseVariant 2000 mouseRendered mounted in
  let w' := gazeListener MouseVariant 2000 appleDoc (Some (mkPoint 400 400)) w in
  isUsingMouse w = true /\ renderedSinceMove mouseRendered false = true /\
  gazePosition w' = Some (mkPoint 10 10) /\
  w' = dwellStep 2000 (resolveButton appleDoc (mkPoint 10 10)) w.
Proof.
  intros w w'.
  assert (M : isUsingMouse w = true) by (vm_compute; reflexivity).
  assert (N : renderedSinceMove mouseRendered false = true) by reflexivity.
  split; [exact M|]. split; [exact N|].
  pose proof (C7_gaze_sample_by_source 2000 mouseRendered appleDoc
                (mkPoint 400 400)) as C.
  cbv zeta in C. fold w in C. fold w' in C.
  destruct C as (_ & C & _).
  destruct (C M) as (p & Hp & _ & Hg & _ & Hr).
  assert (p = mkPoint 10 10) by (vm_compute in Hp; congruence).
  subst p. split; [exact Hg|]. exact (proj2 (Hr N)).
Defined.

Lemma C8_witness :
  let w := run PauseVariant 2000 disabledWhileStarting mounted in
  reachable PauseVariant 2000 w /\ pendingBegins w <> O /\ enabled w = false /\
  isInitialized
    (step PauseVariant 2000 (Wait 1000)
          (step PauseVariant 2000 BeginResolved w)) = true.
Proof.
  intros w.
  assert (R : reachable PauseVariant 2000 w)
    by (exists disabledWhileStarting; reflexivity).
  assert (P : pendingBegins w <> O) by (vm_compute; discriminate).
  destruct (C8_late_success_is_applied PauseVariant 2000 w R P)
    as (_ & _ & C & _).
  split; [exact R|]. split; [exact P|]. split; [vm_compute; reflexivity|].
  exact C.
Defined.

Lemma C9_witness :
  let w := run PauseVariant 2000 beforeSvgClick mounted in
  let w' := runTimer 2000 w (tid svgTimer) in
  reachable PauseVariant 2000 w /\ In svgTimer (timers w) /\
  domCalls w' = domCalls w ++ [ClickCall svgButton; DispatchClickEvent svgButton] /\
  activations w' = activations w ++ [svgButton] /\
  hoveredElement w' = None.
Proof.
  intros w w'.
  assert (R : reachable PauseVariant 2000 w)
    by (exists beforeSvgClick; reflexivity).
  assert (T : In svgTimer (timers w)) by (vm_compute; auto).
  pose proof (C9_click_fallback_then_idle PauseVariant 2000 w svgTimer "s"
                svgButton [] R T eq_refl I) as C.
  cbv zeta in C. fold w' in C. destruct C as (C1 & C2 & C3 & _).
  split; [exact R|]. split; [exact T|].
  split; [exact C1|]. split; [exact C2|exact C3].
Defined.

(* ===================================================================== *)
(** ** The further theorems at work on concrete pages *)
(* ===================================================================== *)

Lemma X1_witness :
  let w := run MouseVariant 2000 midDwell mounted in
  reachable MouseVariant 2000 w /\
  exists iv tm b,
    In iv (timers w) /\ action iv = ProgressTick /\
    In tm (timers w) /\ action tm = DwellComplete "apple" b /\
    getAttribute b = Some "apple"%string /\
    deadline tm = dwellStartTimeRef w + timeoutDelay 2000 /\
    forall t, In t (dwellTimers w) -> t = iv \/ t = tm.
Proof.
  intros w.
  assert (R : reachable MouseVariant 2000 w) by (exists midDwell; reflexivity).
  split; [exact R|].
  pose proof (X1_dwell_timers_match_target MouseVariant 2000 w R) as C.
  assert (H : hoveredElement w = Some "apple"%string)
    by (vm_compute; reflexivity).
  rewrite H in C. exact C.
Defined.

Lemma X2_witness :
  let w := run MouseVariant 2000 mouseRecently mounted in
  reachable MouseVariant 2000 w /\ isUsingMouse w = true /\
  exists t, In t (timers w) /\ action t = MouseInactive.
Proof.
  intros w.
  assert (R : reachable MouseVariant 2000 w)
    by (exists mouseRecently; reflexivity).
  assert (M : isUsingMouse w = true) by (vm_compute; reflexivity).
  destruct (X2_pointer_mode_has_its_timer MouseVariant 2000 w R) as (C & _).
  split; [exact R|]. split; [exact M|]. exact (proj1 C M).
Defined.

Lemma X3_witness :
  let w := running PauseVariant in
  let w' := run PauseVariant 2000 holdApple w in
  reachable PauseVariant 2000 w /\ Z.of_nat (duration holdApple) < 2000 /\
  (activations w' = activations w \/
   exists b, activations w' = activations w ++ [b]).
Proof.
  intros w w'.
  assert (R : reachable PauseVariant 2000 w) by (exists started; reflexivity).
  assert (S : Z.of_nat (duration holdApple) < 2000) by reflexivity.
  assert (B : 2000 <= 2147483647) by lia.
  split; [exact R|]. split; [exact S|].
  exact (X3_one_activation_per_dwell_time PauseVariant 2000 w holdApple
           B R S).
Defined.

Lemma X4_witness :
  let w := run PauseVariant 2000 dwellOnSvg mounted in
  reachable PauseVariant 2000 w /\ activations w = [svgButton] /\
  isSymbolButton svgButton.
Proof.
  intros w.
  assert (R : reachable PauseVariant 2000 w)
    by (exists dwellOnSvg; reflexivity).
  assert (A : activations w = [svgButton]) by (vm_compute; reflexivity).
  destruct (X4_only_symbol_buttons_are_clicked PauseVariant 2000 w R)
    as [_ C].
  rewrite A in C. split; [exact R|]. split; [exact A|].
  exact (Forall_inv C).
Defined.

Lemma X5_witness :
  let w := running PauseVariant in
  let w' := step PauseVariant 2000 (Gaze appleDoc (Some (mkPoint 10 10))) w in
  reachable PauseVariant 2000 w /\
  hoveredElement w' = Some "apple"%string /\ dwellProgress w' = 0%Q /\
  dwellStartTimeRef w' = now w.
Proof.
  intros w w'.
  assert (R : reachable PauseVariant 2000 w) by (exists started; reflexivity).
  assert (H5 : currentHoveredRef w <> Some "apple"%string)
    by (vm_compute; discriminate).
  assert (H6 : "apple"%string <> ""%string) by discriminate.
  pose proof (X5_new_target_restarts_dwell PauseVariant 2000 w appleDoc
                (mkPoint 10 10) appleButton "apple"
                R eq_refl eq_refl eq_refl) as C.
  cbv zeta in C. fold w' in C. destruct C as [C _].
  destruct (C H6 H5) as (C1 & C2 & C3 & _).
  split; [exact R|]. split; [exact C1|]. split; [exact C2|exact C3].
Defined.

Lemma X6_witness :
  let w := run PauseVariant 2000 (started ++ [SetEnabled false]) mounted in
  reachable PauseVariant 2000 w /\ In WgPause (wgCalls w) /\
  In WgBegin (wgCalls w).
Proof.
  intros w.
  assert (R : reachable PauseVariant 2000 w)
    by (exists (started ++ [SetEnabled false]); reflexivity).
  assert (P : In WgPause (wgCalls w)) by (vm_compute; auto).
  destruct (X6_library_is_begun_first PauseVariant 2000 w R) as (_ & _ & C).
  split; [exact R|]. split; [exact P|]. exact (C WgPause P).
Defined.

Lemma X7_witness :
  let w1 := run PauseVariant 2000
                (SetEnabled true :: [ScriptLoaded; BeginResolved]) mounted in
  let w2 := step PauseVariant 2000 (SetEnabled false) w1 in
  reachable PauseVariant 2000 mounted /\ enabled mounted = false /\
  noPropChange [ScriptLoaded; BeginResolved] /\
  wgCalls w2 = wgCalls w1 ++ [WgPause; WgPause].
Proof.
  intros w1 w2.
  assert (R : reachable PauseVariant 2000 mounted) by (exists []; reflexivity).
  pose proof (X7_stop_calls_on_disable PauseVariant 2000 mounted
                [ScriptLoaded; BeginResolved] R eq_refl I) as C.
  cbv zeta in C. fold w1 in C. fold w2 in C. destruct C as [_ C].
  assert (F : webgazerInitialized w1 = true) by (vm_compute; reflexivity).
  rewrite F in C.
  split; [exact R|]. split; [reflexivity|]. split; [exact I|exact C].
Defined.

Lemma X8_witness :
  let w := running MouseVariant in
  reachable MouseVariant 2000 w /\
  mouseListener w = enabled w /\ cursorHidden w = enabled w.
Proof.
  intros w.
  assert (R : reachable MouseVariant 2000 w) by (exists started; reflexivity).
  split; [exact R|].
  exact (X8_listener_and_cursor_follow_enabled MouseVariant 2000 w R).
Defined.

Lemma X17_witness :
  let w := run PauseVariant 3000000000 started mounted in
  let w0 :=
    step PauseVariant 3000000000 (Gaze appleDoc (Some (mkPoint 10 10))) w in
  let w1 := step PauseVariant 3000000000 (Wait 1) w0 in
  2147483647 < 3000000000 < 4294967296 /\
  reachable PauseVariant 3000000000 w /\
  activations w1 = activations w ++ [appleButton] /\
  hoveredElement w1 = None.
Proof.
  intros w w0 w1.
  assert (B : 2147483647 < 3000000000 < 4294967296) by lia.
  assert (R : reachable PauseVariant 3000000000 w)
    by (exists started; reflexivity).
  assert (H5 : currentHoveredRef w <> Some "apple"%string)
    by (vm_compute; discriminate).
  assert (H6 : "apple"%string <> ""%string) by discriminate.
  pose proof (X17_oversized_dwell_time_is_not_waited_for PauseVariant
                3000000000 w appleDoc (mkPoint 10 10) appleButton "apple"
                B R eq_refl eq_refl eq_refl H6 H5) as C.
  cbv zeta in C. fold w0 in C. fold w1 in C.
  destruct C as (_ & _ & _ & C4 & C5 & _).
  split; [exact B|]. split; [exact R|]. split; [exact C4|exact C5].
Defined.


Lemma X11_witness :
  NoDup (map GeminiService.entryId
             (GeminiService.flattenVocabulary Constants.VOCABULARY)) /\
  In appleSymbol (App.allSymbols Constants.VOCABULARY) /\
  Types.id appleSymbol = "apple"%string /\
  App.findSymbolById "apple" Constants.VOCABULARY = Some appleSymbol.
Proof.
  assert (N : NoDup (map GeminiService.entryId
                       (GeminiService.flattenVocabulary Constants.VOCABULARY)))
    by (apply distinct_NoDup; vm_compute; reflexivity).
  assert (H : In appleSymbol (App.allSymbols Constants.VOCABULARY))
    by (apply nth_In; vm_compute; lia).
  assert (E : Types.id appleSymbol = "apple"%string)
    by (vm_compute; reflexivity).
  split; [exact N|]. split; [exact H|]. split; [exact E|].
  rewrite <- E.
  exact (X11_lookup_finds_each_symbol Constants.VOCABULARY appleSymbol N H).
Defined.

Lemma X13_witness :
  Board.reachable appleChosen /\
  App.sentence appleChosen = [appleSymbol] /\
  NoDup (map Types.id (App.itemsDisplay appleChosen)) /\
  Forall (fun s => Types.id s <> ""%string /\
                   App.findSymbolById (Types.id s) Constants.VOCABULARY =
                     Some s)
         (App.finalSuggestions appleChosen ++ App.itemsDisplay appleChosen).
Proof.
  assert (R : Board.reachable appleChosen)
    by (exists [Board.TapToStart; Board.ClickCard 0; Board.ClickCard 3];
        reflexivity).
  assert (S : App.sentence appleChosen = [appleSymbol])
    by (vm_compute; reflexivity).
  destruct (X13_cards_carry_vocabulary_ids appleChosen R) as (C1 & _ & C3).
  split; [exact R|]. split; [exact S|]. split; [exact C3|exact C1].
Defined.

Lemma X14_witness :
  Board.reachable appleChosen /\
  Types.relatedIds appleSymbol = Some ["eat"%string] /\
  App.manualSuggestions appleChosen = [] /\
  App.findSymbolById "eat" Constants.VOCABULARY = None.
Proof.
  assert (R : Board.reachable appleChosen)
    by (exists [Board.TapToStart; Board.ClickCard 0; Board.ClickCard 3];
        reflexivity).
  assert (E : Types.relatedIds appleSymbol = Some ["eat"%string])
    by (vm_compute; reflexivity).
  assert (H : In appleSymbol (App.allSymbols Constants.VOCABULARY))
    by (apply nth_In; vm_compute; lia).
  destruct (X14_related_ids_suggest_nothing appleChosen R) as (C1 & _ & C3).
  split; [exact R|]. split; [exact E|]. split; [exact C1|].
  exact (C3 appleSymbol ["eat"%string] "eat"%string H E
            (or_introl eq_refl)).
Defined.

Lemma X15_witness :
  let a' := App.handleSymbolClick appleSymbol Board.initial in
  Types.type appleSymbol = Types.ITEM /\
  App.sentence a' = [appleSymbol] /\
  App.sentence (App.handleBackspace a') = [] /\
  App.sentence (App.removeFromSentence 0 a') = [].
Proof.
  intros a'.
  assert (T : Types.type appleSymbol = Types.ITEM)
    by (vm_compute; reflexivity).
  pose proof (X15_backspace_undoes_item_click appleSymbol Board.initial T)
    as C.
  cbv zeta in C. fold a' in C. destruct C as (C1 & _ & C3 & C4 & _).
  split; [exact T|]. split; [exact C1|]. split; [exact C3|exact C4].
Defined.
